(** * protodump: scanner and renderer of embedded protobuf file descriptors

    A shallow embedding of [pkg/protodump/scan.go] and of the writers of
    [pkg/protodump/proto.go] that [NewFromDescriptor] runs, with the
    properties of the specification proved about them.

    Conventions of the embedding.
    - Go [int] is a 64-bit two's complement integer, modelled as [Z]; the
      conversions [int(x)] of a [uint64] and the sums they enter are wrapped
      explicitly with [toInt], an [int32] decrement with [wrap32].
    - A [[]byte] is a [list byte]; slicing and indexing out of range panic in
      Go, so they are fallible operations of the monad [M].
    - The package-level variable [DebugScan] and the standard output are the
      two components of the [World] threaded through the scanner.
    - Loops are fixpoints on a fuel that the enclosing definition supplies;
      the theorems prove that the supplied fuel always suffices.
    - A [string] is a string of bytes; the methods of [*ProtoDefinition] are
      state transformers in the monad [R], where [None] is a panic.
    - A protoreflect descriptor is a pointer into the tree that the file
      descriptor holds.  The state of [R] carries that tree; a message is
      passed as the node and its position in the tree, and
      [ReservedRanges().Get(i)] reads the node at that position and returns
      the array by value.
    - The packages [bytes], [strings], [utf8], [unicode], [strconv],
      [protowire], [protoreflect] and [protodesc] are not part of the
      repository; what the source uses of them is transcribed from the
      libraries. *)

From Stdlib Require Import ZArith List String Ascii Bool Lia DecimalString.
From Stdlib Require DecimalZ DecimalPos.
From Stdlib.Strings Require Import Byte.
From stdpp Require Import gmap strings list.
Import ListNotations.
Local Open Scope Z_scope.

(** * The embedding *)

(** ** Go values *)

Definition len {A : Type} (l : list A) : Z := Z.of_nat (length l).

#[global] Arguments len : simpl never.

Definition u8 (b : byte) : Z := Z.of_N (Byte.to_N b).

(** [int(x)] for a [uint64] [x], and the wrap-around of [int] arithmetic. *)
Definition toInt (x : Z) : Z := (x + 2 ^ 63) mod 2 ^ 64 - 2 ^ 63.

(** [int32] arithmetic wraps around. *)
Definition wrap32 (x : Z) : Z := (x + 2 ^ 31) mod 2 ^ 32 - 2 ^ 31.

(** [l[lo:hi]] once the bounds are known to be in range. *)
Definition subslice {A : Type} (lo hi : Z) (l : list A) : list A :=
  take (Z.to_nat (hi - lo)) (drop (Z.to_nat lo) l).

Definition bytes_of_string (s : string) : list byte := list_byte_of_string s.

(** ** Package [bytes] *)

Module bytes.

Fixpoint HasPrefix (s prefix : list byte) : bool :=
  match prefix, s with
  | [], _ => true
  | _ :: _, [] => false
  | p :: prefix', c :: s' => Byte.eqb p c && HasPrefix s' prefix'
  end.

(** [bytes.Index(s, sep)]: offset of the first occurrence, or -1. *)
Fixpoint Index (s sep : list byte) : Z :=
  if HasPrefix s sep then 0
  else match s with
       | [] => -1
       | _ :: s' => let r := Index s' sep in if r <? 0 then -1 else r + 1
       end.

(** [bytes.LastIndexByte(s, c)]: offset of the last [c], or -1. *)
Fixpoint LastIndexByte (s : list byte) (c : byte) : Z :=
  match s with
  | [] => -1
  | x :: s' =>
      let r := LastIndexByte s' c in
      if 0 <=? r then r + 1 else if Byte.eqb x c then 0 else -1
  end.

End bytes.

(** ** Package [protowire]

    The wire decoder of google.golang.org/protobuf is imported by the
    scanner and is not part of the repository; it is transcribed here from
    the library. *)

Module protowire.

Definition errCodeTruncated : Z := -1.

Definition errCodeFieldNumber : Z := -2.

Definition errCodeOverflow : Z := -3.

Definition errCodeReserved : Z := -4.

Definition errCodeEndGroup : Z := -5.

Definition errCodeRecursionDepth : Z := -6.

Definition MinValidNumber : Z := 1.

Definition MaxValidNumber : Z := 2 ^ 29 - 1.

Definition DefaultRecursionLimit : Z := 10000.

Definition VarintType : Z := 0.

Definition Fixed64Type : Z := 1.

Definition BytesType : Z := 2.

Definition StartGroupType : Z := 3.

Definition EndGroupType : Z := 4.

Definition Fixed32Type : Z := 5.

(** [ParseError(n).Error()] for a negative [n]. *)
Definition ParseError (n : Z) : string :=
  if n =? errCodeTruncated then "unexpected EOF"
  else if n =? errCodeFieldNumber then "invalid field number"
  else if n =? errCodeOverflow then "variable length integer overflow"
  else if n =? errCodeReserved then "cannot parse reserved wire type"
  else if n =? errCodeEndGroup then "mismatching end group marker"
  else "parse error".

(** The unrolled body of [ConsumeVarint]: byte [i] contributes seven bits;
    the tenth byte may only carry one. *)
Fixpoint varintAt (steps : nat) (i : Z) (v : Z) (b : list byte) : Z * Z :=
  match steps with
  | O => (0, errCodeOverflow)
  | S steps' =>
      match b with
      | [] => (0, errCodeTruncated)
      | c :: b' =>
          let y := u8 c in
          let v := v + Z.shiftl y (7 * i) in
          if y <? (if i =? 9 then 2 else 128) then (v, i + 1)
          else varintAt steps' (i + 1) (v - Z.shiftl 128 (7 * i)) b'
      end
  end.

Definition ConsumeVarint (b : list byte) : Z * Z := varintAt 10 0 0 b.

Definition ConsumeFixed32 (b : list byte) : Z * Z :=
  if len b <? 4 then (0, errCodeTruncated)
  else (fold_right (fun c v => u8 c + 256 * v) 0 (take 4 b), 4).

Definition ConsumeFixed64 (b : list byte) : Z * Z :=
  if len b <? 8 then (0, errCodeTruncated)
  else (fold_right (fun c v => u8 c + 256 * v) 0 (take 8 b), 8).

Definition ConsumeBytes (b : list byte) : list byte * Z :=
  let '(m, n) := ConsumeVarint b in
  if n <? 0 then ([], n)
  else if m >? len b - n then ([], errCodeTruncated)
  else (subslice n (n + m) b, n + m).

Definition DecodeTag (x : Z) : Z * Z :=
  if Z.shiftr x 3 >? 2 ^ 31 - 1 then (-1, 0)
  else (Z.shiftr x 3, Z.land x 7).

Definition ConsumeTag (b : list byte) : Z * Z * Z :=
  let '(v, n) := ConsumeVarint b in
  if n <? 0 then (0, 0, n)
  else
    let '(num, typ) := DecodeTag v in
    if num <? MinValidNumber then (0, 0, errCodeFieldNumber)
    else (num, typ, n).

(** [consumeFieldValueD] and the [for] loop of its group case.  [None]
    means that the fuel ran out. *)
Fixpoint consumeFieldValueD (fuel : nat) (num typ : Z) (b : list byte) (depth : Z)
    {struct fuel} : option Z :=
  match fuel with
  | O => None
  | S fuel' =>
      if typ =? VarintType then Some (snd (ConsumeVarint b))
      else if typ =? Fixed32Type then Some (snd (ConsumeFixed32 b))
      else if typ =? Fixed64Type then Some (snd (ConsumeFixed64 b))
      else if typ =? BytesType then Some (snd (ConsumeBytes b))
      else if typ =? StartGroupType then
        if depth <? 0 then Some errCodeRecursionDepth
        else consumeGroup fuel' num (len b) b depth
      else if typ =? EndGroupType then Some errCodeEndGroup
      else Some errCodeReserved
  end
with consumeGroup (fuel : nat) (num n0 : Z) (b : list byte) (depth : Z)
    {struct fuel} : option Z :=
  match fuel with
  | O => None
  | S fuel' =>
      let '(num2, typ2, n) := ConsumeTag b in
      if n <? 0 then Some n
      else
        let b := drop (Z.to_nat n) b in
        if typ2 =? EndGroupType then
          if negb (num =? num2) then Some errCodeEndGroup
          else Some (n0 - len b)
        else
          match consumeFieldValueD fuel' num2 typ2 b (depth - 1) with
          | None => None
          | Some n =>
              if n <? 0 then Some n
              else consumeGroup fuel' num n0 (drop (Z.to_nat n) b) depth
          end
  end.

Definition ConsumeFieldValue (num typ : Z) (b : list byte) : option Z :=
  consumeFieldValueD (2 * length b + 2) num typ b DefaultRecursionLimit.

Definition ConsumeField (b : list byte) : option (Z * Z * Z) :=
  let '(num, typ, n) := ConsumeTag b in
  if n <? 0 then Some (0, 0, n)
  else
    match ConsumeFieldValue num typ (drop (Z.to_nat n) b) with
    | None => None
    | Some m => if m <? 0 then Some (0, 0, m) else Some (num, typ, n + m)
    end.

End protowire.

(** ** Package [utf8]

    The decoder of unicode/utf8, on which [strings.TrimSpace] falls back
    for a string with a byte outside ASCII. *)

Module utf8.

Definition RuneError : Z := 65533.

Definition RuneSelf : Z := 128.

Definition UTFMax : Z := 4.

(** The value of a byte of a string. *)
Definition byte (c : ascii) : Z := Z.of_nat (nat_of_ascii c).

(** The size that the table [first] gives a leading byte from 0xC2 to
    0xF4. *)
Definition size (s0 : Z) : Z := if s0 <? 224 then 2 else if s0 <? 240 then 3 else 4.

(** The range of [acceptRanges] for the second byte. *)
Definition acceptRange (s0 : Z) : Z * Z :=
  if s0 =? 224 then (160, 191)
  else if s0 =? 237 then (128, 159)
  else if s0 =? 240 then (144, 191)
  else if s0 =? 244 then (128, 143)
  else (128, 191).

(** A continuation byte outside [locb .. hicb]. *)
Definition notContinuation (b : Z) : bool := (b <? 128) || (191 <? b).

Definition DecodeRuneInString (s : list ascii) : Z * Z :=
  match s with
  | [] => (RuneError, 0)
  | c0 :: s1 =>
      let s0 := byte c0 in
      if s0 <? RuneSelf then (s0, 1)
      else if (s0 <? 194) || (244 <? s0) then (RuneError, 1)
      else
        let sz := size s0 in
        let accept := acceptRange s0 in
        if len s <? sz then (RuneError, 1)
        else
          match s1 with
          | [] => (RuneError, 1)
          | c1 :: s2 =>
              let b1 := byte c1 in
              if (b1 <? accept.1) || (accept.2 <? b1) then (RuneError, 1)
              else if sz <=? 2 then
                (Z.lor (Z.shiftl (Z.land s0 31) 6) (Z.land b1 63), 2)
              else
                match s2 with
                | [] => (RuneError, 1)
                | c2 :: s3 =>
                    let b2 := byte c2 in
                    if notContinuation b2 then (RuneError, 1)
                    else if sz <=? 3 then
                      (Z.lor (Z.shiftl (Z.land s0 15) 12)
                         (Z.lor (Z.shiftl (Z.land b1 63) 6) (Z.land b2 63)), 3)
                    else
                      match s3 with
                      | [] => (RuneError, 1)
                      | c3 :: _ =>
                          let b3 := byte c3 in
                          if notContinuation b3 then (RuneError, 1)
                          else
                            (Z.lor (Z.shiftl (Z.land s0 7) 18)
                               (Z.lor (Z.shiftl (Z.land b1 63) 12)
                                  (Z.lor (Z.shiftl (Z.land b2 63) 6) (Z.land b3 63))), 4)
                      end
                end
          end
  end.

Definition RuneStart (b : Z) : bool := negb (Z.land b 192 =? 128).

(** [for start--; start >= lim; start-- { if RuneStart(s[start]) { break } }],
    which runs three times at most. *)
Fixpoint runeStart_loop (fuel : nat) (s : list ascii) (start lim : Z) : Z :=
  match fuel with
  | O => start
  | S fuel' =>
      if start >=? lim then
        match s !! Z.to_nat start with
        | Some c =>
            if RuneStart (byte c) then start else runeStart_loop fuel' s (start - 1) lim
        | None => start
        end
      else start
  end.

Definition DecodeLastRuneInString (s : list ascii) : Z * Z :=
  let end_ := len s in
  if end_ =? 0 then (RuneError, 0)
  else
    let start := end_ - 1 in
    match s !! Z.to_nat start with
    | None => (RuneError, 0)
    | Some c =>
        let r := byte c in
        if r <? RuneSelf then (r, 1)
        else
          let lim := if end_ - UTFMax <? 0 then 0 else end_ - UTFMax in
          let start := runeStart_loop 4 s (start - 1) lim in
          let start := if start <? 0 then 0 else start in
          let '(r, size) := DecodeRuneInString (drop (Z.to_nat start) s) in
          if negb (start + size =? end_) then (RuneError, 1) else (r, size)
    end.

End utf8.

(** ** Package [unicode] *)

Module unicode.

(** [unicode.IsSpace]: the Latin-1 spaces, then the table [White_Space]. *)
Definition IsSpace (r : Z) : bool :=
  if (0 <=? r) && (r <=? 255) then
    (r =? 9) || (r =? 10) || (r =? 11) || (r =? 12) || (r =? 13) || (r =? 32)
    || (r =? 133) || (r =? 160)
  else
    (r =? 5760) || ((8192 <=? r) && (r <=? 8202)) || (r =? 8232) || (r =? 8233)
    || (r =? 8239) || (r =? 8287) || (r =? 12288).

End unicode.

(** ** Package [strings]

    Go strings are byte strings.  [TrimSpace] follows the library: the
    [asciiSpace] table (tab, newline, vertical tab, form feed, carriage
    return, space) as long as the bytes are ASCII, and [unicode.IsSpace] over
    the decoded runes from the first byte that is not. *)

Module strings.

Definition HasPrefix (s prefix : string) : bool := String.prefix prefix s.

(** [strings.Index(s, substr)]: offset of the first occurrence, or -1. *)
Fixpoint Index (s substr : string) : Z :=
  if HasPrefix s substr then 0
  else match s with
       | EmptyString => -1
       | String _ s' => let r := Index s' substr in if r <? 0 then -1 else r + 1
       end.

Definition Contains (s substr : string) : bool := Index s substr >=? 0.

(** The line feed; Go writes it [\n]. *)
Definition LF : string := String (ascii_of_nat 10) EmptyString.

(** The [asciiSpace] table. *)
Definition asciiSpace (c : ascii) : bool :=
  match nat_of_ascii c with
  | 9%nat | 10%nat | 11%nat | 12%nat | 13%nat | 32%nat => true
  | _ => false
  end.

(** [for i, r := range s { if f(r) == truth { return i } }; return -1]; the
    loop is at offset [i], and [None] means that the fuel ran out. *)
Fixpoint indexFunc_loop (fuel : nat) (s : list ascii) (i : Z) (f : Z -> bool) (truth : bool)
    : option Z :=
  match fuel with
  | O => None
  | S fuel' =>
      if i <? len s then
        let '(r, size) := utf8.DecodeRuneInString (drop (Z.to_nat i) s) in
        if Bool.eqb (f r) truth then Some i
        else indexFunc_loop fuel' s (i + size) f truth
      else Some (-1)
  end.

Definition indexFunc (s : list ascii) (f : Z -> bool) (truth : bool) : Z :=
  default (-1) (indexFunc_loop (S (length s)) s 0 f truth).

(** [for i := len(s); i > 0; { r, size := DecodeLastRuneInString(s[0:i]);
    i -= size; if f(r) == truth { return i } }; return -1]. *)
Fixpoint lastIndexFunc_loop (fuel : nat) (s : list ascii) (i : Z) (f : Z -> bool)
    (truth : bool) : option Z :=
  match fuel with
  | O => None
  | S fuel' =>
      if i >? 0 then
        let '(r, size) := utf8.DecodeLastRuneInString (take (Z.to_nat i) s) in
        let i := i - size in
        if Bool.eqb (f r) truth then Some i
        else lastIndexFunc_loop fuel' s i f truth
      else Some (-1)
  end.

Definition lastIndexFunc (s : list ascii) (f : Z -> bool) (truth : bool) : Z :=
  default (-1) (lastIndexFunc_loop (S (length s)) s (len s) f truth).

Definition TrimLeftFunc (s : list ascii) (f : Z -> bool) : list ascii :=
  let i := indexFunc s f false in
  if i =? -1 then [] else drop (Z.to_nat i) s.

Definition TrimRightFunc (s : list ascii) (f : Z -> bool) : list ascii :=
  let i := lastIndexFunc s f false in
  let i :=
    if (i >=? 0)
       && (match s !! Z.to_nat i with
           | Some c => utf8.byte c >=? utf8.RuneSelf
           | None => false
           end)
    then i + snd (utf8.DecodeRuneInString (drop (Z.to_nat i) s))
    else i + 1 in
  take (Z.to_nat i) s.

Definition TrimFunc (s : list ascii) (f : Z -> bool) : list ascii :=
  TrimRightFunc (TrimLeftFunc s f) f.

(** The second loop of [TrimSpace], which retreats [stop]; [r] is
    [s[start:stop]] read backwards. *)
Fixpoint TrimSpace_stop (r : list ascii) : list ascii :=
  match r with
  | [] => []
  | c :: r' =>
      if utf8.byte c >=? utf8.RuneSelf then TrimRightFunc (rev r) unicode.IsSpace
      else if asciiSpace c then TrimSpace_stop r'
      else rev r
  end.

(** The first loop of [TrimSpace], which advances [start]; [s] is
    [s[start:]]. *)
Fixpoint TrimSpace_start (s : list ascii) : list ascii :=
  match s with
  | [] => []
  | c :: s' =>
      if utf8.byte c >=? utf8.RuneSelf then TrimFunc s unicode.IsSpace
      else if asciiSpace c then TrimSpace_start s'
      else TrimSpace_stop (rev s)
  end.

(** [strings.TrimSpace]: the fast path over ASCII, and the fall back on
    [unicode.IsSpace] from the first byte outside ASCII. *)
Definition TrimSpace (s : string) : string :=
  string_of_list_ascii (TrimSpace_start (list_ascii_of_string s)).

Fixpoint HasSuffix (s suffix : string) : bool :=
  if String.eqb s suffix then true
  else match s with
       | EmptyString => false
       | String _ s' => HasSuffix s' suffix
       end.

Definition TrimSuffix (s suffix : string) : string :=
  if HasSuffix s suffix
  then substring 0 (String.length s - String.length suffix) s
  else s.

(** [strings.Split(s, sep)] for a separator of one byte, the only use the
    source makes of it. *)
Fixpoint Split (s : string) (sep : ascii) : list string :=
  match s with
  | EmptyString => [EmptyString]
  | String c s' =>
      if Ascii.eqb c sep then EmptyString :: Split s' sep
      else match Split s' sep with
           | [] => [String c EmptyString]
           | t :: ts => String c t :: ts
           end
  end.

Fixpoint Join (elems : list string) (sep : string) : string :=
  match elems with
  | [] => EmptyString
  | [e] => e
  | e :: elems' => e +:+ sep +:+ Join elems' sep
  end.

(** [strings.Repeat] panics on a negative count. *)
Definition Repeat (s : string) (count : Z) : option string :=
  if count <? 0 then None
  else Some (Nat.iter (Z.to_nat count) (fun acc => s +:+ acc) EmptyString).

(** [strings.ReplaceAll(s, old, new)] for an [old] of one byte. *)
Fixpoint ReplaceAll (s : string) (old : ascii) (new : string) : string :=
  match s with
  | EmptyString => EmptyString
  | String c s' =>
      if Ascii.eqb c old then new +:+ ReplaceAll s' old new
      else String c (ReplaceAll s' old new)
  end.

End strings.

(** ** Package [strconv] *)

Module strconv.

(** [strconv.Itoa], also [fmt.Sprintf("%d", _)]. *)
Definition Itoa (z : Z) : string := NilZero.string_of_int (Z.to_int z).

Definition FormatBool (b : bool) : string := if b then "true" else "false".

End strconv.

(** ** The scanner's effects *)

(** An argument of a [Printf] call. *)
Inductive arg : Type :=
| ArgInt (z : Z)
| ArgBytes (b : list byte)
| ArgString (s : list byte)
| ArgError (e : option string).

(** One call of [fmt.Printf]. *)
Record event : Type := Printf { format : string; args : list arg }.

Record World : Type := { DebugScan : bool; stdout : list event }.

Inductive outcome (A : Type) : Type :=
| Done (a : A) (w : World)
| Panic
| OutOfFuel.

Arguments Done {A} a w.

Arguments Panic {A}.

Arguments OutOfFuel {A}.

Definition M (A : Type) : Type := World -> outcome A.

#[global] Instance M_ret : MRet M := fun A a w => Done a w.

#[global] Instance M_bind : MBind M := fun A B k m w =>
  match m w with
  | Done a w' => k a w'
  | Panic => Panic
  | OutOfFuel => OutOfFuel
  end.

Definition panic {A : Type} : M A := fun _ => Panic.

Definition outOfFuel {A : Type} : M A := fun _ => OutOfFuel.

Definition fmt_Printf (format : string) (args : list arg) : M unit := fun w =>
  Done tt {| DebugScan := DebugScan w; stdout := stdout w ++ [Printf format args] |}.

Definition debugPrintf (format : string) (args : list arg) : M unit := fun w =>
  if DebugScan w then fmt_Printf ("[DEBUG] " +:+ format) args w else Done tt w.

(** A format string that ends in a line feed. *)
Definition line (s : string) : string := s +:+ strings.LF.

(** [data[lo:hi]], [data[lo:]], [data[:hi]] and [data[i]]. *)
Definition slice (data : list byte) (lo hi : Z) : M (list byte) :=
  if (0 <=? lo) && (lo <=? hi) && (hi <=? len data)
  then mret (subslice lo hi data) else panic.

Definition sliceFrom (data : list byte) (lo : Z) : M (list byte) :=
  slice data lo (len data).

Definition sliceTo (data : list byte) (hi : Z) : M (list byte) :=
  slice data 0 hi.

Definition index (data : list byte) (i : Z) : M byte :=
  if (0 <=? i) && (i <? len data)
  then match data !! Z.to_nat i with Some b => mret b | None => panic end
  else panic.

Definition fuelled {A : Type} (o : option A) : M A :=
  match o with Some a => mret a | None => outOfFuel end.

(** ** scan.go *)

(** The constants [scan] and [magicByte]. *)
Definition scan : list byte := bytes_of_string ".proto".

Definition magicByte : byte := x0a.

(** The [for] loop of [consumeBytes]; an error is its message. *)
Fixpoint consumeBytes_loop (fuel : nat) (data : list byte) (start position : Z)
    (consumedFieldOne : bool) : M (Z * option string) :=
  match fuel with
  | O => outOfFuel
  | S fuel' =>
      b ← sliceFrom data position;
      '(number, _, length) ← fuelled (protowire.ConsumeField b);
      if length <? 0 then
        let err := protowire.ParseError length in
        if strings.Contains err "invalid field number"
        then mret (position - start, None)
        else mret (position - start, Some ("couldn't consume proto bytes: " +:+ err))
      else if length =? 0 then mret (position - start, None)
      else
        let advance (consumedFieldOne : bool) : M (Z * option string) :=
          let position := position + length in
          tail ← sliceFrom data start;
          if position - start >=? len tail then mret (position - start, None)
          else consumeBytes_loop fuel' data start position consumedFieldOne in
        if number =? 1 then
          if consumedFieldOne then mret (position - start, None)
          else advance true
        else advance consumedFieldOne
  end.

Definition consumeBytes (data : list byte) (position : Z) : M (Z * option string) :=
  consumeBytes_loop (S (length data)) data position position false.

(** The [for tryLen := 4; tryLen >= 1 && pos >= tryLen; tryLen--] loop of
    [findValidStartWithLength]; [Some] is its [return]. *)
Fixpoint prefix_loop (fuel : nat) (data : list byte) (pos minValidLength tryLen : Z)
    : M (option (Z * Z * Z)) :=
  match fuel with
  | O => outOfFuel
  | S fuel' =>
      if (tryLen >=? 1) && (pos >=? tryLen) then
        let prefixStart := pos - tryLen in
        b ← sliceFrom data prefixStart;
        let '(candidateLen, n) := protowire.ConsumeVarint b in
        if (n =? tryLen) && (toInt candidateLen >=? minValidLength) then
          let expectedEnd := toInt (pos + toInt candidateLen) in
          if expectedEnd <=? len data then
            debugPrintf (line "    Found valid length prefix at %d: %d bytes (ends at %d)")
              [ArgInt prefixStart; ArgInt candidateLen; ArgInt expectedEnd];;
            mret (Some (pos, toInt candidateLen, n))
          else prefix_loop fuel' data pos minValidLength (tryLen - 1)
        else prefix_loop fuel' data pos minValidLength (tryLen - 1)
      else mret None
  end.

(** The test of the loop over the bytes of the file name. *)
Definition printable (b : byte) : bool := negb ((u8 b <? 32) || (u8 b >? 126)).

(** The [for searchStart > 0] loop of [findValidStartWithLength]; [found] is
    the [return] inside [if computedEnd == filenameEnd], and [None] falls
    through to [searchStart = pos]. *)
Fixpoint findValidStart_loop (fuel : nat) (data : list byte) (filenameEnd searchStart : Z)
    : M (Z * Z * Z) :=
  match fuel with
  | O => outOfFuel
  | S fuel' =>
      if negb (searchStart >? 0) then mret (-1, 0, 0)
      else
        head ← sliceTo data searchStart;
        let pos := bytes.LastIndexByte head magicByte in
        if pos =? -1 then mret (-1, 0, 0)
        else
          debugPrintf (line "    Checking candidate 0xa at offset %d") [ArgInt pos];;
          if pos + 1 >=? len data then findValidStart_loop fuel' data filenameEnd pos
          else
            lengthBytes ← sliceFrom data (pos + 1);
            let '(filenameLen, varintLen) := protowire.ConsumeVarint lengthBytes in
            if varintLen <? 0 then
              debugPrintf (line "    Failed to parse varint at offset %d") [ArgInt (pos + 1)];;
              findValidStart_loop fuel' data filenameEnd pos
            else
              debugPrintf (line "    Varint: length=%d, varintLen=%d")
                [ArgInt filenameLen; ArgInt varintLen];;
              let computedEnd := toInt (pos + 1 + varintLen + toInt filenameLen) in
              debugPrintf (line "    Computed filename end: %d, actual end: %d")
                [ArgInt computedEnd; ArgInt filenameEnd];;
              found ←
                (if computedEnd =? filenameEnd then
                   let filenameStart := pos + 1 + varintLen in
                   if (filenameStart <? len data) && (filenameStart <? filenameEnd) then
                     filename ← slice data filenameStart filenameEnd;
                     let valid := forallb printable filename in
                     if valid then
                       debugPrintf (line "    Found valid start at offset %d, filename: %q")
                         [ArgInt pos; ArgString filename];;
                       let minValidLength := len filename + 50 in
                       prefixed ←
                         (if pos >=? 1 then prefix_loop 5 data pos minValidLength 4
                          else mret None);
                       match prefixed with
                       | Some r => mret (Some r)
                       | None => mret (Some (pos, 0, 0))
                       end
                     else mret None
                   else mret None
                 else mret None);
              match found with
              | Some r => mret r
              | None => findValidStart_loop fuel' data filenameEnd pos
              end
  end.

Definition findValidStartWithLength (data : list byte) (protoIndex : Z) : M (Z * Z * Z) :=
  let filenameEnd := protoIndex + len scan in
  findValidStart_loop (S (Z.to_nat protoIndex)) data filenameEnd protoIndex.

(** A [[]byte] result of [Scan] is a window of the scanned buffer; the model
    keeps the window's absolute offset (the source's [totalOffset + start])
    together with its bytes. *)
Record Candidate : Type := { cStart : Z; cBytes : list byte }.

Definition cEnd (c : Candidate) : Z := cStart c + len (cBytes c).

(** How one iteration of the [for] loop of [Scan] ends: [break], [continue]
    after skipping the marker, or the append at the bottom of the body.  The
    last two carry the new [data] and [totalOffset]. *)
Inductive step : Type :=
| Break
| Skip (data : list byte) (totalOffset : Z)
| Emit (c : Candidate) (data : list byte) (totalOffset : Z).

(** The loop that extracts the file name for the debug output. *)
Fixpoint filenameStart_loop (fuel : nat) (data : list byte) (filenameStart : Z) : M Z :=
  match fuel with
  | O => outOfFuel
  | S fuel' =>
      if filenameStart >? 0 then
        c ← index data (filenameStart - 1);
        if negb (Byte.eqb c x0a) && (u8 c >=? 32) && (u8 c <=? 126)
        then filenameStart_loop fuel' data (filenameStart - 1)
        else mret filenameStart
      else mret filenameStart
  end.

(** The body of the [for] loop of [Scan]. *)
Definition ScanStep (data : list byte) (totalOffset : Z) : M step :=
  let index := bytes.Index data scan in
  if index =? -1 then mret Break
  else
    let filenameEnd := index + len scan in
    filenameStart ← filenameStart_loop (S (Z.to_nat index)) data index;
    filename ← slice data filenameStart filenameEnd;
    debugPrintf (line "Found '.proto' at offset %d (absolute: %d), possible filename: %q")
      [ArgInt index; ArgInt (totalOffset + index); ArgString filename];;
    '(start, prefixLen, prefixBytes) ← findValidStartWithLength data index;
    if start =? -1 then
      debugPrintf (line "  No valid start found, skipping") [];;
      rest ← sliceFrom data (index + 1);
      mret (Skip rest (totalOffset + (index + 1)))
    else
      debugPrintf (line "  Using start at offset %d, prefixLen=%d, prefixBytes=%d")
        [ArgInt start; ArgInt prefixLen; ArgInt prefixBytes];;
      let contextStart := if start >? 10 then start - 10 else start in
      let contextEnd := if start + 30 >? len data then len data else start + 30 in
      context ← slice data contextStart contextEnd;
      debugPrintf (line "  Bytes around start: %x") [ArgBytes context];;
      let append (length : Z) : M step :=
        debugPrintf (line "  Extracted %d bytes from offset %d") [ArgInt length; ArgInt start];;
        result ← slice data start (start + length);
        rest ← sliceFrom data (start + length);
        mret (Emit {| cStart := totalOffset + start; cBytes := result |}
                rest (totalOffset + (start + length))) in
      if (prefixLen >? 0) && (start + prefixLen <=? len data) then
        let length := prefixLen in
        debugPrintf (line "  Using length prefix: %d bytes") [ArgInt length];;
        append length
      else
        '(length, err) ← consumeBytes data start;
        debugPrintf (line "  consumeBytes returned length=%d, err=%v")
          [ArgInt length; ArgError err];;
        match err with
        | Some _ =>
            fmt_Printf (line "%v") [ArgError err];;
            if len data >? index then
              rest ← sliceFrom data (index + 1);
              mret (Skip rest (totalOffset + (index + 1)))
            else mret Break
        | None => append length
        end.

Fixpoint Scan_loop (fuel : nat) (data : list byte) (totalOffset : Z)
    (results : list Candidate) : M (list Candidate) :=
  match fuel with
  | O => outOfFuel
  | S fuel' =>
      s ← ScanStep data totalOffset;
      match s with
      | Break => mret results
      | Skip data' totalOffset' => Scan_loop fuel' data' totalOffset' results
      | Emit c data' totalOffset' => Scan_loop fuel' data' totalOffset' (results ++ [c])
      end
  end.

Definition Scan (data : list byte) : M (list Candidate) :=
  Scan_loop (S (length data)) data 0 [].

(** Two initial worlds. *)
Definition quiet : World := {| DebugScan := false; stdout := [] |}.

Definition verbose : World := {| DebugScan := true; stdout := [] |}.

(** ** The descriptors that proto.go reads

    [protoreflect] and [descriptorpb] belong to google.golang.org/protobuf;
    a descriptor is modelled by the values of the accessors that the
    renderer calls. *)

Inductive Kind : Type :=
| BoolKind | EnumKind | Int32Kind | Sint32Kind | Uint32Kind
| Int64Kind | Sint64Kind | Uint64Kind | Sfixed32Kind | Fixed32Kind
| FloatKind | Sfixed64Kind | Fixed64Kind | DoubleKind
| StringKind | BytesKind | MessageKind | GroupKind.

(** [Kind.String()]. *)
Definition Kind_String (k : Kind) : string :=
  match k with
  | BoolKind => "bool" | EnumKind => "enum" | Int32Kind => "int32"
  | Sint32Kind => "sint32" | Uint32Kind => "uint32" | Int64Kind => "int64"
  | Sint64Kind => "sint64" | Uint64Kind => "uint64" | Sfixed32Kind => "sfixed32"
  | Fixed32Kind => "fixed32" | FloatKind => "float" | Sfixed64Kind => "sfixed64"
  | Fixed64Kind => "fixed64" | DoubleKind => "double" | StringKind => "string"
  | BytesKind => "bytes" | MessageKind => "message" | GroupKind => "group"
  end.

Inductive Cardinality : Type := Optional | Required | Repeated.

(** [Cardinality.String()]. *)
Definition Cardinality_String (c : Cardinality) : string :=
  match c with
  | Optional => "optional" | Required => "required" | Repeated => "repeated"
  end.

(** [protoreflect.FieldDescriptor].  [fMessage] and [fEnum] are the full
    names of [Message()] and [Enum()], [fDefault] is [Default().String()],
    [fDefaultEnumValue] the name of [DefaultEnumValue()], [fInOneof] tells
    whether [ContainingOneof()] is not nil; [MapKey()] and [MapValue()] are
    nil outside map fields. *)
#[warnings="-register-all"]
Inductive FieldDescriptor : Type := mkField {
  fName : string;
  fNumber : Z;
  fHasOptionalKeyword : bool;
  fCardinality : Cardinality;
  fKind : Kind;
  fMessage : string;
  fEnum : string;
  fMapKey : option FieldDescriptor;
  fMapValue : option FieldDescriptor;
  fHasDefault : bool;
  fDefault : string;
  fDefaultEnumValue : string;
  fInOneof : bool }.

Record OneofDescriptor : Type := {
  oName : string;
  oIsSynthetic : bool;
  oFields : list FieldDescriptor }.

Record EnumValueDescriptor : Type := { vName : string; vNumber : Z }.

Record EnumDescriptor : Type := { eName : string; eValues : list EnumValueDescriptor }.

(** A reserved range is a [[2]FieldNumber], an array of two [int32]. *)
Abbreviation FieldRange := (Z * Z)%type.

#[warnings="-register-all"]
Inductive MessageDescriptor : Type := mkMessage {
  mName : string;
  mReservedNames : list string;
  mReservedRanges : list FieldRange;
  mMessages : list MessageDescriptor;
  mEnums : list EnumDescriptor;
  mFields : list FieldDescriptor;
  mOneofs : list OneofDescriptor }.

Record MethodDescriptor : Type := {
  rName : string;
  rIsStreamingClient : bool;
  rInput : string;
  rIsStreamingServer : bool;
  rOutput : string }.

Record ServiceDescriptor : Type := { sName : string; sMethods : list MethodDescriptor }.

Record FileImport : Type := { iPath : string; iIsPublic : bool }.

Record FileDescriptor : Type := {
  dSyntax : string;
  dFullName : string;
  dPath : string;
  dImports : list FileImport;
  dServices : list ServiceDescriptor;
  dMessages : list MessageDescriptor;
  dEnums : list EnumDescriptor }.

(** One entry of [SourceCodeInfo.location]. *)
Record Location : Type := {
  lPath : list Z;
  lLeadingComments : string;
  lTrailingComments : string;
  lLeadingDetachedComments : list string }.

(** A value of one of the options that [writeFileOptions] lists. *)
Inductive OptionValue : Type := OptString (s : string) | OptBool (b : bool).

(** [descriptorpb.FileDescriptorProto], as far as the renderer and
    [protodesc] read it: the options that are set, by Go field name, the
    locations, and the file that the message describes, in the shape in which
    the descriptor built from it presents it. *)
Record FileDescriptorProto : Type := {
  pOptions : option (gmap string OptionValue);
  pSourceCodeInfo : option (list Location);
  pFile : FileDescriptor }.

(** *** The tree of messages as a store

    A [protoreflect.MessageDescriptor] is a pointer to a node of the tree
    that the file descriptor holds, and [ReservedRanges().Get(i)] reads the
    list of that node.  A node is named by its position: the index of a
    top-level message, then the indices of the nested messages down to
    it. *)

Abbreviation MessageRef := (list nat).

Definition set_mReservedRanges (ranges : list FieldRange) (m : MessageDescriptor)
    : MessageDescriptor :=
  mkMessage (mName m) (mReservedNames m) ranges (mMessages m) (mEnums m) (mFields m)
    (mOneofs m).

Definition set_mMessages (messages : list MessageDescriptor) (m : MessageDescriptor)
    : MessageDescriptor :=
  mkMessage (mName m) (mReservedNames m) (mReservedRanges m) messages (mEnums m)
    (mFields m) (mOneofs m).

Definition set_dMessages (messages : list MessageDescriptor) (d : FileDescriptor)
    : FileDescriptor :=
  {| dSyntax := dSyntax d; dFullName := dFullName d; dPath := dPath d;
     dImports := dImports d; dServices := dServices d; dMessages := messages;
     dEnums := dEnums d |}.

(** The node at a position. *)
Fixpoint messageAt (messages : list MessageDescriptor) (ref : MessageRef)
    : option MessageDescriptor :=
  match ref with
  | [] => None
  | [i] => messages !! i
  | i :: ref' =>
      match messages !! i with
      | Some m => messageAt (mMessages m) ref'
      | None => None
      end
  end.

(** The tree after [List[i] = v] on the reserved ranges of the node at
    [ref]. *)
Fixpoint storeRange (messages : list MessageDescriptor) (ref : MessageRef) (i : nat)
    (v : FieldRange) : list MessageDescriptor :=
  match ref with
  | [] => messages
  | [j] =>
      alter (fun m => set_mReservedRanges (<[i := v]> (mReservedRanges m)) m) j messages
  | j :: ref' =>
      alter (fun m => set_mMessages (storeRange (mMessages m) ref' i v) m) j messages
  end.

(** ** Package [protodesc]

    [protodesc.FileOptions.New] builds the file descriptor of a
    [FileDescriptorProto] and validates it.  The checks of
    [validateMessageDeclarations] on the reserved names, the reserved ranges
    and the oneofs of every message are transcribed from the library; the
    remaining checks of the library, on parts that the renderer only prints,
    are the parameter [rest] of [New].  Which of several failing checks is
    the one reported is not modelled beyond the order written here. *)

Module protodesc.

Inductive error : Type :=
| DuplicateName (name : string)
| InvalidFieldNumber (n : Z)
| InvalidRange (r : FieldRange)
| OverlappingRanges (rp r : FieldRange)
| EmptyOneof (oneof : string)
| Other (message : string).

(** [Names.CheckValid]: no name is listed twice. *)
Fixpoint Names_CheckValid (names : list string) : option error :=
  match names with
  | [] => None
  | name :: names' =>
      if existsb (String.eqb name) names' then Some (DuplicateName name)
      else Names_CheckValid names'
  end.

(** The copy of the list that [lazyInit] sorts by the start of the
    ranges. *)
Fixpoint insertRange (r : FieldRange) (sorted : list FieldRange) : list FieldRange :=
  match sorted with
  | [] => [r]
  | r' :: sorted' => if r.1 <? r'.1 then r :: sorted else r' :: insertRange r sorted'
  end.

Definition sortRanges (ranges : list FieldRange) : list FieldRange :=
  fold_right insertRange [] ranges.

(** [fieldRange.Start] and [fieldRange.End], both inclusive. *)
Definition Start (r : FieldRange) : Z := r.1.

Definition End (r : FieldRange) : Z := wrap32 (r.2 - 1).

Definition isValidFieldNumber (n : Z) (isMessageSet : bool) : bool :=
  (protowire.MinValidNumber <=? n) && ((n <=? protowire.MaxValidNumber) || isMessageSet).

(** The loop of [FieldRanges.CheckValid] over the sorted ranges; [rp] is
    the range before, if there is one. *)
Fixpoint CheckValid_loop (rp : option FieldRange) (sorted : list FieldRange)
    (isMessageSet : bool) : option error :=
  match sorted with
  | [] => None
  | r :: sorted' =>
      if negb (isValidFieldNumber (Start r) isMessageSet)
      then Some (InvalidFieldNumber (Start r))
      else if negb (isValidFieldNumber (End r) isMessageSet)
      then Some (InvalidFieldNumber (End r))
      else if negb (Start r <=? End r) then Some (InvalidRange r)
      else
        match rp with
        | Some rp' =>
            if negb (End rp' <? Start r) then Some (OverlappingRanges rp' r)
            else CheckValid_loop (Some r) sorted' isMessageSet
        | None => CheckValid_loop (Some r) sorted' isMessageSet
        end
  end.

Definition FieldRanges_CheckValid (ranges : list FieldRange) (isMessageSet : bool)
    : option error :=
  CheckValid_loop None (sortRanges ranges) isMessageSet.

(** The loop over the oneofs: each contains a field. *)
Fixpoint validateOneofs (oneofs : list OneofDescriptor) : option error :=
  match oneofs with
  | [] => None
  | o :: oneofs' =>
      if len (oFields o) =? 0 then Some (EmptyOneof (oName o)) else validateOneofs oneofs'
  end.

(** [validateMessageDeclarations], for the messages of one level and then
    for those nested in each.  A message set, the only kind of message for
    which [isMessageSet] holds, is refused by one of the remaining checks. *)
Fixpoint validateMessage (m : MessageDescriptor) : option error :=
  match Names_CheckValid (mReservedNames m) with
  | Some err => Some err
  | None =>
      match FieldRanges_CheckValid (mReservedRanges m) false with
      | Some err => Some err
      | None =>
          match validateOneofs (mOneofs m) with
          | Some err => Some err
          | None =>
              (fix validateAll (ms : list MessageDescriptor) : option error :=
                 match ms with
                 | [] => None
                 | m' :: ms' =>
                     match validateMessage m' with
                     | Some err => Some err
                     | None => validateAll ms'
                     end
                 end) (mMessages m)
          end
      end
  end.

Fixpoint validateMessageDeclarations (ms : list MessageDescriptor) : option error :=
  match ms with
  | [] => None
  | m :: ms' =>
      match validateMessage m with
      | Some err => Some err
      | None => validateMessageDeclarations ms'
      end
  end.

(** [FileOptions.New]: the descriptor, or the error of the first check
    that fails. *)
Definition New (rest : FileDescriptor -> option error) (pb : FileDescriptorProto)
    : FileDescriptor + error :=
  let descriptor := pFile pb in
  match validateMessageDeclarations (dMessages descriptor) with
  | Some err => inr err
  | None =>
      match rest descriptor with
      | Some err => inr err
      | None => inl descriptor
      end
  end.

End protodesc.

(** ** proto.go *)

Record CommentInfo : Type := {
  LeadingComments : string;
  TrailingComments : string;
  LeadingDetachedComments : list string }.

Definition pathKey (path : list Z) : string :=
  strings.Join (map strconv.Itoa path) ".".

(** A nil [comments] map answers every lookup like the empty one, which is
    how it is modelled. *)
Record ProtoDefinition : Type := {
  builder : string;
  indendation : Z;
  pb : FileDescriptorProto;
  descriptor : FileDescriptor;
  filename : string;
  comments : gmap string CommentInfo }.

(** The methods of [*ProtoDefinition] pass the definition along; [None] is
    a panic. *)
Definition R (A : Type) : Type := ProtoDefinition -> option (A * ProtoDefinition).

#[global] Instance R_ret : MRet R := fun A a pd => Some (a, pd).

#[global] Instance R_bind : MBind R := fun A B k m pd =>
  match m pd with
  | Some (a, pd') => k a pd'
  | None => None
  end.

Definition raise {A : Type} : R A := fun _ => None.

(** The receiver, for reading its fields. *)
Definition receiver : R ProtoDefinition := fun pd => Some (pd, pd).

Definition set_builder (s : string) (pd : ProtoDefinition) : ProtoDefinition :=
  {| builder := s; indendation := indendation pd; pb := pb pd;
     descriptor := descriptor pd; filename := filename pd; comments := comments pd |}.

Definition set_indendation (n : Z) (pd : ProtoDefinition) : ProtoDefinition :=
  {| builder := builder pd; indendation := n; pb := pb pd;
     descriptor := descriptor pd; filename := filename pd; comments := comments pd |}.

Definition set_comments (m : gmap string CommentInfo) (pd : ProtoDefinition)
    : ProtoDefinition :=
  {| builder := builder pd; indendation := indendation pd; pb := pb pd;
     descriptor := descriptor pd; filename := filename pd; comments := m |}.

Definition set_descriptor (d : FileDescriptor) (pd : ProtoDefinition) : ProtoDefinition :=
  {| builder := builder pd; indendation := indendation pd; pb := pb pd;
     descriptor := d; filename := filename pd; comments := comments pd |}.

(** [for i := 0; i < l.Len(); i++ { body(i, l.Get(i)) }]. *)
Definition each {A : Type} (body : Z -> A -> R unit) : Z -> list A -> R unit :=
  fix go (i : Z) (l : list A) : R unit :=
    match l with
    | [] => mret tt
    | x :: l' => body i x;; go (i + 1) l'
    end.

(** The body of the loop of [buildCommentMap]. *)
Definition recordLocation (pd : ProtoDefinition) (loc : Location) : ProtoDefinition :=
  let key := pathKey (lPath loc) in
  set_comments
    (<[key := {| LeadingComments := lLeadingComments loc;
                 TrailingComments := lTrailingComments loc;
                 LeadingDetachedComments := lLeadingDetachedComments loc |}]>
       (comments pd)) pd.

Definition buildCommentMap : R unit := fun pd =>
  let pd := set_comments ∅ pd in
  match pSourceCodeInfo (pb pd) with
  | None => Some (tt, pd)
  | Some locations => Some (tt, fold_left recordLocation locations pd)
  end.

Definition getComments (path : list Z) : R (option CommentInfo) := fun pd =>
  Some (comments pd !! pathKey path, pd).

Definition write (s : string) : R unit := fun pd =>
  Some (tt, set_builder (builder pd +:+ s) pd).
#[global] Arguments write : simpl never.

Definition writeIndented (s : string) : R unit := fun pd =>
  match strings.Repeat "  " (indendation pd) with
  | Some spaces => (write spaces;; write s) pd
  | None => None
  end.

Definition indent : R unit := fun pd =>
  Some (tt, set_indendation (indendation pd + 1) pd).

Definition dedent : R unit := fun pd =>
  Some (tt, set_indendation (indendation pd - 1) pd).

Definition writeComment (comment : string) : R unit :=
  if String.eqb comment "" then mret tt
  else
    let comment := strings.TrimSuffix comment strings.LF in
    let lines := strings.Split comment (ascii_of_nat 10) in
    each (fun _ line => writeIndented "//";; write line;; write strings.LF) 0 lines.

Definition writeLeadingComments (path : list Z) : R unit :=
  info ← getComments path;
  match info with
  | None => mret tt
  | Some info =>
      each (fun _ comment => writeComment comment;; write strings.LF)
        0 (LeadingDetachedComments info);;
      if negb (String.eqb (LeadingComments info) "")
      then writeComment (LeadingComments info)
      else mret tt
  end.

Definition writeTrailingComment (path : list Z) : R unit :=
  info ← getComments path;
  match info with
  | None => mret tt
  | Some info =>
      if String.eqb (TrailingComments info) "" then mret tt
      else
        let comment := strings.TrimSpace (TrailingComments info) in
        if negb (String.eqb comment "") then
          let comment := strings.TrimSuffix comment strings.LF in
          if negb (strings.Contains comment strings.LF) then
            write " //";; write comment
          else mret tt
        else mret tt
  end.

(** The double quote character. *)
Definition quote : string := String (ascii_of_nat 34) EmptyString.

(** The backslash. *)
Definition backslash : ascii := ascii_of_nat 92.

Definition writeMethodWithPath (method : MethodDescriptor) (servicePath : list Z)
    (methodIdx : Z) : R unit :=
  let methodPath := servicePath ++ [2; methodIdx] in
  writeLeadingComments methodPath;;
  writeIndented "rpc ";;
  write (rName method);;
  write " (";;
  (if rIsStreamingClient method then write "stream " else mret tt);;
  write ".";;
  write (rInput method);;
  write ") returns (";;
  (if rIsStreamingServer method then write "stream " else mret tt);;
  write ".";;
  write (rOutput method);;
  write ") {}";;
  writeTrailingComment methodPath;;
  write strings.LF.

Definition writeServiceWithPath (service : ServiceDescriptor) (serviceIdx : Z) : R unit :=
  let servicePath := [6; serviceIdx] in
  writeLeadingComments servicePath;;
  write "service ";;
  write (sName service);;
  write (" {" +:+ strings.LF);;
  indent;;
  each (fun i method => writeMethodWithPath method servicePath i) 0 (sMethods service);;
  dedent;;
  writeIndented ("}" +:+ strings.LF +:+ strings.LF).

Fixpoint writeType (field : FieldDescriptor) : R unit :=
  let kind := Kind_String (fKind field) in
  if String.eqb kind "message" then
    write ".";;
    write (fMessage field)
  else if String.eqb kind "enum" then
    write ".";;
    write (fEnum field)
  else if String.eqb kind "map" then
    write "map<";;
    match fMapKey field with Some key => writeType key | None => raise end;;
    write ", ";;
    match fMapValue field with Some value => writeType value | None => raise end;;
    write ">"
  else write kind.

Definition writeFieldWithPath (field : FieldDescriptor) (msgPath : list Z) (fieldIdx : Z)
    : R unit :=
  let fieldPath := msgPath ++ [2; fieldIdx] in
  writeLeadingComments fieldPath;;
  writeIndented "";;
  pd ← receiver;
  (if fHasOptionalKeyword field then write "optional "
   else if String.eqb (Cardinality_String (fCardinality field)) "repeated"
   then write "repeated "
   else if String.eqb (Cardinality_String (fCardinality field)) "required"
           && String.eqb (dSyntax (descriptor pd)) "proto2"
   then write "required "
   else mret tt);;
  writeType field;;
  write " ";;
  write (fName field);;
  write " = ";;
  write (strconv.Itoa (fNumber field));;
  (if fHasDefault field then
     write " [default = ";;
     let kind := Kind_String (fKind field) in
     (if String.eqb kind "string" then write (quote +:+ fDefault field +:+ quote)
      else if String.eqb kind "enum" then write (fDefaultEnumValue field)
      else write (fDefault field));;
     write "]"
   else mret tt);;
  write ";";;
  writeTrailingComment fieldPath;;
  write strings.LF.

(** [oneof.Fields().Get(0)] panics when the oneof has no field. *)
Definition Get {A : Type} (l : list A) (i : nat) : R A :=
  match l !! i with Some x => mret x | None => raise end.

Definition writeOneofWithPath (oneof : OneofDescriptor) (msgPath : list Z) (oneofIdx : Z)
    (fieldIndexMap : gmap string Z) : R unit :=
  let oneofPath := msgPath ++ [8; oneofIdx] in
  if oIsSynthetic oneof then
    field ← Get (oFields oneof) 0;
    let fieldIdx := default 0 (fieldIndexMap !! fName field) in
    writeFieldWithPath field msgPath fieldIdx
  else
    writeLeadingComments oneofPath;;
    writeIndented "";;
    write "oneof ";;
    write (oName oneof);;
    write (" {" +:+ strings.LF);;
    indent;;
    each (fun _ field =>
            let fieldIdx := default 0 (fieldIndexMap !! fName field) in
            writeFieldWithPath field msgPath fieldIdx)
      0 (oFields oneof);;
    dedent;;
    writeIndented "}";;
    writeTrailingComment oneofPath;;
    write strings.LF.

Definition writeEnumWithPath (enum : EnumDescriptor) (basePath : list Z) (enumIdx : Z)
    (isNested : bool) : R unit :=
  let enumPath := if isNested then basePath ++ [4; enumIdx] else [5; enumIdx] in
  writeLeadingComments enumPath;;
  writeIndented "enum ";;
  write (eName enum);;
  write (" {" +:+ strings.LF);;
  indent;;
  each (fun i value =>
          let valuePath := enumPath ++ [2; i] in
          writeLeadingComments valuePath;;
          writeIndented (vName value);;
          write " = ";;
          write (strconv.Itoa (vNumber value));;
          write ";";;
          writeTrailingComment valuePath;;
          write strings.LF)
    0 (eValues enum);;
  dedent;;
  writeIndented "}";;
  writeTrailingComment enumPath;;
  write (strings.LF +:+ strings.LF).

(** *** The variable [reservedRange]

    [message.ReservedRanges().Get(i)] returns a [[2]FieldNumber], an array,
    and Go passes and assigns arrays by value: [reservedRange := ...Get(i)]
    declares an array variable of its own.  The statements that follow
    assign to the elements of [reservedRange]; they are written here against
    the place where the array lives, which is either a variable of its own
    or the element [List[i]] of the reserved ranges of a node of the tree,
    so that what the assignments reach is a consequence of what [Get]
    returns. *)
Inductive place : Type :=
| OwnArray (v : FieldRange)
| ListElement (ref : MessageRef) (i : nat).

(** The node that a message descriptor points to; a dangling pointer
    panics. *)
Definition messageOf (ref : MessageRef) : R MessageDescriptor := fun pd =>
  match messageAt (dMessages (descriptor pd)) ref with
  | Some m => Some (m, pd)
  | None => None
  end.

(** [p[k]] for [k] 0 or 1. *)
Definition index2 (p : place) (k : nat) : R Z :=
  match p with
  | OwnArray v => mret (if k is 0%nat then v.1 else v.2)
  | ListElement ref i =>
      m ← messageOf ref;
      v ← Get (mReservedRanges m) i;
      mret (if k is 0%nat then v.1 else v.2)
  end.

(** [List[i] = v] in the node at [ref]. *)
Definition storeElement (ref : MessageRef) (i : nat) (v : FieldRange) : R unit := fun pd =>
  Some (tt, set_descriptor
              (set_dMessages (storeRange (dMessages (descriptor pd)) ref i v)
                 (descriptor pd)) pd).

(** [p[k] = x]; the result is the place afterwards. *)
Definition setIndex2 (p : place) (k : nat) (x : Z) : R place :=
  match p with
  | OwnArray v => mret (OwnArray (if k is 0%nat then (x, v.2) else (v.1, x)))
  | ListElement ref i =>
      m ← messageOf ref;
      v ← Get (mReservedRanges m) i;
      storeElement ref i (if k is 0%nat then (x, v.2) else (v.1, x));;
      mret p
  end.

(** [message.ReservedRanges().Get(i)]: the array [List[i]], by value. *)
Definition FieldRanges_Get (ref : MessageRef) (i : nat) : R FieldRange :=
  m ← messageOf ref;
  Get (mReservedRanges m) i.

(** The statements of the loop body that follow the declaration of
    [reservedRange]. *)
Definition writeRange (reservedRange : place) : R unit :=
  r0 ← index2 reservedRange 0;
  r1 ← index2 reservedRange 1;
  reservedRange ←
    (if r0 >? r1 then
       reservedRange ← setIndex2 reservedRange 1 r0;
       setIndex2 reservedRange 0 r1
     else mret reservedRange);
  r1 ← index2 reservedRange 1;
  reservedRange ← setIndex2 reservedRange 1 (wrap32 (r1 - 1));
  r0 ← index2 reservedRange 0;
  r1 ← index2 reservedRange 1;
  (if r0 =? r1 then
     r0 ← index2 reservedRange 0;
     write (strconv.Itoa r0)
   else
     r0 ← index2 reservedRange 0;
     write (strconv.Itoa r0);;
     write " to ";;
     r1 ← index2 reservedRange 1;
     if r1 =? protowire.MaxValidNumber then write "max"
     else
       r1 ← index2 reservedRange 1;
       write (strconv.Itoa r1));;
  write (";" +:+ strings.LF).

(** The body of the loop over [message.ReservedRanges()], for the message
    at [ref]. *)
Definition writeReservedRange (ref : MessageRef) (i : nat) : R unit :=
  writeIndented "reserved ";;
  v ← FieldRanges_Get ref i;
  writeRange (OwnArray v).

(** [fieldIndexMap[string(field.Name())] = i] for every field in turn. *)
Fixpoint indexFields (i : Z) (fields : list FieldDescriptor) (m : gmap string Z)
    : gmap string Z :=
  match fields with
  | [] => m
  | field :: fields' => indexFields (i + 1) fields' (<[fName field := i]> m)
  end.

(** [message] is the node and [ref] its position in the tree of the
    receiver's descriptor, the two halves of the pointer that the source
    passes. *)
Fixpoint writeMessageWithPath (message : MessageDescriptor) (ref : MessageRef)
    (basePath : list Z) (msgIdx : Z) (isNested : bool) {struct message} : R unit :=
  let msgPath := if isNested then basePath ++ [3; msgIdx] else [4; msgIdx] in
  writeLeadingComments msgPath;;
  writeIndented "message ";;
  write (mName message);;
  write (" {" +:+ strings.LF);;
  indent;;
  each (fun _ name =>
          writeIndented ("reserved " +:+ quote);;
          write name;;
          write (quote +:+ ";" +:+ strings.LF))
    0 (mReservedNames message);;
  each (fun i _ => writeReservedRange ref (Z.to_nat i)) 0 (mReservedRanges message);;
  each (fun i nested => writeMessageWithPath nested (ref ++ [Z.to_nat i]) msgPath i true)
    0 (mMessages message);;
  each (fun i enum => writeEnumWithPath enum msgPath i true) 0 (mEnums message);;
  let fieldIndexMap := indexFields 0 (mFields message) ∅ in
  each (fun i field =>
          if negb (fInOneof field) then writeFieldWithPath field msgPath i else mret tt)
    0 (mFields message);;
  each (fun i oneof => writeOneofWithPath oneof msgPath i fieldIndexMap)
    0 (mOneofs message);;
  dedent;;
  writeIndented "}";;
  writeTrailingComment msgPath;;
  write (strings.LF +:+ strings.LF).

Definition writeImport (fileImport : FileImport) : R unit :=
  write "import ";;
  (if iIsPublic fileImport then write "public " else mret tt);;
  write quote;;
  write (iPath fileImport);;
  write (quote +:+ ";" +:+ strings.LF).

Definition writeStringFileOptions (name value : string) : R unit :=
  write "option ";;
  write name;;
  write (" = " +:+ quote);;
  write (strings.ReplaceAll value backslash
           (String backslash (String backslash EmptyString)));;
  write (quote +:+ ";" +:+ strings.LF).

Definition writeBoolFileOptions (name : string) (value : bool) : R unit :=
  write "option ";;
  write name;;
  write " = ";;
  write (strconv.FormatBool value);;
  write (";" +:+ strings.LF).

Definition optionDefinitions : list (string * string) :=
  [("java_package", "JavaPackage");
   ("java_outer_classname", "JavaOuterClassname");
   ("java_multiple_files", "JavaMultipleFiles");
   ("java_string_check_utf8", "JavaStringCheckUtf8");
   ("go_package", "GoPackage");
   ("cc_enable_arenas", "CcEnableArenas");
   ("objc_class_prefix", "ObjcClassPrefix");
   ("csharp_namespace", "CsharpNamespace");
   ("swift_prefix", "SwiftPrefix");
   ("php_class_prefix", "PhpClassPrefix");
   ("php_namespace", "PhpNamespace");
   ("php_metadata_namespace", "PhpMetadataNamespace");
   ("ruby_package", "RubyPackage")].

(** The loop of [writeFileOptions]; the result is [printedOption]. *)
Fixpoint writeFileOptions_loop (definitions : list (string * string))
    (options : gmap string OptionValue) (printedOption : bool) : R bool :=
  match definitions with
  | [] => mret printedOption
  | (OptionName, FieldName) :: definitions' =>
      match options !! FieldName with
      | Some elem =>
          match elem with
          | OptString s => writeStringFileOptions OptionName s
          | OptBool b => writeBoolFileOptions OptionName b
          end;;
          writeFileOptions_loop definitions' options true
      | None => writeFileOptions_loop definitions' options printedOption
      end
  end.

Definition writeFileOptions : R unit :=
  pd ← receiver;
  match pOptions (pb pd) with
  | None => mret tt
  | Some options =>
      writeFileOptions_loop optionDefinitions options false ≫= fun printedOption : bool =>
      if printedOption then write strings.LF else mret tt
  end.

Definition writeFileDescriptor : R unit :=
  writeLeadingComments [12];;
  pd ← receiver;
  write ("syntax = " +:+ quote);;
  write (dSyntax (descriptor pd));;
  write (quote +:+ ";" +:+ strings.LF +:+ strings.LF);;
  let packageName := dFullName (descriptor pd) in
  (if negb (String.eqb packageName "") then
     write "package ";;
     write packageName;;
     write (";" +:+ strings.LF +:+ strings.LF)
   else mret tt);;
  writeFileOptions;;
  each (fun _ fileImport => writeImport fileImport) 0 (dImports (descriptor pd));;
  (if len (dImports (descriptor pd)) >? 0 then write strings.LF else mret tt);;
  each (fun i service => writeServiceWithPath service i) 0 (dServices (descriptor pd));;
  each (fun i message => writeMessageWithPath message [Z.to_nat i] [] i false)
    0 (dMessages (descriptor pd));;
  each (fun i enum => writeEnumWithPath enum [] i false) 0 (dEnums (descriptor pd)).

(** The error that [NewFromDescriptor] returns:
    [fmt.Errorf(format, err)]. *)
Inductive error : Type := Errorf (format : string) (err : protodesc.error).

(** [NewFromDescriptor]: [None] is a panic, [inr] the error return. *)
Definition NewFromDescriptor (rest : FileDescriptor -> option protodesc.error)
    (pb0 : FileDescriptorProto) : option (ProtoDefinition + error) :=
  match protodesc.New rest pb0 with
  | inr err => Some (inr (Errorf "Couldn't create FileDescriptor: %w" err))
  | inl descriptor0 =>
      let pd := {| builder := ""; indendation := 0; pb := pb0; descriptor := descriptor0;
                   filename := ""; comments := ∅ |} in
      match (buildCommentMap;; writeFileDescriptor) pd with
      | Some (_, pd') => Some (inl pd')
      | None => None
      end
  end.

(** * Specifications *)

(** ** Reasoning about [M] *)

(** [returns m a]: from every world, [m] ends normally with [a], leaves
    [DebugScan] alone and only appends to the standard output. *)
Definition returns {A : Type} (m : M A) (a : A) : Prop :=
  forall w, exists out,
    m w = Done a {| DebugScan := DebugScan w; stdout := stdout w ++ out |}.

Definition yields {A : Type} (m : M A) (P : A -> Prop) : Prop :=
  exists a, returns m a /\ P a.

(** ** The self-describing pass, as the specification words it *)

(** Why a pass ends. *)
Inductive stop : Type :=
| RepeatedFieldOne
| InvalidFieldNumber
| ZeroProgress
| EndOfBuffer
| DecodeFailure (code : Z).

(** The error that [consumeBytes] reports with each reason. *)
Definition stop_error (s : stop) : option string :=
  match s with
  | DecodeFailure code =>
      Some ("couldn't consume proto bytes: " +:+ protowire.ParseError code)
  | _ => None
  end.

(** [stops data p seen s]: a pass that stands at offset [p], having consumed
    a record of field 1 or not ([seen]), ends there for the reason [s]. *)
Inductive stops (data : list byte) (p : Z) (seen : bool) : stop -> Prop :=
| stops_end :
    len data <= p -> stops data p seen EndOfBuffer
| stops_field_number num typ :
    p < len data ->
    protowire.ConsumeField (drop (Z.to_nat p) data)
      = Some (num, typ, protowire.errCodeFieldNumber) ->
    stops data p seen InvalidFieldNumber
| stops_failure num typ n :
    p < len data ->
    protowire.ConsumeField (drop (Z.to_nat p) data) = Some (num, typ, n) ->
    n < 0 -> n <> protowire.errCodeFieldNumber ->
    stops data p seen (DecodeFailure n)
| stops_zero num typ :
    p < len data ->
    protowire.ConsumeField (drop (Z.to_nat p) data) = Some (num, typ, 0) ->
    stops data p seen ZeroProgress
| stops_repeat typ n :
    p < len data ->
    protowire.ConsumeField (drop (Z.to_nat p) data) = Some (1, typ, n) ->
    0 < n -> seen = true ->
    stops data p seen RepeatedFieldOne.

(** [record_at data p seen q seen']: the record at [p] is consumed, which
    moves the pass to [q]. *)
Inductive record_at (data : list byte) (p : Z) (seen : bool) : Z -> bool -> Prop :=
| record_consumed num typ n :
    p < len data ->
    protowire.ConsumeField (drop (Z.to_nat p) data) = Some (num, typ, n) ->
    0 < n -> (num = 1 -> seen = false) ->
    record_at data p seen (p + n) (seen || (num =? 1)).

(** [segment data p seen e s]: consuming records from [p] on, the first
    offset at which the pass stops is [e], for the reason [s]. *)
Inductive segment (data : list byte) : Z -> bool -> Z -> stop -> Prop :=
| segment_stop p seen s :
    stops data p seen s -> segment data p seen p s
| segment_record p seen q seen' e s :
    record_at data p seen q seen' -> segment data q seen' e s ->
    segment data p seen e s.

(** ** The outer length prefix, as the specification words it *)

(** The varint of width [w] that ends exactly at the start [S], if its value
    [V] has [V >= L + 50] and [S + V] within the buffer. *)
Definition prefix_of_width (data : list byte) (S L w : Z) : option (Z * Z * Z) :=
  let '(V, n) := protowire.ConsumeVarint (drop (Z.to_nat (S - w)) data) in
  if (n =? w) && (toInt V >=? L + 50) && (toInt (S + toInt V) <=? len data)
  then Some (S, toInt V, n) else None.

(** The first of the widths 4, 3, 2, 1 that validates. *)
Definition outer_prefix (data : list byte) (S L : Z) : option (Z * Z * Z) :=
  match prefix_of_width data S L 4 with
  | Some r => Some r
  | None =>
      match prefix_of_width data S L 3 with
      | Some r => Some r
      | None =>
          match prefix_of_width data S L 2 with
          | Some r => Some r
          | None => prefix_of_width data S L 1
          end
      end
  end.

(** ** The whole scan *)

(** [sep] occurs in [s] at offset [i]. *)
Definition occurs_at (sep s : list byte) (i : nat) : Prop :=
  take (length sep) (drop i s) = sep.

(** What [Scan] relies on: the start is -1, or it lies before the marker
    and a record of field 1 can be consumed there. *)
Definition start_found (data : list byte) (protoIndex : Z) (r : Z * Z * Z) : Prop :=
  let '(start, _, _) := r in
  start = -1 \/
  (0 <= start /\ start < protoIndex /\
   exists n, 0 < n /\
     protowire.ConsumeField (drop (Z.to_nat start) data)
     = Some (1, protowire.BytesType, n)).

(** The candidate that the append at the bottom of the loop body records,
    with the state it leaves. *)
Definition appended (data : list byte) (totalOffset start length : Z) : step :=
  Emit {| cStart := totalOffset + start; cBytes := subslice start (start + length) data |}
    (drop (Z.to_nat (start + length)) data) (totalOffset + (start + length)).

Definition skipped (data : list byte) (totalOffset index : Z) : step :=
  Skip (drop (Z.to_nat (index + 1)) data) (totalOffset + (index + 1)).

(** The outcome of one iteration, by cases on what the backward search and
    the self-describing pass return. *)
Definition step_spec (data : list byte) (totalOffset : Z) (s : step) : Prop :=
  let index := bytes.Index data scan in
  if index =? -1 then s = Break
  else
    exists start prefixLen prefixBytes,
      returns (findValidStartWithLength data index) (start, prefixLen, prefixBytes) /\
      if start =? -1 then s = skipped data totalOffset index
      else
        0 <= start /\ start < index /\
        if (prefixLen >? 0) && (start + prefixLen <=? len data)
        then s = appended data totalOffset start prefixLen
        else
          exists e r,
            segment data start false e r /\ start < e /\ e <= len data /\
            returns (consumeBytes data start) (e - start, stop_error r) /\
            match stop_error r with
            | Some _ => s = skipped data totalOffset index
            | None => s = appended data totalOffset start (e - start)
            end.

(** [windows buf lo cs]: the candidates lie in [buf] at or after [lo], one
    after the other, each non-empty and holding the bytes of its range. *)
Fixpoint windows (buf : list byte) (lo : Z) (cs : list Candidate) : Prop :=
  match cs with
  | [] => True
  | c :: cs' =>
      lo <= cStart c /\ cStart c < cEnd c /\ cEnd c <= len buf /\
      cBytes c = subslice (cStart c) (cEnd c) buf /\
      windows buf (cEnd c) cs'
  end.

(** What an iteration does to the scan position [off] in the buffer [buf]. *)
Definition advances (buf : list byte) (off : Z) (s : step) : Prop :=
  match s with
  | Break => True
  | Skip data' off' =>
      off < off' /\ off' <= len buf /\ data' = drop (Z.to_nat off') buf
  | Emit c data' off' =>
      off <= cStart c /\ cStart c < cEnd c /\ cEnd c = off' /\ off' <= len buf /\
      cBytes c = subslice (cStart c) (cEnd c) buf /\
      data' = drop (Z.to_nat off') buf
  end.

(** ** The backward search, as the source validates a start *)

(** A record of field 1 stands at [pos] and holds a file name that ends at
    [filenameEnd]: the tag byte 0x0a, a length varint of [varintLen] bytes
    with the value [filenameLen], then [filenameLen] printable bytes, at
    least one. *)
Definition name_record (data : list byte) (pos filenameLen varintLen filenameEnd : Z)
    : Prop :=
  data !! Z.to_nat pos = Some magicByte /\
  protowire.ConsumeVarint (drop (Z.to_nat (pos + 1)) data) = (filenameLen, varintLen) /\
  1 <= varintLen /\
  pos + 1 + varintLen < filenameEnd /\
  pos + 1 + varintLen + filenameLen = filenameEnd /\
  forallb printable (subslice (pos + 1 + varintLen) filenameEnd data) = true.

(** [pos] is a start that the backward search accepts for the marker
    occurrence at [protoIndex]. *)
Definition valid_start (data : list byte) (protoIndex pos : Z) : Prop :=
  0 <= pos /\ pos < protoIndex /\
  exists filenameLen varintLen,
    name_record data pos filenameLen varintLen (protoIndex + len scan).

(** The length prefix reported with a start: none, or a varint of one to
    four bytes that ends where the start begins, announces at least the
    file name and fifty bytes more, and stays inside the buffer. *)
Definition prefix_found (data : list byte) (start filenameLen prefixLen prefixBytes : Z)
    : Prop :=
  (prefixLen = 0 /\ prefixBytes = 0) \/
  (1 <= prefixBytes /\ prefixBytes <= 4 /\ prefixBytes <= start /\
   protowire.ConsumeVarint (drop (Z.to_nat (start - prefixBytes)) data)
   = (prefixLen, prefixBytes) /\
   filenameLen + 50 <= prefixLen /\ prefixLen < 2 ^ 28 /\
   toInt (start + prefixLen) <= len data).

(** What the backward search answers: no start, and then no offset is
    valid, or the valid start nearest to the marker, with its prefix.  The
    parts that compare with every other offset need the buffer length to be
    an [int]. *)
Definition search_result (data : list byte) (protoIndex : Z) (r : Z * Z * Z) : Prop :=
  let '(start, prefixLen, prefixBytes) := r in
  (start = -1 /\ prefixLen = 0 /\ prefixBytes = 0 /\
   (len data < 2 ^ 63 -> forall pos, ~ valid_start data protoIndex pos)) \/
  (0 <= start /\ start < protoIndex /\
   (exists filenameLen varintLen,
      name_record data start filenameLen varintLen (protoIndex + len scan) /\
      prefix_found data start filenameLen prefixLen prefixBytes) /\
   (len data < 2 ^ 63 ->
    forall pos, start < pos -> ~ valid_start data protoIndex pos)).

(** The bytes [b] begin with a record of field 1 that holds a printable
    file name ending in the marker. *)
Definition begins_with_name (b : list byte) : Prop :=
  exists filenameLen varintLen,
    name_record b 0 filenameLen varintLen (1 + varintLen + filenameLen) /\
    1 + varintLen + filenameLen <= len b /\
    subslice (1 + varintLen + filenameLen - len scan) (1 + varintLen + filenameLen) b
    = scan.

(** ** The text of the rendered elements, as the specification words it *)

(** The effect of [write s]. *)
Definition append (s : string) (pd : ProtoDefinition) : ProtoDefinition :=
  set_builder (builder pd +:+ s) pd.
#[global] Arguments append : simpl never.

(** Two spaces for each level of nesting. *)
Definition spaces (n : Z) : string :=
  Nat.iter (Z.to_nat n) (fun acc => "  " +:+ acc) EmptyString.

(** A 32-bit integer. *)
Definition int32 (z : Z) : Prop := - 2 ^ 31 <= z /\ z < 2 ^ 31.

(** The inclusive display of the half-open range [[lower, upperExclusive)]:
    [lower] alone for a range of one member, else [lower to upper-1], with
    [max] for the largest valid field number. *)
Definition reserved_display (lower upperExclusive : Z) : string :=
  if upperExclusive =? lower + 1 then strconv.Itoa lower
  else strconv.Itoa lower +:+ " to " +:+
       (if upperExclusive - 1 =? protowire.MaxValidNumber then "max"
        else strconv.Itoa (upperExclusive - 1)).

(** The texts of the elements of [l], numbered from [i], one after the
    other. *)
Fixpoint texts {A : Type} (text : Z -> A -> string) (i : Z) (l : list A) : string :=
  match l with
  | [] => ""
  | x :: l' => text i x +:+ texts text (i + 1) l'
  end.

(** A comment block: every line of the comment behind the indentation and
    the comment marker. *)
Definition comment_text (ind : Z) (comment : string) : string :=
  if String.eqb comment "" then ""
  else texts (fun _ line => spaces ind +:+ "//" +:+ line +:+ strings.LF) 0
         (strings.Split (strings.TrimSuffix comment strings.LF) (ascii_of_nat 10)).

(** The detached blocks, each followed by a blank line, then the leading
    block. *)
Definition leading_text (ind : Z) (info : option CommentInfo) : string :=
  match info with
  | None => ""
  | Some info =>
      texts (fun _ c => comment_text ind c +:+ strings.LF) 0 (LeadingDetachedComments info)
      +:+ comment_text ind (LeadingComments info)
  end.

(** A trailing comment of one line goes behind the element; an empty one or
    one of several lines leaves nothing. *)
Definition trailing_text (info : option CommentInfo) : string :=
  match info with
  | None => ""
  | Some info =>
      let comment := strings.TrimSpace (TrailingComments info) in
      if String.eqb comment "" || strings.Contains comment strings.LF then ""
      else " //" +:+ comment
  end.

(** The type of a field: the dotted full name for messages and enums, the
    name of the kind otherwise. *)
Definition type_text (field : FieldDescriptor) : string :=
  match fKind field with
  | MessageKind => "." +:+ fMessage field
  | EnumKind => "." +:+ fEnum field
  | kind => Kind_String kind
  end.

Definition qualifier_text (syntax : string) (field : FieldDescriptor) : string :=
  if fHasOptionalKeyword field then "optional "
  else match fCardinality field with
       | Repeated => "repeated "
       | Required => if String.eqb syntax "proto2" then "required " else ""
       | Optional => ""
       end.

Definition default_text (field : FieldDescriptor) : string :=
  if fHasDefault field then
    " [default = " +:+
    match fKind field with
    | StringKind => quote +:+ fDefault field +:+ quote
    | EnumKind => fDefaultEnumValue field
    | _ => fDefault field
    end +:+ "]"
  else "".

(** The line of a field, with its comments, in the state [pd]. *)
Definition field_text (pd : ProtoDefinition) (field : FieldDescriptor) (msgPath : list Z)
    (fieldIdx : Z) : string :=
  let info := comments pd !! pathKey (msgPath ++ [2; fieldIdx]) in
  leading_text (indendation pd) info +:+
  spaces (indendation pd) +:+
  qualifier_text (dSyntax (descriptor pd)) field +:+
  type_text field +:+ " " +:+ fName field +:+ " = " +:+ strconv.Itoa (fNumber field) +:+
  default_text field +:+ ";" +:+ trailing_text info +:+ strings.LF.

(** The block of a oneof that is not synthetic, in the state [pd]. *)
Definition oneof_text (pd : ProtoDefinition) (oneof : OneofDescriptor) (msgPath : list Z)
    (oneofIdx : Z) (fieldIndexMap : gmap string Z) : string :=
  let info := comments pd !! pathKey (msgPath ++ [8; oneofIdx]) in
  leading_text (indendation pd) info +:+
  spaces (indendation pd) +:+ "oneof " +:+ oName oneof +:+ " {" +:+ strings.LF +:+
  texts (fun _ field =>
           field_text (set_indendation (indendation pd + 1) pd) field msgPath
             (default 0 (fieldIndexMap !! fName field)))
    0 (oFields oneof) +:+
  spaces (indendation pd) +:+ "}" +:+ trailing_text info +:+ strings.LF.

(** The line of a method, with its comments, in the state [pd]. *)
Definition method_text (pd : ProtoDefinition) (method : MethodDescriptor)
    (servicePath : list Z) (methodIdx : Z) : string :=
  let info := comments pd !! pathKey (servicePath ++ [2; methodIdx]) in
  leading_text (indendation pd) info +:+
  spaces (indendation pd) +:+ "rpc " +:+ rName method +:+ " (" +:+
  (if rIsStreamingClient method then "stream " else "") +:+
  "." +:+ rInput method +:+ ") returns (" +:+
  (if rIsStreamingServer method then "stream " else "") +:+
  "." +:+ rOutput method +:+ ") {}" +:+ trailing_text info +:+ strings.LF.

(** The line of the value of an enum, with its comments, in the state
    [pd]. *)
Definition value_text (pd : ProtoDefinition) (value : EnumValueDescriptor)
    (enumPath : list Z) (valueIdx : Z) : string :=
  let info := comments pd !! pathKey (enumPath ++ [2; valueIdx]) in
  leading_text (indendation pd) info +:+
  spaces (indendation pd) +:+ vName value +:+ " = " +:+ strconv.Itoa (vNumber value) +:+
  ";" +:+ trailing_text info +:+ strings.LF.

(** The block of an enum, in the state [pd]. *)
Definition enum_text (pd : ProtoDefinition) (enum : EnumDescriptor) (basePath : list Z)
    (enumIdx : Z) (isNested : bool) : string :=
  let enumPath := if isNested then basePath ++ [4; enumIdx] else [5; enumIdx] in
  let info := comments pd !! pathKey enumPath in
  leading_text (indendation pd) info +:+
  spaces (indendation pd) +:+ "enum " +:+ eName enum +:+ " {" +:+ strings.LF +:+
  texts (fun i value =>
           value_text (set_indendation (indendation pd + 1) pd) value enumPath i)
    0 (eValues enum) +:+
  spaces (indendation pd) +:+ "}" +:+ trailing_text info +:+ strings.LF +:+ strings.LF.

(** The block of a service, in the state [pd]: of the comments of the
    service itself, the leading ones only. *)
Definition service_text (pd : ProtoDefinition) (service : ServiceDescriptor)
    (serviceIdx : Z) : string :=
  let servicePath := [6; serviceIdx] in
  leading_text (indendation pd) (comments pd !! pathKey servicePath) +:+
  "service " +:+ sName service +:+ " {" +:+ strings.LF +:+
  texts (fun i method =>
           method_text (set_indendation (indendation pd + 1) pd) method servicePath i)
    0 (sMethods service) +:+
  spaces (indendation pd) +:+ "}" +:+ strings.LF +:+ strings.LF.


(** No byte of the string is a dot. *)
Fixpoint dotless (s : string) : Prop :=
  match s with
  | EmptyString => True
  | String c s' => c <> "."%char /\ dotless s'
  end.

(** The rest of a key after its first number. *)
Definition key_tail (path : list Z) : string :=
  match path with [] => "" | _ => "." +:+ pathKey path end.

(** The comments that [buildCommentMap] stores for a location. *)
Definition commentsOf (loc : Location) : CommentInfo :=
  {| LeadingComments := lLeadingComments loc;
     TrailingComments := lTrailingComments loc;
     LeadingDetachedComments := lLeadingDetachedComments loc |}.

(** A reserved range as [protodesc] accepts it: its first and last member
    are field numbers, in that order. *)
Definition range_ok (r : FieldRange) : Prop :=
  protowire.MinValidNumber <= protodesc.Start r /\
  protodesc.Start r <= protodesc.End r /\
  protodesc.End r <= protowire.MaxValidNumber.

(** ** What rendering leaves alone *)

(** [m] is a writer that moves the indentation by [k]: from every state it
    either panics or returns a value and appends a text, and which of the
    two, the value and the text do not depend on the text built so far; the
    state it leaves differs from the one it found by the text appended and
    by the indentation, so the descriptor and the comment table in it are
    the ones it found. *)
Definition writes {A : Type} (k : Z) (m : R A) : Prop :=
  forall pd,
    (exists a out, forall b,
       m (set_builder b pd)
       = Some (a, append out (set_indendation (indendation pd + k) (set_builder b pd))))
    \/ (forall b, m (set_builder b pd) = None).

(** ** When rendering ends normally *)

(** A synthetic oneof has the field that [Fields().Get(0)] takes. *)
Definition oneof_ok (oneof : OneofDescriptor) : bool :=
  match oFields oneof with
  | [] => negb (oIsSynthetic oneof)
  | _ :: _ => true
  end.

(** Every oneof of the message, and of the messages nested in it at any
    depth, is in order. *)
Fixpoint message_ok (message : MessageDescriptor) : bool :=
  forallb oneof_ok (mOneofs message) && forallb message_ok (mMessages message).

(** [m] does not panic from a state that holds the descriptor [d] and an
    indentation of [lo] at least. *)
Definition total {A : Type} (lo : Z) (d : FileDescriptor) (m : R A) : Prop :=
  forall pd, lo <= indendation pd -> descriptor pd = d -> is_Some (m pd).

(** * Samples *)

(** ** Sample buffers *)

(** [a.proto] as field 1, then a field 2 that announces five bytes where
    three remain. *)
Definition truncated_field_buffer : list byte :=
  [x0a; x07] ++ bytes_of_string "a.proto" ++ [x12; x05; x41; x00; x00].

(** The marker after a tag byte whose length varint does not fit the name. *)
Definition invalid_varint_buffer : list byte :=
  [x0a; x80] ++ bytes_of_string ".proto".

(** A one-byte length prefix 60, the message of [a.proto] at offset 1, and
    zero bytes up to offset 61. *)
Definition short_prefix_buffer : list byte :=
  [x3c; x0a; x07] ++ bytes_of_string "a.proto" ++ repeat x00 51.

(** Tag bytes and most of the marker, never all six bytes of it. *)
Definition no_marker_buffer : list byte :=
  [x0a; x07] ++ bytes_of_string "a.prot" ++ [x0a; x2e; x70].

(** The messages of [a.proto] and [b.proto], twelve bytes each, side by
    side. *)
Definition adjacent_buffer : list byte :=
  [x0a; x07] ++ bytes_of_string "a.proto" ++ [x12; x01; x41] ++
  [x0a; x07] ++ bytes_of_string "b.proto" ++ [x12; x01; x42].

(** A length prefix 60 one byte wide at offset 3, the message of [a.proto]
    at offset 4, and zero bytes up to offset 64. *)
Definition prefixed_buffer : list byte :=
  [x00; x00; x00; x3c; x0a; x07] ++ bytes_of_string "a.proto" ++ repeat x00 51.

(** The message of [a.proto] alone: the name, then a field 2 of one byte. *)
Definition lone_buffer : list byte :=
  [x0a; x07] ++ bytes_of_string "a.proto" ++ [x12; x01; x41].

(** ** Sample descriptors *)

Definition sample_field : FieldDescriptor :=
  mkField "x" 1 true Optional Int32Kind "" "" None None false "" "" true.

Definition sample_oneof : OneofDescriptor :=
  {| oName := "_x"; oIsSynthetic := true; oFields := [sample_field] |}.

(** A nested message that reserves [[5, 10)]. *)
Definition sample_nested : MessageDescriptor :=
  mkMessage "N" [] [(5, 10)] [] [] [] [].

(** A message that reserves [[5, 6)] and everything from 1000 on. *)
Definition sample_message : MessageDescriptor :=
  mkMessage "M" ["old"] [(5, 6); (1000, 536870912)] [sample_nested] [] [sample_field]
    [sample_oneof].

(** A call that streams its answers. *)
Definition sample_method : MethodDescriptor :=
  {| rName := "Get"; rIsStreamingClient := false; rInput := "pkg.M";
     rIsStreamingServer := true; rOutput := "pkg.M" |}.

Definition sample_service : ServiceDescriptor :=
  {| sName := "S"; sMethods := [sample_method] |}.

Definition sample_enum : EnumDescriptor :=
  {| eName := "E"; eValues := [ {| vName := "ZERO"; vNumber := 0 |} ] |}.

Definition sample_descriptor : FileDescriptor :=
  {| dSyntax := "proto3"; dFullName := "pkg"; dPath := "a.proto"; dImports := [];
     dServices := [sample_service]; dMessages := [sample_message];
     dEnums := [sample_enum] |}.

(** The no-break space U+00A0 in UTF-8. *)
Definition NBSP : string := String (ascii_of_nat 194) (String (ascii_of_nat 160) "").

(** The field [x], the service, its call and the value of the enum carry a
    trailing comment of one line, the message [M] one that consists of a
    line feed only, and the nested message one that starts with a no-break
    space and a line feed. *)
Definition sample_locations : list Location :=
  [ {| lPath := [4; 0; 2; 0]; lLeadingComments := "";
       lTrailingComments := " the x" +:+ strings.LF;
       lLeadingDetachedComments := [] |};
    {| lPath := [4; 0]; lLeadingComments := "";
       lTrailingComments := strings.LF;
       lLeadingDetachedComments := [] |};
    {| lPath := [4; 0; 3; 0]; lLeadingComments := "";
       lTrailingComments := NBSP +:+ strings.LF +:+ "the n" +:+ strings.LF;
       lLeadingDetachedComments := [] |};
    {| lPath := [6; 0]; lLeadingComments := " Serves." +:+ strings.LF;
       lTrailingComments := " the service" +:+ strings.LF;
       lLeadingDetachedComments := [] |};
    {| lPath := [6; 0; 2; 0]; lLeadingComments := "";
       lTrailingComments := " the call" +:+ strings.LF;
       lLeadingDetachedComments := [] |};
    {| lPath := [5; 0; 2; 0]; lLeadingComments := "";
       lTrailingComments := " nothing" +:+ strings.LF;
       lLeadingDetachedComments := [] |} ].

Definition sample_pb : FileDescriptorProto :=
  {| pFile := sample_descriptor;
     pOptions := None;
     pSourceCodeInfo := Some sample_locations |}.

(** A definition in the state that [buildCommentMap] leaves for the
    samples, one level deep. *)
Definition sample_pd : ProtoDefinition :=
  {| builder := ""; indendation := 1; pb := sample_pb; descriptor := sample_descriptor;
     filename := "";
     comments :=
       list_to_map
         (map (fun loc =>
                 (pathKey (lPath loc),
                  {| LeadingComments := lLeadingComments loc;
                     TrailingComments := lTrailingComments loc;
                     LeadingDetachedComments := lLeadingDetachedComments loc |}))
            sample_locations) |}.

(** A file whose only message reserves the range [[10, 5)]. *)
Definition reversed_pb : FileDescriptorProto :=
  {| pFile := {| dSyntax := "proto3"; dFullName := ""; dPath := "r.proto"; dImports := [];
                 dServices := [];
                 dMessages := [mkMessage "R" [] [(10, 5)] [] [] [] []];
                 dEnums := [] |};
     pOptions := None;
     pSourceCodeInfo := None |}.

(** * Properties *)

(** ** Reasoning about [M], continued *)

Lemma returns_ret {A : Type} (a : A) : returns (mret a) a.
Proof. intros [d o]. exists []. cbn. by rewrite app_nil_r. Qed.

Lemma returns_bind {A B : Type} (m : M A) (k : A -> M B) a b :
  returns m a -> returns (k a) b -> returns (m ≫= k) b.
Proof.
  intros Hm Hk w. destruct (Hm w) as [o1 E1].
  destruct (Hk {| DebugScan := DebugScan w; stdout := stdout w ++ o1 |}) as [o2 E2].
  exists (o1 ++ o2). unfold mbind, M_bind. rewrite E1, E2. cbn. by rewrite app_assoc.
Qed.

Lemma returns_inj {A : Type} (m : M A) a b : returns m a -> returns m b -> a = b.
Proof.
  intros Ha Hb. destruct (Ha quiet) as [o1 E1]. destruct (Hb quiet) as [o2 E2].
  congruence.
Qed.

Lemma returns_fmt_Printf f l : returns (fmt_Printf f l) tt.
Proof. intros w. by eexists. Qed.

Lemma returns_debugPrintf f l : returns (debugPrintf f l) tt.
Proof.
  intros [d o]. unfold debugPrintf. destruct d; cbn.
  - by eexists.
  - exists []. by rewrite app_nil_r.
Qed.

Lemma returns_slice data lo hi :
  0 <= lo -> lo <= hi -> hi <= len data -> returns (slice data lo hi) (subslice lo hi data).
Proof.
  intros H1 H2 H3. unfold slice.
  replace ((0 <=? lo) && (lo <=? hi) && (hi <=? len data)) with true by lia.
  apply returns_ret.
Qed.

Lemma returns_sliceFrom data lo :
  0 <= lo -> lo <= len data -> returns (sliceFrom data lo) (drop (Z.to_nat lo) data).
Proof.
  intros H1 H2. unfold sliceFrom.
  replace (drop (Z.to_nat lo) data) with (subslice lo (len data) data).
  - by apply returns_slice.
  - unfold subslice. apply take_ge. rewrite length_drop. unfold len. lia.
Qed.

Lemma returns_sliceTo data hi :
  0 <= hi -> hi <= len data -> returns (sliceTo data hi) (take (Z.to_nat hi) data).
Proof.
  intros H1 H2. unfold sliceTo.
  replace (take (Z.to_nat hi) data) with (subslice 0 hi data).
  - by apply returns_slice.
  - unfold subslice. by rewrite Z.sub_0_r.
Qed.

Lemma returns_index data i :
  0 <= i -> i < len data -> exists b, data !! Z.to_nat i = Some b /\ returns (index data i) b.
Proof.
  intros H1 H2. unfold index.
  replace ((0 <=? i) && (i <? len data)) with true by lia.
  destruct (data !! Z.to_nat i) as [b|] eqn:E.
  - exists b. split; [done | apply returns_ret].
  - apply lookup_ge_None in E. unfold len in H2. lia.
Qed.

Lemma yields_ret {A : Type} (a : A) (P : A -> Prop) : P a -> yields (mret a) P.
Proof. intros H. exists a. split; [apply returns_ret | done]. Qed.

Lemma yields_bind {A B : Type} (m : M A) (k : A -> M B) a (P : B -> Prop) :
  returns m a -> yields (k a) P -> yields (m ≫= k) P.
Proof. intros Hm (b & Hb & HP). exists b. split; [by eapply returns_bind | done]. Qed.

Lemma yields_bind_yields {A B : Type} (m : M A) (k : A -> M B) (Q : A -> Prop) (P : B -> Prop) :
  yields m Q -> (forall a, Q a -> yields (k a) P) -> yields (m ≫= k) P.
Proof. intros (a & Ha & HQ) Hk. eapply yields_bind; [exact Ha | by apply Hk]. Qed.

Lemma yields_mono {A : Type} (m : M A) (P Q : A -> Prop) :
  yields m P -> (forall a, P a -> Q a) -> yields m Q.
Proof. intros (a & Ha & HP) H. exists a. auto. Qed.

(** ** Facts about [protowire] *)

Lemma len_nonneg {A : Type} (l : list A) : 0 <= len l.
Proof. unfold len. lia. Qed.

Lemma len_cons {A : Type} (x : A) l : len (x :: l) = len l + 1.
Proof. unfold len. cbn [length]. lia. Qed.

Lemma len_drop {A : Type} (l : list A) n :
  0 <= n -> n <= len l -> len (drop (Z.to_nat n) l) = len l - n.
Proof. intros. unfold len in *. rewrite length_drop. lia. Qed.

Lemma varintAt_width steps i v b :
  0 <= i ->
  let n := snd (protowire.varintAt steps i v b) in
  n = protowire.errCodeTruncated \/ n = protowire.errCodeOverflow \/
  (i + 1 <= n /\ n <= i + len b).
Proof.
  revert i v b. induction steps as [|steps IH]; intros i v b Hi; cbn.
  - auto.
  - destruct b as [|c b]; cbn; [auto|].
    destruct (u8 c <? _).
    + cbn. rewrite len_cons. pose proof (len_nonneg b). right. right. lia.
    + specialize (IH (i + 1) (v + Z.shiftl (u8 c) (7 * i) - Z.shiftl 128 (7 * i)) b).
      cbn in IH. rewrite len_cons. destruct IH as [?|[?|?]]; [lia|auto|auto|right; right; lia].
Qed.

Lemma varintAt_nonneg steps i v b m n :
  0 <= i -> i + Z.of_nat steps = 10 -> 0 <= v ->
  protowire.varintAt steps i v b = (m, n) -> 0 <= m.
Proof.
  revert i v b m n. induction steps as [|steps IH]; intros i v b m n Hi Hs Hv; cbn.
  - intros [= <- <-]. lia.
  - destruct b as [|c b]; [intros [= <- <-]; lia|].
    assert (0 <= u8 c) by (unfold u8; lia).
    destruct (u8 c <? _) eqn:Ec.
    + intros [= <- <-]. pose proof (Z.shiftl_nonneg (u8 c) (7 * i)). lia.
    + destruct (i =? 9) eqn:Ei.
      * assert (steps = 0%nat) as -> by lia. cbn. intros [= <- <-]. lia.
      * apply IH; [lia|lia|].
        rewrite !Z.shiftl_mul_pow2 by lia.
        pose proof (Z.pow_nonneg 2 (7 * i)). nia.
Qed.

Lemma ConsumeVarint_width b v n :
  protowire.ConsumeVarint b = (v, n) ->
  0 <= v /\ (n < 0 \/ (1 <= n /\ n <= len b)).
Proof.
  unfold protowire.ConsumeVarint. intros E. split.
  - eapply (varintAt_nonneg 10 0 0); [lia|lia|lia|exact E].
  - pose proof (varintAt_width 10 0 0 b ltac:(lia)) as H. rewrite E in H. cbn in H.
    unfold protowire.errCodeTruncated, protowire.errCodeOverflow in *. lia.
Qed.

Lemma ConsumeTag_width b num typ n :
  protowire.ConsumeTag b = (num, typ, n) ->
  n < 0 \/ (1 <= n /\ n <= len b).
Proof.
  unfold protowire.ConsumeTag.
  destruct (protowire.ConsumeVarint b) as [v k] eqn:E.
  apply ConsumeVarint_width in E.
  destruct (k <? 0) eqn:Ek; [intros [= <- <- <-]; lia|].
  destruct (protowire.DecodeTag v) as [num' typ'].
  destruct (num' <? _); intros [= <- <- <-]; [|lia].
  left. unfold protowire.errCodeFieldNumber. lia.
Qed.

Lemma ConsumeBytes_width b v n :
  protowire.ConsumeBytes b = (v, n) ->
  n < 0 \/ (1 <= n /\ n <= len b).
Proof.
  unfold protowire.ConsumeBytes.
  destruct (protowire.ConsumeVarint b) as [m k] eqn:E.
  apply ConsumeVarint_width in E.
  destruct (k <? 0) eqn:Ek; [intros [= <- <-]; lia|].
  destruct (m >? len b - k) eqn:Em; intros [= <- <-];
    [unfold protowire.errCodeTruncated|]; lia.
Qed.

Lemma ConsumeFixed32_width b v n :
  protowire.ConsumeFixed32 b = (v, n) ->
  n < 0 \/ (1 <= n /\ n <= len b).
Proof.
  unfold protowire.ConsumeFixed32.
  destruct (len b <? 4) eqn:E; intros [= <- <-];
    [unfold protowire.errCodeTruncated|]; lia.
Qed.

Lemma ConsumeFixed64_width b v n :
  protowire.ConsumeFixed64 b = (v, n) ->
  n < 0 \/ (1 <= n /\ n <= len b).
Proof.
  unfold protowire.ConsumeFixed64.
  destruct (len b <? 8) eqn:E; intros [= <- <-];
    [unfold protowire.errCodeTruncated|]; lia.
Qed.

(** With [2 * len b + 2] units of fuel [consumeFieldValueD] never runs out,
    and a non-negative result stays within [b]. *)
Lemma consumeFieldValueD_total fuel :
  (forall num typ b depth, (2 * length b + 2 <= fuel)%nat ->
     exists n, protowire.consumeFieldValueD fuel num typ b depth = Some n /\
               (n < 0 \/ (0 <= n /\ n <= len b))) /\
  (forall num n0 b depth, (2 * length b + 1 <= fuel)%nat ->
     exists n, protowire.consumeGroup fuel num n0 b depth = Some n /\
               (n < 0 \/ (n0 - len b <= n /\ n <= n0))).
Proof.
  induction fuel as [|fuel [IHv IHg]]; [split; intros; lia|].
  split.
  - intros num typ b depth Hf. cbn [protowire.consumeFieldValueD].
    destruct (typ =? protowire.VarintType).
    { destruct (protowire.ConsumeVarint b) as [v n] eqn:E.
      apply ConsumeVarint_width in E. exists n. split; [done|]. lia. }
    destruct (typ =? protowire.Fixed32Type).
    { destruct (protowire.ConsumeFixed32 b) as [v n] eqn:E.
      apply ConsumeFixed32_width in E. exists n. split; [done|]. lia. }
    destruct (typ =? protowire.Fixed64Type).
    { destruct (protowire.ConsumeFixed64 b) as [v n] eqn:E.
      apply ConsumeFixed64_width in E. exists n. split; [done|]. lia. }
    destruct (typ =? protowire.BytesType).
    { destruct (protowire.ConsumeBytes b) as [v n] eqn:E.
      apply ConsumeBytes_width in E. exists n. split; [done|]. lia. }
    destruct (typ =? protowire.StartGroupType).
    { destruct (depth <? 0).
      - eexists. split; [done|]. left. unfold protowire.errCodeRecursionDepth. lia.
      - destruct (IHg num (len b) b depth) as (n & En & Hn); [lia|].
        exists n. split; [done|]. pose proof (len_nonneg b). lia. }
    destruct (typ =? protowire.EndGroupType).
    { eexists. split; [done|]. left. unfold protowire.errCodeEndGroup. lia. }
    eexists. split; [done|]. left. unfold protowire.errCodeReserved. lia.
  - intros num n0 b depth Hf. cbn [protowire.consumeGroup].
    destruct (protowire.ConsumeTag b) as [[num2 typ2] n] eqn:Et.
    apply ConsumeTag_width in Et.
    destruct (n <? 0) eqn:En; [exists n; split; [done|lia]|].
    assert (Hl : len (drop (Z.to_nat n) b) = len b - n) by (apply len_drop; lia).
    set (b1 := drop (Z.to_nat n) b) in *.
    assert (Hl1 : (length b1 + 1 <= length b)%nat) by (unfold len in Hl; lia).
    destruct (typ2 =? protowire.EndGroupType).
    { destruct (negb (num =? num2)).
      - eexists. split; [done|]. left. unfold protowire.errCodeEndGroup. lia.
      - eexists. split; [done|]. right. lia. }
    destruct (IHv num2 typ2 b1 (depth - 1)) as (m & Em & Hm); [lia|].
    rewrite Em. destruct (m <? 0) eqn:Hm0; [exists m; split; [done|lia]|].
    assert (Hl2 : len (drop (Z.to_nat m) b1) = len b1 - m) by (apply len_drop; lia).
    destruct (IHg num n0 (drop (Z.to_nat m) b1) depth) as (k & Ek & Hk).
    { unfold len in Hl2. lia. }
    exists k. split; [done|]. lia.
Qed.

Lemma ConsumeField_total b :
  exists num typ n, protowire.ConsumeField b = Some (num, typ, n) /\
                    (n < 0 \/ (1 <= n /\ n <= len b)).
Proof.
  unfold protowire.ConsumeField.
  destruct (protowire.ConsumeTag b) as [[num typ] n] eqn:Et.
  apply ConsumeTag_width in Et.
  destruct (n <? 0) eqn:En; [exists 0, 0, n; split; [done|lia]|].
  assert (Hl : len (drop (Z.to_nat n) b) = len b - n) by (apply len_drop; lia).
  unfold protowire.ConsumeFieldValue.
  destruct (proj1 (consumeFieldValueD_total (2 * length (drop (Z.to_nat n) b) + 2))
              num typ (drop (Z.to_nat n) b) protowire.DefaultRecursionLimit)
    as (m & Em & Hm); [lia|].
  rewrite Em. destruct (m <? 0) eqn:Hm0.
  - exists 0, 0, m. split; [done|lia].
  - exists num, typ, (n + m). split; [done|lia].
Qed.

(** ** The self-describing pass *)

Lemma sliceFrom_run data lo w :
  0 <= lo -> lo <= len data -> sliceFrom data lo w = Done (drop (Z.to_nat lo) data) w.
Proof.
  intros H1 H2. unfold sliceFrom, slice.
  replace ((0 <=? lo) && (lo <=? len data) && (len data <=? len data)) with true by lia.
  cbn. f_equal. unfold subslice. apply take_ge. rewrite length_drop. unfold len. lia.
Qed.

Lemma ParseError_field_number n :
  strings.Contains (protowire.ParseError n) "invalid field number"
  = (n =? protowire.errCodeFieldNumber).
Proof.
  unfold protowire.ParseError.
  destruct (n =? protowire.errCodeTruncated) eqn:E1;
    [unfold protowire.errCodeTruncated, protowire.errCodeFieldNumber in *;
     replace (n =? -2) with false by lia; by vm_compute|].
  destruct (n =? protowire.errCodeFieldNumber) eqn:E2; [by vm_compute|].
  destruct (n =? protowire.errCodeOverflow); [by vm_compute|].
  destruct (n =? protowire.errCodeReserved); [by vm_compute|].
  destruct (n =? protowire.errCodeEndGroup); by vm_compute.
Qed.

Lemma consumeBytes_loop_segment fuel data start position seen :
  0 <= start -> start <= position -> position < len data ->
  (Z.to_nat (len data - position) <= fuel)%nat ->
  exists e s,
    segment data position seen e s /\
    forall w, consumeBytes_loop (S fuel) data start position seen w
              = Done (e - start, stop_error s) w.
Proof.
  revert position seen.
  induction fuel as [|fuel IH]; intros position seen Hs Hp Hl Hf; [lia|].
  destruct (ConsumeField_total (drop (Z.to_nat position) data))
    as (num & typ & n & Ef & Hn).
  rewrite len_drop in Hn by lia.
  assert (Hrun : forall w fuel', consumeBytes_loop (S fuel') data start position seen w =
    (if n <? 0 then
       let err := protowire.ParseError n in
       if strings.Contains err "invalid field number"
       then mret (position - start, None)
       else mret (position - start, Some ("couldn't consume proto bytes: " +:+ err))
     else if n =? 0 then mret (position - start, None)
     else
       let advance (consumedFieldOne : bool) : M (Z * option string) :=
         if position + n - start >=? len (drop (Z.to_nat start) data)
         then mret (position + n - start, None)
         else consumeBytes_loop fuel' data start (position + n) consumedFieldOne in
       if num =? 1 then
         if seen then mret (position - start, None) else advance true
       else advance seen) w).
  { intros w fuel'. cbn [consumeBytes_loop]. unfold mbind, M_bind.
    rewrite sliceFrom_run by lia. rewrite Ef. cbn [fuelled mret M_ret].
    destruct (n <? 0); [done|]. destruct (n =? 0); [done|].
    cbn zeta. destruct (num =? 1); [destruct seen; [done|]|];
      cbn beta; rewrite sliceFrom_run by lia; done. }
  destruct (n <? 0) eqn:En.
  { destruct (n =? protowire.errCodeFieldNumber) eqn:E2.
    - exists position, InvalidFieldNumber. split.
      + apply segment_stop. eapply stops_field_number; [lia|].
        rewrite Ef. do 2 f_equal. lia.
      + intros w. rewrite Hrun. cbn zeta. by rewrite ParseError_field_number, E2.
    - exists position, (DecodeFailure n). split.
      + apply segment_stop. eapply stops_failure; [lia|exact Ef|lia|lia].
      + intros w. rewrite Hrun. cbn zeta. by rewrite ParseError_field_number, E2. }
  destruct (n =? 0) eqn:En0.
  { exists position, ZeroProgress. split.
    - apply segment_stop. eapply stops_zero; [lia|]. rewrite Ef. do 2 f_equal. lia.
    - intros w. by rewrite Hrun. }
  assert (Hadv : forall seen', (num = 1 -> seen = false) -> seen' = seen || (num =? 1) ->
    exists e s, segment data position seen e s /\
      forall w,
        (if position + n - start >=? len (drop (Z.to_nat start) data)
         then mret (position + n - start, None)
         else consumeBytes_loop (S fuel) data start (position + n) seen') w
        = Done (e - start, stop_error s) w).
  { intros seen' Hnum ->. rewrite len_drop by lia.
    assert (Hrec : record_at data position seen (position + n) (seen || (num =? 1))).
    { eapply record_consumed; [lia|exact Ef|lia|exact Hnum]. }
    destruct (position + n - start >=? len data - start) eqn:Ee.
    - exists (position + n), EndOfBuffer. split; [|done].
      eapply segment_record; [exact Hrec|]. apply segment_stop, stops_end. lia.
    - destruct (IH (position + n) (seen || (num =? 1))) as (e & s & Hseg & Hw);
        [lia|lia|lia|lia|].
      exists e, s. split; [|exact Hw].
      eapply segment_record; [exact Hrec|exact Hseg]. }
  destruct (num =? 1) eqn:E1.
  - destruct seen.
    + exists position, RepeatedFieldOne. split.
      * apply segment_stop. apply (stops_repeat _ _ _ typ n); [lia| |lia|done].
        rewrite Ef. do 3 f_equal. lia.
      * intros w. by rewrite Hrun.
    + destruct (Hadv true) as (e & s & Hseg & Hw); [done|done|].
      exists e, s. split; [exact Hseg|].
      intros w. rewrite Hrun. cbn zeta. apply Hw.
  - destruct (Hadv seen) as (e & s & Hseg & Hw); [lia|by rewrite orb_false_r|].
    exists e, s. split; [exact Hseg|].
    intros w. rewrite Hrun. cbn zeta. apply Hw.
Qed.

Lemma consumeBytes_segment data start :
  0 <= start -> start < len data ->
  exists e s,
    segment data start false e s /\
    forall w, consumeBytes data start w = Done (e - start, stop_error s) w.
Proof.
  intros H1 H2. apply consumeBytes_loop_segment; unfold len in *; lia.
Qed.

Lemma stops_not_record data p seen s q seen' :
  stops data p seen s -> record_at data p seen q seen' -> False.
Proof.
  intros Hs Hr. destruct Hr as [num typ n Hp Ef Hn Hnum].
  destruct Hs as [Hl | num' typ' Hl Ef' | num' typ' n' Hl Ef' Hn' _
                  | num' typ' Hl Ef' | typ' n' Hl Ef' Hn' Hseen];
    unfold protowire.errCodeFieldNumber in *;
    try (rewrite Ef in Ef'; injection Ef' as E1 E2 E3; subst); lia.
Qed.

Lemma stops_functional data p seen s s' :
  stops data p seen s -> stops data p seen s' -> s = s'.
Proof.
  intros H H'.
  destruct H as [Hl | num typ Hl Ef | num typ n Hl Ef Hn Hne
                 | num typ Hl Ef | typ n Hl Ef Hn Hseen];
    destruct H' as [Hl' | num' typ' Hl' Ef' | num' typ' n' Hl' Ef' Hn' Hne'
                    | num' typ' Hl' Ef' | typ' n' Hl' Ef' Hn' Hseen'];
    unfold protowire.errCodeFieldNumber in *;
    try done; try lia;
    rewrite Ef in Ef'; injection Ef' as E1 E2 E3; subst; try done; lia.
Qed.

(** The relation determines the end of the segment and the reason. *)
Lemma segment_functional data p seen e s e' s' :
  segment data p seen e s -> segment data p seen e' s' -> e = e' /\ s = s'.
Proof.
  intros H. revert e' s'.
  induction H as [p seen s Hs | p seen q seen1 e s Hr Hseg IH]; intros e' s' H'.
  - inversion H' as [? ? ? Hs' | ? ? q' seen2 ? ? Hr' Hseg']; subst.
    + split; [done | by eapply stops_functional].
    + destruct (stops_not_record _ _ _ _ _ _ Hs Hr').
  - inversion H' as [? ? ? Hs' | ? ? q' seen2 ? ? Hr' Hseg']; subst.
    + destruct (stops_not_record _ _ _ _ _ _ Hs' Hr).
    + destruct Hr as [num typ n Hp Ef Hn Hnum].
      destruct Hr' as [num' typ' n' Hp' Ef' Hn' Hnum'].
      rewrite Ef in Ef'. injection Ef' as <- <- <-. by apply IH.
Qed.

Lemma record_at_bounds data p seen q seen' :
  0 <= p -> record_at data p seen q seen' -> p < q /\ q <= len data.
Proof.
  intros H0 [num typ n Hp Ef Hn Hnum].
  destruct (ConsumeField_total (drop (Z.to_nat p) data)) as (? & ? & n' & Ef' & Hb).
  rewrite Ef in Ef'. injection Ef' as <- <- <-.
  rewrite len_drop in Hb by lia. lia.
Qed.

Lemma segment_bounds data p seen e s :
  0 <= p -> p <= len data -> segment data p seen e s -> p <= e /\ e <= len data.
Proof.
  intros H0 Hl H. induction H as [p seen s Hs | p seen q seen1 e s Hr Hseg IH]; [lia|].
  apply record_at_bounds in Hr; [|done]. lia.
Qed.

(** A pass that can consume the record at [p] ends beyond it. *)
Lemma segment_first_record data p seen e s num typ n :
  0 <= p -> p < len data ->
  protowire.ConsumeField (drop (Z.to_nat p) data) = Some (num, typ, n) ->
  0 < n -> (num = 1 -> seen = false) ->
  segment data p seen e s -> p + n <= e.
Proof.
  intros H0 Hl Ef Hn Hnum H.
  assert (Hr : record_at data p seen (p + n) (seen || (num =? 1)))
    by (eapply record_consumed; eauto).
  inversion H as [? ? ? Hs | ? ? q seen2 ? ? Hr' Hseg]; subst.
  - destruct (stops_not_record _ _ _ _ _ _ Hs Hr).
  - destruct Hr' as [num' typ' n' Hp' Ef' Hn' Hnum'].
    rewrite Ef in Ef'. injection Ef' as <- <- <-.
    apply record_at_bounds in Hr; [|done].
    apply segment_bounds in Hseg; lia.
Qed.

(** ** Facts about [int] and about varints *)

Lemma toInt_range x : - 2 ^ 63 <= toInt x < 2 ^ 63.
Proof. unfold toInt. pose proof (Z.mod_pos_bound (x + 2 ^ 63) (2 ^ 64)). lia. Qed.

Lemma toInt_wraps x : exists k, toInt x = x + 2 ^ 64 * k.
Proof.
  exists (- ((x + 2 ^ 63) / 2 ^ 64)). unfold toInt.
  pose proof (Z.div_mod (x + 2 ^ 63) (2 ^ 64)). lia.
Qed.

Lemma u8_range c : 0 <= u8 c < 256.
Proof. unfold u8. pose proof (Byte.to_N_bounded c). lia. Qed.

Lemma varintAt_bound steps i v b m n :
  0 <= i -> i + Z.of_nat steps = 10 -> 0 <= v -> v < 2 ^ (7 * i) ->
  protowire.varintAt steps i v b = (m, n) -> m < 2 ^ 64.
Proof.
  revert i v b m n. induction steps as [|steps IH]; intros i v b m n Hi Hs Hv Hv'; cbn.
  - intros [= <- <-]. lia.
  - destruct b as [|c b]; [intros [= <- <-]; lia|].
    pose proof (u8_range c).
    assert (Hp : 2 ^ (7 * (i + 1)) = 128 * 2 ^ (7 * i)).
    { replace (7 * (i + 1)) with (7 + 7 * i) by lia. rewrite Z.pow_add_r by lia. lia. }
    assert (Hmono : 2 ^ (7 * i) <= 2 ^ 63) by (apply Z.pow_le_mono_r; lia).
    rewrite !Z.shiftl_mul_pow2 by lia.
    destruct (u8 c <? _) eqn:Ec.
    + intros [= <- <-]. destruct (i =? 9) eqn:Ei.
      * assert (i = 9) as -> by lia. change (7 * 9) with 63 in *. nia.
      * assert (2 ^ (7 * (i + 1)) <= 2 ^ 63) by (apply Z.pow_le_mono_r; lia). nia.
    + destruct (i =? 9) eqn:Ei.
      * assert (steps = 0%nat) as -> by lia. cbn. intros [= <- <-]. lia.
      * apply IH; [lia|lia|nia|nia].
Qed.

Lemma ConsumeVarint_bound b v n : protowire.ConsumeVarint b = (v, n) -> v < 2 ^ 64.
Proof. apply (varintAt_bound 10 0 0); cbn; lia. Qed.

(** ** The marker search *)

Lemma byte_eqb_eq (a b : byte) : Byte.eqb a b = true <-> a = b.
Proof.
  split; [apply Byte.byte_dec_bl | apply Byte.byte_dec_lb].
Qed.

Lemma HasPrefix_take s sep : bytes.HasPrefix s sep = true <-> take (length sep) s = sep.
Proof.
  revert s.
  induction sep as [|p sep IH]; intros [|c s]; cbn; [done|done|split; discriminate|].
  rewrite andb_true_iff, byte_eqb_eq, IH. split.
  - by intros [-> ->].
  - by intros [= -> ->].
Qed.

Lemma HasPrefix_spec s sep : bytes.HasPrefix s sep = true <-> occurs_at sep s 0.
Proof. apply HasPrefix_take. Qed.

Lemma HasPrefix_length s sep : bytes.HasPrefix s sep = true -> len sep <= len s.
Proof.
  rewrite HasPrefix_take. unfold len. intros H.
  rewrite <- H at 1. rewrite length_take. lia.
Qed.

Lemma Index_range s sep :
  bytes.Index s sep = -1 \/ (0 <= bytes.Index s sep /\ bytes.Index s sep + len sep <= len s).
Proof.
  induction s as [|c s IH]; cbn [bytes.Index].
  - destruct (bytes.HasPrefix [] sep) eqn:E; [|by left].
    right. apply HasPrefix_length in E. lia.
  - destruct (bytes.HasPrefix (c :: s) sep) eqn:E.
    + right. apply HasPrefix_length in E. lia.
    + rewrite len_cons. destruct (bytes.Index s sep <? 0) eqn:E'; [by left|]. lia.
Qed.

Lemma Index_occurs s sep :
  bytes.Index s sep <> -1 -> occurs_at sep s (Z.to_nat (bytes.Index s sep)).
Proof.
  induction s as [|c s IH]; cbn [bytes.Index].
  - destruct (bytes.HasPrefix [] sep) eqn:E; [|done]. intros _. by apply HasPrefix_spec.
  - destruct (bytes.HasPrefix (c :: s) sep) eqn:E.
    + intros _. by apply HasPrefix_spec.
    + destruct (Index_range s sep) as [Hr|Hr].
      * rewrite Hr. cbn. done.
      * replace (bytes.Index s sep <? 0) with false by lia. intros _.
        replace (Z.to_nat (bytes.Index s sep + 1)) with (S (Z.to_nat (bytes.Index s sep))) by lia.
        unfold occurs_at in *. cbn [drop]. apply IH. lia.
Qed.

(** [Index] answers -1 exactly when there is no occurrence. *)
Lemma Index_none s sep :
  bytes.Index s sep = -1 <-> forall i, ~ occurs_at sep s i.
Proof.
  split.
  - induction s as [|c s IH]; cbn [bytes.Index].
    + destruct (bytes.HasPrefix [] sep) eqn:E; [done|]. intros _ i Hi.
      unfold occurs_at in Hi. rewrite drop_nil in Hi.
      assert (bytes.HasPrefix [] sep = true); [|congruence].
      apply HasPrefix_spec. unfold occurs_at. by rewrite drop_nil.
    + destruct (bytes.HasPrefix (c :: s) sep) eqn:E; [done|].
      destruct (Index_range s sep) as [Hr|Hr].
      * intros _ [|i] Hi.
        -- apply HasPrefix_spec in Hi. congruence.
        -- by apply (IH Hr i).
      * replace (bytes.Index s sep <? 0) with false by lia. lia.
  - intros H. destruct (Z.eq_dec (bytes.Index s sep) (-1)) as [|Hne]; [done|].
    destruct (H _ (Index_occurs s sep Hne)).
Qed.

Lemma LastIndexByte_spec s c :
  bytes.LastIndexByte s c = -1 \/
  (0 <= bytes.LastIndexByte s c /\ bytes.LastIndexByte s c < len s /\
   s !! Z.to_nat (bytes.LastIndexByte s c) = Some c).
Proof.
  induction s as [|x s IH]; cbn [bytes.LastIndexByte]; [by left|].
  rewrite len_cons. destruct IH as [IH|(H1 & H2 & H3)].
  - rewrite IH. cbn. destruct (Byte.eqb x c) eqn:E; [|by left].
    apply byte_eqb_eq in E as ->. right. pose proof (len_nonneg s).
    split; [lia|]. split; [lia|done].
  - replace (0 <=? bytes.LastIndexByte s c) with true by lia. right.
    replace (Z.to_nat (bytes.LastIndexByte s c + 1))
      with (S (Z.to_nat (bytes.LastIndexByte s c))) by lia.
    split; [lia|]. split; [lia|done].
Qed.

(** The record that begins at a validated start: tag 0x0a, a length varint
    and that many bytes, all inside the buffer. *)
Lemma ConsumeField_at_start (data : list byte) pos filenameLen varintLen :
  0 <= pos ->
  data !! Z.to_nat pos = Some magicByte ->
  protowire.ConsumeVarint (drop (Z.to_nat (pos + 1)) data) = (filenameLen, varintLen) ->
  0 <= varintLen ->
  pos + 1 + varintLen + filenameLen <= len data ->
  protowire.ConsumeField (drop (Z.to_nat pos) data)
  = Some (1, protowire.BytesType, 1 + varintLen + filenameLen).
Proof.
  intros H0 Hb Ev Hv Hl.
  assert (Hd : drop (Z.to_nat pos) data = magicByte :: drop (Z.to_nat (pos + 1)) data).
  { replace (Z.to_nat (pos + 1)) with (S (Z.to_nat pos)) by lia.
    by apply drop_S. }
  rewrite Hd. set (rest := drop (Z.to_nat (pos + 1)) data) in *.
  pose proof (ConsumeVarint_width _ _ _ Ev) as [Hm Hw].
  assert (Hrest : len rest = len data - (pos + 1)).
  { unfold rest. apply len_drop; [lia|].
    apply lookup_lt_Some in Hb. unfold len. lia. }
  unfold protowire.ConsumeField.
  change (protowire.ConsumeTag (magicByte :: rest)) with (1, 2, 1).
  cbn [Z.ltb Z.compare]. change (drop (Z.to_nat 1) (magicByte :: rest)) with rest.
  unfold protowire.ConsumeFieldValue.
  replace (2 * length rest + 2)%nat with (S (2 * length rest + 1)) by lia.
  cbn [protowire.consumeFieldValueD].
  change (2 =? protowire.VarintType) with false.
  change (2 =? protowire.Fixed32Type) with false.
  change (2 =? protowire.Fixed64Type) with false.
  change (2 =? protowire.BytesType) with true. cbn match.
  unfold protowire.ConsumeBytes. rewrite Ev.
  replace (varintLen <? 0) with false by lia.
  replace (filenameLen >? len rest - varintLen) with false by lia.
  cbn [snd]. replace (varintLen + filenameLen <? 0) with false by lia.
  do 2 f_equal. lia.
Qed.

(** ** The backward search *)

Lemma prefix_loop_yields fuel data pos minValidLength tryLen :
  0 <= pos -> pos <= len data -> (Z.to_nat tryLen < fuel)%nat ->
  yields (prefix_loop fuel data pos minValidLength tryLen)
    (fun r => match r with Some (start, _, _) => start = pos | None => True end).
Proof.
  revert tryLen. induction fuel as [|fuel IH]; intros tryLen H0 Hl Hf; [lia|].
  cbn [prefix_loop].
  destruct ((tryLen >=? 1) && (pos >=? tryLen)) eqn:Eg; [|by apply yields_ret].
  eapply yields_bind; [apply returns_sliceFrom; lia|].
  destruct (protowire.ConsumeVarint _) as [candidateLen n].
  assert (Hrec : yields (prefix_loop fuel data pos minValidLength (tryLen - 1))
            (fun r => match r with Some (start, _, _) => start = pos | None => True end))
    by (apply IH; lia).
  destruct ((n =? tryLen) && (toInt candidateLen >=? minValidLength)); [|exact Hrec].
  cbn zeta. destruct (toInt (pos + toInt candidateLen) <=? len data); [|exact Hrec].
  eapply yields_bind; [apply returns_debugPrintf|]. by apply yields_ret.
Qed.

Lemma findValidStart_loop_yields fuel data protoIndex searchStart :
  0 <= protoIndex -> protoIndex + len scan <= len data ->
  0 <= searchStart -> searchStart <= protoIndex ->
  (Z.to_nat searchStart < fuel)%nat ->
  yields (findValidStart_loop fuel data (protoIndex + len scan) searchStart)
    (start_found data protoIndex).
Proof.
  intros Hi Hm. revert searchStart.
  induction fuel as [|fuel IH]; intros searchStart H0 Hs Hf; [lia|].
  assert (Hscan : len scan = 6) by done.
  cbn [findValidStart_loop].
  destruct (searchStart >? 0) eqn:Eg; cbn [negb]; [|apply yields_ret; by left].
  eapply yields_bind; [apply returns_sliceTo; lia|].
  destruct (LastIndexByte_spec (take (Z.to_nat searchStart) data) magicByte)
    as [Hp|(Hp1 & Hp2 & Hp3)].
  { rewrite Hp. apply yields_ret. by left. }
  set (pos := bytes.LastIndexByte (take (Z.to_nat searchStart) data) magicByte) in *.
  assert (Hpos : pos < searchStart).
  { unfold len in Hp2. rewrite length_take in Hp2. lia. }
  assert (Hbyte : data !! Z.to_nat pos = Some magicByte).
  { rewrite lookup_take_lt in Hp3 by lia. done. }
  replace (pos =? -1) with false by lia.
  eapply yields_bind; [apply returns_debugPrintf|].
  assert (Hrec : yields (findValidStart_loop fuel data (protoIndex + len scan) pos)
            (start_found data protoIndex)) by (apply IH; lia).
  destruct (pos + 1 >=? len data) eqn:Ee; [exact Hrec|].
  eapply yields_bind; [apply returns_sliceFrom; lia|].
  destruct (protowire.ConsumeVarint _) as [filenameLen varintLen] eqn:Ev.
  pose proof (ConsumeVarint_width _ _ _ Ev) as [Hfl Hvl].
  pose proof (ConsumeVarint_bound _ _ _ Ev) as Hfu.
  rewrite len_drop in Hvl by lia.
  destruct (varintLen <? 0) eqn:Evl.
  { eapply yields_bind; [apply returns_debugPrintf|]. exact Hrec. }
  eapply yields_bind; [apply returns_debugPrintf|]. cbn zeta.
  eapply yields_bind; [apply returns_debugPrintf|].
  assert (Hnone : yields
            (mret None ≫= λ found : option (Z * Z * Z),
               match found with
               | Some r => mret r
               | None => findValidStart_loop fuel data (protoIndex + len scan) pos
               end) (start_found data protoIndex)).
  { eapply yields_bind; [apply returns_ret|]. exact Hrec. }
  destruct (toInt (pos + 1 + varintLen + toInt filenameLen) =? protoIndex + len scan)
    eqn:Ec; [|exact Hnone].
  destruct ((pos + 1 + varintLen <? len data) && (pos + 1 + varintLen <? protoIndex + len scan))
    eqn:Eb; [|exact Hnone].
  destruct (forallb printable (subslice (pos + 1 + varintLen) (protoIndex + len scan) data))
    eqn:Ep.
  2: { eapply (yields_bind _ _ None); [|exact Hrec].
       eapply returns_bind; [apply returns_slice; lia|]. rewrite Ep. apply returns_ret. }
  assert (Hlen : pos + 1 + varintLen + filenameLen = protoIndex + len scan).
  { destruct (toInt_wraps filenameLen) as [k1 Hk1].
    destruct (toInt_wraps (pos + 1 + varintLen + toInt filenameLen)) as [k2 Hk2].
    pose proof (toInt_range (pos + 1 + varintLen + toInt filenameLen)). lia. }
  assert (Hfound : start_found data protoIndex (pos, 0, 0) /\
                   forall pl pb, start_found data protoIndex (pos, pl, pb)).
  { assert (forall pl pb, start_found data protoIndex (pos, pl, pb)); [|by split].
    intros pl pb. right. split; [lia|]. split; [lia|].
    exists (1 + varintLen + filenameLen). split; [lia|].
    apply ConsumeField_at_start; [lia|done|done|lia|lia]. }
  destruct Hfound as [Hf0 Hfp].
  eapply yields_bind_yields
    with (Q := fun found => exists pl pb, found = Some (pos, pl, pb)).
  2: { intros found (pl & pb & ->). apply yields_ret. apply Hfp. }
  eapply yields_bind; [apply returns_slice; lia|]. rewrite Ep.
  eapply yields_bind; [apply returns_debugPrintf|]. cbn zeta.
  eapply yields_bind_yields
    with (Q := fun r => match r with Some (start, _, _) => start = pos | None => True end).
  - destruct (pos >=? 1); [|by apply yields_ret].
    apply prefix_loop_yields; [lia|lia|cbn; lia].
  - intros [[[start pl] pb]|] Hr; apply yields_ret; [subst start|]; eauto.
Qed.

Lemma findValidStartWithLength_yields data protoIndex :
  0 <= protoIndex -> protoIndex + len scan <= len data ->
  yields (findValidStartWithLength data protoIndex) (start_found data protoIndex).
Proof.
  intros H0 Hl. unfold findValidStartWithLength.
  apply findValidStart_loop_yields; lia.
Qed.

(** ** One iteration of [Scan] *)

Lemma returns_pure {A : Type} (m : M A) a : (forall w, m w = Done a w) -> returns m a.
Proof. intros H [d o]. exists []. rewrite H. cbn. by rewrite app_nil_r. Qed.

Lemma filenameStart_loop_yields fuel data filenameStart :
  0 <= filenameStart -> filenameStart <= len data ->
  (Z.to_nat filenameStart < fuel)%nat ->
  yields (filenameStart_loop fuel data filenameStart)
    (fun r => 0 <= r /\ r <= filenameStart).
Proof.
  revert filenameStart. induction fuel as [|fuel IH]; intros fs H0 Hl Hf; [lia|].
  cbn [filenameStart_loop].
  destruct (fs >? 0) eqn:Eg; [|apply yields_ret; lia].
  destruct (returns_index data (fs - 1)) as (c & _ & Hc); [lia|lia|].
  eapply yields_bind; [exact Hc|].
  destruct (negb (Byte.eqb c x0a) && (u8 c >=? 32) && (u8 c <=? 126));
    [|apply yields_ret; lia].
  eapply yields_mono; [apply IH; lia|]. cbn. lia.
Qed.

Lemma ScanStep_spec data totalOffset :
  yields (ScanStep data totalOffset) (step_spec data totalOffset).
Proof.
  unfold ScanStep, step_spec.
  destruct (Index_range data scan) as [Hi|[Hi1 Hi2]].
  { rewrite Hi. by apply yields_ret. }
  set (index := bytes.Index data scan) in *.
  assert (Hscan : len scan = 6) by done.
  replace (index =? -1) with false by lia.
  eapply yields_bind_yields;
    [apply (filenameStart_loop_yields _ data index); lia|].
  intros filenameStart [Hf1 Hf2].
  eapply yields_bind; [apply returns_slice; lia|].
  eapply yields_bind; [apply returns_debugPrintf|].
  destruct (findValidStartWithLength_yields data index) as ([[start pl] pb] & Hfind & Hfound);
    [lia|lia|].
  eapply yields_bind; [exact Hfind|].
  destruct Hfound as [->|(Hs0 & Hs1 & n & Hn & Ef)].
  { cbn [Z.eqb]. eapply yields_bind; [apply returns_debugPrintf|].
    eapply yields_bind; [apply returns_sliceFrom; lia|].
    apply yields_ret. exists (-1), pl, pb. split; [done|]. done. }
  replace (start =? -1) with false by lia.
  eapply yields_bind; [apply returns_debugPrintf|]. cbn zeta.
  eapply yields_bind.
  { apply returns_slice; destruct (start >? 10) eqn:?;
      destruct (start + 30 >? len data) eqn:?; lia. }
  eapply yields_bind; [apply returns_debugPrintf|].
  assert (Happend : forall length, 0 <= length -> start + length <= len data ->
    returns
      (debugPrintf (line "  Extracted %d bytes from offset %d") [ArgInt length; ArgInt start];;
       result ← slice data start (start + length);
       rest ← sliceFrom data (start + length);
       mret (Emit {| cStart := totalOffset + start; cBytes := result |}
               rest (totalOffset + (start + length))))
      (appended data totalOffset start length)).
  { intros length Hl0 Hl1.
    eapply returns_bind; [apply returns_debugPrintf|].
    eapply returns_bind; [apply returns_slice; lia|].
    eapply returns_bind; [apply returns_sliceFrom; lia|].
    apply returns_ret. }
  destruct ((pl >? 0) && (start + pl <=? len data)) eqn:Epl.
  { eapply yields_bind; [apply returns_debugPrintf|].
    exists (appended data totalOffset start pl). split; [apply Happend; lia|].
    exists start, pl, pb. split; [done|].
    replace (start =? -1) with false by lia. rewrite Epl. done. }
  destruct (consumeBytes_segment data start) as (e & r & Hseg & Hrun); [lia|lia|].
  assert (Hsl : start < len data) by lia.
  assert (Hsl' : start <= len data) by lia.
  pose proof (segment_first_record data start false e r _ _ n Hs0 Hsl Ef Hn
                (fun _ => eq_refl) Hseg) as He.
  pose proof (segment_bounds data start false e r Hs0 Hsl' Hseg) as [_ He'].
  eapply yields_bind; [apply returns_pure, Hrun|].
  eapply yields_bind; [apply returns_debugPrintf|].
  assert (Hspec : forall s,
    match stop_error r with
    | Some _ => s = skipped data totalOffset index
    | None => s = appended data totalOffset start (e - start)
    end ->
    exists start0 prefixLen prefixBytes,
      returns (findValidStartWithLength data index) (start0, prefixLen, prefixBytes) /\
      (if start0 =? -1 then s = skipped data totalOffset index
       else
         0 <= start0 /\ start0 < index /\
         (if (prefixLen >? 0) && (start0 + prefixLen <=? len data)
          then s = appended data totalOffset start0 prefixLen
          else
            exists e0 r0,
              segment data start0 false e0 r0 /\ start0 < e0 /\ e0 <= len data /\
              returns (consumeBytes data start0) (e0 - start0, stop_error r0) /\
              match stop_error r0 with
              | Some _ => s = skipped data totalOffset index
              | None => s = appended data totalOffset start0 (e0 - start0)
              end))).
  { intros s Hs. exists start, pl, pb. split; [done|].
    replace (start =? -1) with false by lia. rewrite Epl.
    split; [done|]. split; [done|]. exists e, r.
    split; [done|]. split; [lia|]. split; [done|]. split; [apply returns_pure, Hrun|done]. }
  destruct (stop_error r) as [msg|] eqn:Eerr.
  - eapply yields_bind; [apply returns_fmt_Printf|].
    replace (len data >? index) with true by lia.
    eapply yields_bind; [apply returns_sliceFrom; lia|].
    apply yields_ret. by apply Hspec.
  - exists (appended data totalOffset start (e - start)).
    split; [apply Happend; lia|]. by apply Hspec.
Qed.

(** ** The whole scan, one window after the other *)

Lemma drop_drop_Z {A : Type} (l : list A) a b :
  0 <= a -> 0 <= b -> drop (Z.to_nat b) (drop (Z.to_nat a) l) = drop (Z.to_nat (a + b)) l.
Proof. intros. rewrite drop_drop. f_equal. lia. Qed.

Lemma len_subslice {A : Type} (l : list A) lo hi :
  0 <= lo -> lo <= hi -> hi <= len l -> len (subslice lo hi l) = hi - lo.
Proof.
  intros. unfold subslice, len in *. rewrite length_take, length_drop. lia.
Qed.

Lemma subslice_drop {A : Type} (l : list A) off lo hi :
  0 <= off -> 0 <= lo ->
  subslice lo hi (drop (Z.to_nat off) l) = subslice (off + lo) (off + hi) l.
Proof.
  intros. unfold subslice. rewrite drop_drop_Z by lia. do 2 f_equal. lia.
Qed.

Lemma appended_advances buf off start length :
  0 <= off -> off <= len buf -> 0 <= start -> 0 < length ->
  start + length <= len (drop (Z.to_nat off) buf) ->
  advances buf off (appended (drop (Z.to_nat off) buf) off start length).
Proof.
  intros H0 H1 Hs Hl He. rewrite len_drop in He by lia.
  unfold appended, advances, cEnd. cbn [cStart cBytes].
  rewrite subslice_drop by lia.
  rewrite len_subslice by lia.
  rewrite drop_drop_Z by lia.
  repeat (split; [lia|]).
  split; [|done]. f_equal. lia.
Qed.

Lemma skipped_advances buf off index :
  0 <= off -> off <= len buf -> 0 <= index ->
  index + 1 <= len (drop (Z.to_nat off) buf) ->
  advances buf off (skipped (drop (Z.to_nat off) buf) off index).
Proof.
  intros H0 H1 Hi He. rewrite len_drop in He by lia.
  unfold skipped, advances. rewrite drop_drop_Z by lia.
  split; [lia|]. split; [lia|done].
Qed.

Lemma step_spec_advances buf off s :
  0 <= off -> off <= len buf ->
  step_spec (drop (Z.to_nat off) buf) off s -> advances buf off s.
Proof.
  intros H0 H1. unfold step_spec.
  set (data := drop (Z.to_nat off) buf).
  destruct (Index_range data scan) as [Hi|[Hi1 Hi2]].
  { rewrite Hi. by intros ->. }
  set (index := bytes.Index data scan) in *.
  assert (Hscan : len scan = 6) by done.
  replace (index =? -1) with false by lia.
  intros (start & pl & pb & _ & Hs).
  destruct (start =? -1) eqn:Es.
  { subst s. apply skipped_advances; fold data; lia. }
  destruct Hs as (Hs0 & Hs1 & Hs).
  destruct ((pl >? 0) && (start + pl <=? len data)) eqn:Epl.
  { subst s. apply appended_advances; fold data; lia. }
  destruct Hs as (e & r & _ & He1 & He2 & _ & Hs).
  destruct (stop_error r); subst s.
  - apply skipped_advances; fold data; lia.
  - apply appended_advances; fold data; lia.
Qed.

Lemma windows_weaken buf lo lo' cs : lo' <= lo -> windows buf lo cs -> windows buf lo' cs.
Proof. destruct cs as [|c cs]; cbn; [done|]. intros ? (? & ?). split; [lia|done]. Qed.

Lemma Scan_loop_yields buf fuel off results :
  0 <= off -> off <= len buf ->
  (length (drop (Z.to_nat off) buf) < fuel)%nat ->
  yields (Scan_loop fuel (drop (Z.to_nat off) buf) off results)
    (fun r => exists new, r = results ++ new /\ windows buf off new).
Proof.
  revert off results. induction fuel as [|fuel IH]; intros off results H0 H1 Hf; [lia|].
  cbn [Scan_loop].
  destruct (ScanStep_spec (drop (Z.to_nat off) buf) off) as (s & Hret & Hspec).
  apply step_spec_advances in Hspec; [|done|done].
  eapply yields_bind; [exact Hret|].
  rewrite length_drop in Hf.
  destruct s as [|data' off'|c data' off']; cbn [advances] in Hspec.
  - apply yields_ret. exists []. by rewrite app_nil_r.
  - destruct Hspec as (Ha & Hb & ->).
    eapply yields_mono.
    + apply IH; [lia|lia|]. rewrite length_drop. unfold len in *. lia.
    + cbn. intros r (new & -> & Hw). exists new. split; [done|].
      eapply windows_weaken; [|exact Hw]. lia.
  - destruct Hspec as (Ha & Hb & Hc & Hd & He & ->).
    eapply yields_mono.
    + apply IH; [lia|lia|]. rewrite length_drop. unfold len in *. lia.
    + cbn. intros r (new & -> & Hw). exists (c :: new).
      split; [by rewrite <- app_assoc|]. cbn. rewrite Hc. rewrite Hc in Hb, He.
      repeat (split; [done|]). done.
Qed.

Lemma Scan_yields data : yields (Scan data) (windows data 0).
Proof.
  unfold Scan.
  eapply yields_mono; [apply (Scan_loop_yields data (S (length data)) 0 [])|].
  - lia.
  - apply len_nonneg.
  - rewrite length_drop. lia.
  - cbn. by intros r (new & -> & Hw).
Qed.

Lemma windows_pairwise buf lo cs i j c1 c2 :
  (i < j)%nat -> cs !! i = Some c1 -> cs !! j = Some c2 ->
  windows buf lo cs -> cEnd c1 <= cStart c2.
Proof.
  revert lo i j. induction cs as [|c cs IH]; intros lo i j Hij H1 H2 Hw; [done|].
  cbn in Hw. destruct Hw as (Ha & Hb & Hc & Hd & Hw).
  destruct j as [|j]; [lia|]. cbn in H2.
  destruct i as [|i]; cbn in H1.
  - injection H1 as ->. clear IH Hij.
    revert j H2 Hw. generalize (cEnd c1) as lo'.
    induction cs as [|c' cs IH']; intros lo' j H2 Hw; [done|].
    cbn in Hw. destruct Hw as (Ha' & Hb' & Hc' & Hd' & Hw').
    destruct j as [|j]; cbn in H2.
    + by injection H2 as ->.
    + apply (IH' (cEnd c') j H2) in Hw'. lia.
  - eapply (IH _ i j); [lia|done|done|exact Hw].
Qed.

Lemma windows_lookup buf lo cs i c :
  cs !! i = Some c -> windows buf lo cs ->
  lo <= cStart c /\ cStart c < cEnd c /\ cEnd c <= len buf /\
  cBytes c = subslice (cStart c) (cEnd c) buf.
Proof.
  revert lo i. induction cs as [|c' cs IH]; intros lo i Hi Hw; [done|].
  cbn in Hw. destruct Hw as (Ha & Hb & Hc & Hd & Hw).
  destruct i as [|i]; cbn in Hi.
  - injection Hi as ->. done.
  - destruct (IH _ _ Hi Hw) as (? & ? & ? & ?). split; [lia|done].
Qed.

(** ** The claims about the scanner *)

Lemma returns_of_run {A : Type} (m : M A) (P : A -> Prop) a w' :
  yields m P -> m quiet = Done a w' -> returns m a.
Proof.
  intros (a' & Ha & _) Hrun. destruct (Ha quiet) as [out E].
  rewrite Hrun in E. by injection E as -> _.
Qed.

Lemma returns_run {A : Type} (m : M A) a w :
  returns m a -> exists w', m w = Done a w'.
Proof. intros H. destruct (H w) as [out E]. eauto. Qed.

Lemma Scan_total data w : exists results w', Scan data w = Done results w'.
Proof.
  destruct (Scan_yields data) as (r & Hr & _).
  destruct (returns_run _ _ w Hr) as [w' E]. eauto.
Qed.

(** C1. From a start position inside the buffer, [consumeBytes] returns the
    length of the segment that ends at the first offset where the pass
    stops: a second record of field 1, a decode attempt reporting "invalid
    field number", a step of zero bytes, or the end of the buffer, all
    without error; any other decode failure is returned as an error.  When
    that error reaches [Scan], the iteration skips to the byte after the
    start of the marker occurrence and the scan goes on to its end. *)
Theorem consumeBytes_ends_at_first_stop data start :
  0 <= start -> start < len data ->
  exists e r,
    segment data start false e r /\
    (forall w, consumeBytes data start w = Done (e - start, stop_error r) w) /\
    (stop_error r = None <-> forall code, r <> DecodeFailure code) /\
    (forall code totalOffset prefixLen prefixBytes,
       r = DecodeFailure code ->
       bytes.Index data scan <> -1 ->
       returns (findValidStartWithLength data (bytes.Index data scan))
         (start, prefixLen, prefixBytes) ->
       (prefixLen >? 0) && (start + prefixLen <=? len data) = false ->
       returns (ScanStep data totalOffset)
         (skipped data totalOffset (bytes.Index data scan))) /\
    (forall w, exists results w', Scan data w = Done results w').
Proof.
  intros H0 Hl.
  destruct (consumeBytes_segment data start H0 Hl) as (e & r & Hseg & Hrun).
  exists e, r. split; [done|]. split; [done|]. split.
  { destruct r; cbn; split; try done; intros H; try (by destruct (H code)).
    all: intros code; discriminate. }
  split; [|apply Scan_total].
  intros code totalOffset pl pb -> Hidx Hfind Hpl.
  destruct (ScanStep_spec data totalOffset) as (s & Hret & Hspec).
  unfold step_spec in Hspec.
  replace (bytes.Index data scan =? -1) with false in Hspec by lia.
  destruct Hspec as (start' & pl' & pb' & Hfind' & Hs).
  pose proof (returns_inj _ _ _ Hfind Hfind') as [= <- <- <-].
  replace (start =? -1) with false in Hs by lia.
  destruct Hs as (_ & _ & Hs). rewrite Hpl in Hs.
  destruct Hs as (e' & r' & Hseg' & _ & _ & _ & Hs).
  destruct (segment_functional _ _ _ _ _ _ _ Hseg Hseg') as [<- <-].
  cbn in Hs. by subst s.
Qed.

(** C2. [Scan] ends normally on every buffer, within the [length data + 1]
    iterations its loop is given; each iteration that does not end the loop
    moves the scan position forward, past the candidate it records or by at
    least one byte from the marker occurrence it gives up; and an occurrence
    for which the backward search finds no start is skipped without a
    candidate. *)
Theorem Scan_terminates data :
  (forall w, exists results w', Scan data w = Done results w') /\
  (forall buf off, 0 <= off -> off <= len buf -> data = drop (Z.to_nat off) buf ->
     yields (ScanStep data off) (advances buf off)) /\
  (forall totalOffset prefixLen prefixBytes,
     bytes.Index data scan <> -1 ->
     returns (findValidStartWithLength data (bytes.Index data scan))
       (-1, prefixLen, prefixBytes) ->
     returns (ScanStep data totalOffset)
       (skipped data totalOffset (bytes.Index data scan))).
Proof.
  split; [apply Scan_total|]. split.
  - intros buf off H0 H1 ->.
    eapply yields_mono; [apply ScanStep_spec|].
    intros s. by apply step_spec_advances.
  - intros totalOffset pl pb Hidx Hfind.
    destruct (ScanStep_spec data totalOffset) as (s & Hret & Hspec).
    unfold step_spec in Hspec.
    replace (bytes.Index data scan =? -1) with false in Hspec by lia.
    destruct Hspec as (start' & pl' & pb' & Hfind' & Hs).
    pose proof (returns_inj _ _ _ Hfind Hfind') as [= <- <- <-].
    cbn in Hs. by subst s.
Qed.

(** A marker preceded by a tag byte and a varint that does not describe the
    name yields no candidate. *)
Example Scan_invalid_varint : Scan invalid_varint_buffer quiet = Done [] quiet.
Proof. reflexivity. Qed.

(** From a start at least four bytes into the buffer the loop over the
    widths does what the specification says. *)
Lemma prefix_loop_from_four data S L :
  4 <= S -> S <= len data ->
  returns (prefix_loop 5 data S (L + 50) 4) (outer_prefix data S L).
Proof.
  intros H4 Hl.
  assert (Hstep : forall fuel w rest,
    1 <= w -> w <= 4 ->
    returns (prefix_loop fuel data S (L + 50) (w - 1)) rest ->
    returns (prefix_loop (Datatypes.S fuel) data S (L + 50) w)
      (match prefix_of_width data S L w with Some r => Some r | None => rest end)).
  { intros fuel w rest Hw1 Hw4 Hrest. cbn [prefix_loop].
    replace ((w >=? 1) && (S >=? w)) with true by lia.
    eapply returns_bind; [apply returns_sliceFrom; lia|].
    unfold prefix_of_width.
    destruct (protowire.ConsumeVarint _) as [V n].
    destruct ((n =? w) && (toInt V >=? L + 50)); cbn [andb]; [|exact Hrest].
    destruct (toInt (S + toInt V) <=? len data); [|exact Hrest].
    eapply returns_bind; [apply returns_debugPrintf|]. apply returns_ret. }
  unfold outer_prefix.
  apply (Hstep 4%nat 4); [lia|lia|].
  apply (Hstep 3%nat 3); [lia|lia|].
  apply (Hstep 2%nat 2); [lia|lia|].
  replace (prefix_of_width data S L 1)
    with (match prefix_of_width data S L 1 with Some r => Some r | None => None end)
    by (by destruct (prefix_of_width data S L 1)).
  apply (Hstep 1%nat 1); [lia|lia|].
  cbn [prefix_loop]. replace ((1 - 1 >=? 1) && (S >=? 1 - 1)) with false by lia.
  apply returns_ret.
Qed.

(** Below four, no width is tried, whatever the bytes. *)
Lemma prefix_loop_below_four data S L :
  S < 4 -> returns (prefix_loop 5 data S (L + 50) 4) None.
Proof.
  intros H. cbn [prefix_loop]. replace ((4 >=? 1) && (S >=? 4)) with false by lia.
  apply returns_ret.
Qed.

(** C5. When the validated start lies less than four bytes into the
    buffer, the loop over the prefix widths ends before its first
    iteration: here the start is 1, the file name has 7 bytes, the byte
    before the start is the one-byte varint 60 with 60 >= 7 + 50 and
    1 + 60 within the buffer, and still no prefix is reported and the
    recorded candidate is the 9 bytes consumed by the self-describing pass,
    not the 60 bytes of the prefix. *)
Theorem short_prefix_not_tried :
  bytes.Index short_prefix_buffer scan = 4 /\
  protowire.ConsumeVarint (drop 0 short_prefix_buffer) = (60, 1) /\
  60 >= 7 + 50 /\ 1 + 60 <= len short_prefix_buffer /\
  findValidStartWithLength short_prefix_buffer 4 quiet = Done (1, 0, 0) quiet /\
  Scan short_prefix_buffer quiet
  = Done [{| cStart := 1; cBytes := subslice 1 10 short_prefix_buffer |}] quiet.
Proof. repeat split; vm_compute; congruence. Qed.

(** C7. The candidates that [Scan] returns are in the order of their
    positions and do not overlap: a candidate ends at or before the start of
    every later one; each is a non-empty range of the buffer and holds the
    bytes of that range. *)
Theorem Scan_ranges_ordered data w :
  exists results w',
    Scan data w = Done results w' /\
    (forall i j c1 c2, (i < j)%nat ->
       results !! i = Some c1 -> results !! j = Some c2 -> cEnd c1 <= cStart c2) /\
    (forall i c, results !! i = Some c ->
       0 <= cStart c /\ cStart c < cEnd c /\ cEnd c <= len data /\
       cBytes c = subslice (cStart c) (cEnd c) data).
Proof.
  destruct (Scan_yields data) as (r & Hr & Hw).
  destruct (returns_run _ _ w Hr) as [w' E].
  exists r, w'. split; [done|]. split.
  - intros i j c1 c2 Hij H1 H2. by eapply windows_pairwise.
  - intros i c Hi. by eapply windows_lookup.
Qed.

(** C9. On a buffer in which the marker [.proto] does not occur, [Scan]
    returns no candidate. *)
Theorem Scan_no_marker data :
  (forall i, ~ occurs_at scan data i) -> forall w, Scan data w = Done [] w.
Proof.
  intros H w. apply Index_none in H.
  unfold Scan. cbn [Scan_loop]. unfold mbind, M_bind, ScanStep. by rewrite H.
Qed.

(** C10. The candidates that [Scan] returns do not depend on [DebugScan]:
    a run with the flag set and a run with the flag clear, from any two
    states of the standard output, end with the same result. *)
Theorem Scan_ignores_DebugScan data out1 out2 :
  exists results w1 w2,
    Scan data {| DebugScan := true; stdout := out1 |} = Done results w1 /\
    Scan data {| DebugScan := false; stdout := out2 |} = Done results w2.
Proof.
  destruct (Scan_yields data) as (r & Hr & _).
  destruct (returns_run _ _ {| DebugScan := true; stdout := out1 |} Hr) as [w1 E1].
  destruct (returns_run _ _ {| DebugScan := false; stdout := out2 |} Hr) as [w2 E2].
  by exists r, w1, w2.
Qed.

(** The flag does change what is printed. *)
Example DebugScan_changes_stdout :
  exists results w1 w2,
    Scan truncated_field_buffer verbose = Done results w1 /\
    Scan truncated_field_buffer quiet = Done results w2 /\
    length (stdout w1) <> length (stdout w2).
Proof. do 3 eexists. split; [reflexivity|]. split; [reflexivity|]. by vm_compute. Qed.

Lemma consumeBytes_ends_at_first_stop_witness :
  0 <= 0 /\ 0 < len truncated_field_buffer /\
  bytes.Index truncated_field_buffer scan = 3 /\
  returns (ScanStep truncated_field_buffer 0) (skipped truncated_field_buffer 0 3).
Proof.
  assert (H0 : 0 <= 0) by lia.
  assert (Hl : 0 < len truncated_field_buffer) by reflexivity.
  assert (Hi : bytes.Index truncated_field_buffer scan = 3) by reflexivity.
  split; [exact H0|]. split; [exact Hl|]. split; [exact Hi|].
  destruct (consumeBytes_ends_at_first_stop truncated_field_buffer 0 H0 Hl)
    as (e & r & Hseg & Hrun & Herr & Hskip & Htot).
  assert (Hc : consumeBytes truncated_field_buffer 0 quiet
               = Done (9, Some "couldn't consume proto bytes: unexpected EOF") quiet)
    by reflexivity.
  rewrite Hrun in Hc.
  assert (He : stop_error r = Some "couldn't consume proto bytes: unexpected EOF")
    by congruence.
  destruct r as [ | | | |code]; try discriminate He.
  rewrite <- Hi.
  apply (Hskip code 0 0 0 eq_refl).
  - rewrite Hi. discriminate.
  - rewrite Hi.
    apply (returns_of_run _ _ _ quiet
             (findValidStartWithLength_yields truncated_field_buffer 3
                ltac:(lia) ltac:(vm_compute; discriminate))).
    reflexivity.
  - reflexivity.
Defined.

Lemma Scan_no_marker_witness :
  (forall i, ~ occurs_at scan no_marker_buffer i) /\
  Scan no_marker_buffer verbose = Done [] verbose.
Proof.
  assert (H : forall i, ~ occurs_at scan no_marker_buffer i)
    by (apply Index_none; reflexivity).
  split; [exact H|]. exact (Scan_no_marker no_marker_buffer H verbose).
Defined.

(** Two messages side by side come out as two candidates: the second
    record of field 1 ends the first. *)
Example Scan_adjacent_messages :
  Scan adjacent_buffer quiet
  = Done [ {| cStart := 0; cBytes := subslice 0 12 adjacent_buffer |};
           {| cStart := 12; cBytes := subslice 12 24 adjacent_buffer |} ] quiet.
Proof. reflexivity. Qed.

Lemma Scan_terminates_witness :
  bytes.Index invalid_varint_buffer scan = 2 /\
  returns (ScanStep invalid_varint_buffer 0) (skipped invalid_varint_buffer 0 2).
Proof.
  assert (Hi : bytes.Index invalid_varint_buffer scan = 2) by reflexivity.
  split; [exact Hi|]. rewrite <- Hi.
  apply (proj2 (proj2 (Scan_terminates invalid_varint_buffer)) 0 0 0).
  - rewrite Hi. discriminate.
  - rewrite Hi.
    apply (returns_of_run _ _ _ quiet
             (findValidStartWithLength_yields invalid_varint_buffer 2
                ltac:(lia) ltac:(vm_compute; discriminate))).
    reflexivity.
Defined.

(** ** The backward search: which start it answers *)

Lemma LastIndexByte_max s c j :
  0 <= j -> bytes.LastIndexByte s c < j -> s !! Z.to_nat j <> Some c.
Proof.
  revert j. induction s as [|x s IH]; intros j Hj; cbn [bytes.LastIndexByte]; [done|].
  destruct (LastIndexByte_spec s c) as [Hr|(Hr & _)].
  - rewrite Hr. cbn [Z.leb Z.compare]. rewrite Hr in IH.
    destruct (Byte.eqb x c) eqn:E.
    + intros Hlt. replace (Z.to_nat j) with (S (Z.to_nat (j - 1))) by lia.
      cbn [lookup list_lookup]. apply IH; lia.
    + intros _. destruct (Z.eq_dec j 0) as [->|Hne].
      * cbn. intros [= ->]. by rewrite (proj2 (byte_eqb_eq c c) eq_refl) in E.
      * replace (Z.to_nat j) with (S (Z.to_nat (j - 1))) by lia.
        cbn [lookup list_lookup]. apply IH; lia.
  - replace (0 <=? bytes.LastIndexByte s c) with true by lia.
    intros Hlt. replace (Z.to_nat j) with (S (Z.to_nat (j - 1))) by lia.
    cbn [lookup list_lookup]. apply IH; lia.
Qed.

(** A varint of [n] bytes, [n] below ten, is below [2 ^ (7 * n)]. *)
Lemma varintAt_small steps i v b m n :
  0 <= i -> 0 <= v -> v < 2 ^ (7 * i) ->
  protowire.varintAt steps i v b = (m, n) -> 0 < n -> n <= 9 -> m < 2 ^ (7 * n).
Proof.
  revert i v b m n. induction steps as [|steps IH]; intros i v b m n Hi Hv Hv'; cbn.
  - intros [= <- <-]. unfold protowire.errCodeOverflow. lia.
  - destruct b as [|c b]; [intros [= <- <-]; unfold protowire.errCodeTruncated; lia|].
    pose proof (u8_range c).
    assert (Hp : 2 ^ (7 * (i + 1)) = 128 * 2 ^ (7 * i)).
    { replace (7 * (i + 1)) with (7 + 7 * i) by lia. rewrite Z.pow_add_r by lia. lia. }
    assert (0 < 2 ^ (7 * i)) by (apply Z.pow_pos_nonneg; lia).
    rewrite !Z.shiftl_mul_pow2 by lia.
    destruct (u8 c <? _) eqn:Ec.
    + intros [= <- <-] _ Hn. replace (i =? 9) with false in Ec by lia. rewrite Hp. nia.
    + intros E Hn0 Hn9.
      pose proof (varintAt_width steps (i + 1)
                    (v + u8 c * 2 ^ (7 * i) - 128 * 2 ^ (7 * i)) b ltac:(lia)) as Hw.
      rewrite E in Hw. cbn in Hw.
      unfold protowire.errCodeTruncated, protowire.errCodeOverflow in Hw.
      replace (i =? 9) with false in Ec by lia.
      eapply (IH (i + 1) _ b); [lia| | |exact E|lia|lia]; nia.
Qed.

Lemma ConsumeVarint_small b v n :
  protowire.ConsumeVarint b = (v, n) -> 0 < n -> n <= 4 -> v < 2 ^ 28.
Proof.
  intros E H0 H4.
  assert (v < 2 ^ (7 * n)) by (apply (varintAt_small 10 0 0 b); cbn; [lia|lia|lia|exact E|lia|lia]).
  assert (2 ^ (7 * n) <= 2 ^ 28) by (apply Z.pow_le_mono_r; lia). lia.
Qed.

Lemma toInt_id x : - 2 ^ 63 <= x -> x < 2 ^ 63 -> toInt x = x.
Proof. intros H1 H2. unfold toInt. rewrite Z.mod_small; lia. Qed.

Lemma prefix_loop_found fuel data pos L tryLen :
  0 <= pos -> pos <= len data -> tryLen <= 4 -> (Z.to_nat tryLen < fuel)%nat ->
  yields (prefix_loop fuel data pos (L + 50) tryLen)
    (fun r => match r with
              | Some (start, prefixLen, prefixBytes) =>
                  start = pos /\ prefix_found data pos L prefixLen prefixBytes
              | None => True
              end).
Proof.
  revert tryLen. induction fuel as [|fuel IH]; intros tryLen H0 Hl H4 Hf; [lia|].
  cbn [prefix_loop].
  destruct ((tryLen >=? 1) && (pos >=? tryLen)) eqn:Eg; [|by apply yields_ret].
  eapply yields_bind; [apply returns_sliceFrom; lia|].
  destruct (protowire.ConsumeVarint _) as [candidateLen n] eqn:Ev.
  assert (Hrec : yields (prefix_loop fuel data pos (L + 50) (tryLen - 1))
            (fun r => match r with
                      | Some (start, prefixLen, prefixBytes) =>
                          start = pos /\ prefix_found data pos L prefixLen prefixBytes
                      | None => True
                      end))
    by (apply IH; lia).
  destruct ((n =? tryLen) && (toInt candidateLen >=? L + 50)) eqn:En; [|exact Hrec].
  cbn zeta. destruct (toInt (pos + toInt candidateLen) <=? len data) eqn:Ee; [|exact Hrec].
  eapply yields_bind; [apply returns_debugPrintf|]. apply yields_ret.
  assert (n = tryLen) as -> by lia.
  pose proof (ConsumeVarint_width _ _ _ Ev) as [Hc0 _].
  pose proof (ConsumeVarint_small _ _ _ Ev ltac:(lia) ltac:(lia)) as Hc1.
  rewrite (toInt_id candidateLen) in * by lia.
  split; [done|]. right. repeat (split; [lia|]). split; [exact Ev|].
  apply andb_true_iff in En as [_ En]. apply Z.leb_le in Ee. lia.
Qed.

Lemma findValidStart_loop_result fuel data protoIndex searchStart :
  0 <= protoIndex -> protoIndex + len scan <= len data ->
  0 <= searchStart -> searchStart <= protoIndex ->
  (Z.to_nat searchStart < fuel)%nat ->
  (len data < 2 ^ 63 ->
   forall pos, searchStart <= pos -> ~ valid_start data protoIndex pos) ->
  yields (findValidStart_loop fuel data (protoIndex + len scan) searchStart)
    (search_result data protoIndex).
Proof.
  intros Hi Hm. revert searchStart.
  induction fuel as [|fuel IH]; intros searchStart H0 Hs Hf Hinv; [lia|].
  assert (Hscan : len scan = 6) by done.
  cbn [findValidStart_loop].
  destruct (searchStart >? 0) eqn:Eg; cbn [negb].
  2: { apply yields_ret. left. repeat (split; [done|]).
       intros Hlen pos Hv. apply (Hinv Hlen pos); [|done]. destruct Hv as (? & _). lia. }
  eapply yields_bind; [apply returns_sliceTo; lia|].
  assert (Hbelow : forall pos,
    bytes.LastIndexByte (take (Z.to_nat searchStart) data) magicByte < pos ->
    pos < searchStart -> ~ valid_start data protoIndex pos).
  { intros pos H1 H2 (Hp0 & _ & F & w & Hb & _).
    apply (LastIndexByte_max (take (Z.to_nat searchStart) data) magicByte pos); [lia|done|].
    rewrite lookup_take_lt by lia. exact Hb. }
  destruct (LastIndexByte_spec (take (Z.to_nat searchStart) data) magicByte)
    as [Hp|(Hp1 & Hp2 & Hp3)].
  { rewrite Hp in *. apply yields_ret. left. repeat (split; [done|]).
    intros Hlen pos Hv. destruct (Z.le_gt_cases searchStart pos) as [Hge|Hlt].
    - by apply (Hinv Hlen pos).
    - apply (Hbelow pos); [|lia|done]. destruct Hv as (? & _). lia. }
  set (pos := bytes.LastIndexByte (take (Z.to_nat searchStart) data) magicByte) in *.
  assert (Hpos : pos < searchStart).
  { unfold len in Hp2. rewrite length_take in Hp2. lia. }
  assert (Hbyte : data !! Z.to_nat pos = Some magicByte).
  { rewrite lookup_take_lt in Hp3 by lia. done. }
  replace (pos =? -1) with false by lia.
  eapply yields_bind; [apply returns_debugPrintf|].
  assert (Habove : len data < 2 ^ 63 ->
    forall p, pos < p -> ~ valid_start data protoIndex p).
  { intros Hlen p Hp. destruct (Z.le_gt_cases searchStart p) as [Hge|Hlt].
    - by apply (Hinv Hlen p).
    - by apply (Hbelow p). }
  assert (Hrec : (len data < 2 ^ 63 -> ~ valid_start data protoIndex pos) ->
            yields (findValidStart_loop fuel data (protoIndex + len scan) pos)
              (search_result data protoIndex)).
  { intros Hrej. apply IH; [lia|lia|lia|].
    intros Hlen p Hp. destruct (Z.eq_dec p pos) as [->|Hne]; [by apply Hrej|].
    apply Habove; [done|lia]. }
  destruct (pos + 1 >=? len data) eqn:Ee; [lia|].
  eapply yields_bind; [apply returns_sliceFrom; lia|].
  destruct (protowire.ConsumeVarint _) as [filenameLen varintLen] eqn:Ev.
  pose proof (ConsumeVarint_width _ _ _ Ev) as [Hfl Hvl].
  pose proof (ConsumeVarint_bound _ _ _ Ev) as Hfu.
  rewrite len_drop in Hvl by lia.
  assert (Hvalid : valid_start data protoIndex pos ->
            name_record data pos filenameLen varintLen (protoIndex + len scan)).
  { intros (_ & _ & F & w & Hn). pose proof Hn as (_ & Ev' & _).
    rewrite Ev in Ev'. by injection Ev' as <- <-. }
  destruct (varintLen <? 0) eqn:Evl.
  { eapply yields_bind; [apply returns_debugPrintf|]. apply Hrec.
    intros _ Hv. apply Hvalid in Hv as (_ & _ & Hw & _). lia. }
  eapply yields_bind; [apply returns_debugPrintf|]. cbn zeta.
  eapply yields_bind; [apply returns_debugPrintf|].
  assert (Hnone : (len data < 2 ^ 63 -> ~ valid_start data protoIndex pos) ->
            yields
            (mret None ≫= λ found : option (Z * Z * Z),
               match found with
               | Some r => mret r
               | None => findValidStart_loop fuel data (protoIndex + len scan) pos
               end) (search_result data protoIndex)).
  { intros Hrej. eapply yields_bind; [apply returns_ret|]. by apply Hrec. }
  destruct (toInt (pos + 1 + varintLen + toInt filenameLen) =? protoIndex + len scan)
    eqn:Ec.
  2: { apply Hnone. intros Hlen Hv. apply Hvalid in Hv as (_ & _ & _ & H1 & H2 & _).
       rewrite (toInt_id filenameLen) in Ec by lia.
       rewrite toInt_id in Ec by lia. lia. }
  destruct ((pos + 1 + varintLen <? len data) && (pos + 1 + varintLen <? protoIndex + len scan))
    eqn:Eb.
  2: { apply Hnone. intros Hlen Hv. apply Hvalid in Hv as (_ & _ & _ & H1 & H2 & _).
       lia. }
  destruct (forallb printable (subslice (pos + 1 + varintLen) (protoIndex + len scan) data))
    eqn:Ep.
  2: { eapply (yields_bind _ _ None).
       - eapply returns_bind; [apply returns_slice; lia|]. rewrite Ep. apply returns_ret.
       - apply Hrec. intros Hlen Hv. apply Hvalid in Hv as (_ & _ & _ & _ & _ & H3).
         congruence. }
  assert (Hlen : pos + 1 + varintLen + filenameLen = protoIndex + len scan).
  { destruct (toInt_wraps filenameLen) as [k1 Hk1].
    destruct (toInt_wraps (pos + 1 + varintLen + toInt filenameLen)) as [k2 Hk2].
    pose proof (toInt_range (pos + 1 + varintLen + toInt filenameLen)). lia. }
  assert (Hname : name_record data pos filenameLen varintLen (protoIndex + len scan)).
  { split; [done|]. split; [done|]. split; [lia|]. split; [lia|]. split; [done|done]. }
  assert (Hfound : forall pl pb, prefix_found data pos filenameLen pl pb ->
            search_result data protoIndex (pos, pl, pb)).
  { intros pl pb Hpre. right. split; [lia|]. split; [lia|]. split; [|done].
    by exists filenameLen, varintLen. }
  eapply yields_bind_yields
    with (Q := fun found => exists pl pb,
                 found = Some (pos, pl, pb) /\ prefix_found data pos filenameLen pl pb).
  2: { intros found (pl & pb & -> & Hpre). apply yields_ret. by apply Hfound. }
  eapply yields_bind; [apply returns_slice; lia|]. rewrite Ep.
  eapply yields_bind; [apply returns_debugPrintf|]. cbn zeta.
  rewrite len_subslice by lia.
  replace (protoIndex + len scan - (pos + 1 + varintLen)) with filenameLen by lia.
  eapply yields_bind_yields
    with (Q := fun r => match r with
                        | Some (start, pl, pb) =>
                            start = pos /\ prefix_found data pos filenameLen pl pb
                        | None => True
                        end).
  - destruct (pos >=? 1); [|by apply yields_ret].
    apply prefix_loop_found; [lia|lia|lia|cbn; lia].
  - intros [[[start pl] pb]|] Hr; apply yields_ret.
    + destruct Hr as [-> Hpre]. by exists pl, pb.
    + exists 0, 0. split; [done|]. by left.
Qed.

Lemma findValidStartWithLength_result data protoIndex :
  0 <= protoIndex -> protoIndex + len scan <= len data ->
  yields (findValidStartWithLength data protoIndex) (search_result data protoIndex).
Proof.
  intros H0 Hl. unfold findValidStartWithLength.
  apply findValidStart_loop_result; [lia|lia|lia|lia|lia|].
  intros _ pos Hp (_ & Hlt & _). lia.
Qed.

(** X1. For a marker occurrence inside the buffer the backward search
    returns: either the start -1 with no prefix, or an offset before the
    marker that holds the tag byte 0x0a, followed by a length varint and by
    that many printable bytes, at least one, which end where the marker
    ends. *)
Theorem findValidStartWithLength_validates data protoIndex :
  0 <= protoIndex -> protoIndex + len scan <= len data ->
  yields (findValidStartWithLength data protoIndex)
    (fun r => r = (-1, 0, 0) \/ valid_start data protoIndex r.1.1).
Proof.
  intros H0 Hl.
  eapply yields_mono; [by apply findValidStartWithLength_result|].
  intros [[start pl] pb] [(-> & -> & -> & _)|(Hs0 & Hs1 & (F & w & Hn & _) & _)];
    [by left|right].
  split; [done|]. split; [done|]. by exists F, w.
Qed.

Lemma findValidStartWithLength_validates_witness :
  yields (findValidStartWithLength truncated_field_buffer 3)
    (fun r => r = (-1, 0, 0) \/ valid_start truncated_field_buffer 3 r.1.1).
Proof.
  apply (findValidStartWithLength_validates truncated_field_buffer 3).
  - lia.
  - vm_compute. discriminate.
Defined.

(** X2. The start that the backward search returns is the valid start
    nearest to the marker: no offset after it is valid, and the answer is -1
    exactly when no offset is valid at all. *)
Theorem findValidStartWithLength_nearest data protoIndex :
  0 <= protoIndex -> protoIndex + len scan <= len data -> len data < 2 ^ 63 ->
  yields (findValidStartWithLength data protoIndex)
    (fun r =>
       (r.1.1 = -1 <-> forall pos, ~ valid_start data protoIndex pos) /\
       (forall pos, valid_start data protoIndex pos -> pos <= r.1.1)).
Proof.
  intros H0 Hl Hlen.
  eapply yields_mono; [by apply findValidStartWithLength_result|].
  intros [[start pl] pb] [(-> & _ & _ & Hnone)|(Hs0 & Hs1 & (F & w & Hn & _) & Hnear)];
    cbn [fst].
  - split; [split; [auto|done]|]. intros pos Hv. destruct (Hnone Hlen pos Hv).
  - assert (Hv : valid_start data protoIndex start).
    { split; [done|]. split; [done|]. by exists F, w. }
    split; [split; [lia|]|].
    + intros H. destruct (H start Hv).
    + intros pos Hpos. destruct (Z.le_gt_cases pos start) as [|Hgt]; [done|].
      destruct (Hnear Hlen pos ltac:(lia) Hpos).
Qed.

Lemma findValidStartWithLength_nearest_witness :
  yields (findValidStartWithLength adjacent_buffer 15)
    (fun r =>
       (r.1.1 = -1 <-> forall pos, ~ valid_start adjacent_buffer 15 pos) /\
       (forall pos, valid_start adjacent_buffer 15 pos -> pos <= r.1.1)).
Proof.
  apply (findValidStartWithLength_nearest adjacent_buffer 15).
  - lia.
  - vm_compute. discriminate.
  - vm_compute. reflexivity.
Defined.

(** X3. The length prefix that the backward search reports with a start is
    either none (0, 0) or a varint of one to four bytes that ends exactly
    where the start begins, whose value is the reported length, at least the
    length of the file name plus fifty, and reaches no further than the end
    of the buffer. *)
Theorem findValidStartWithLength_prefix data protoIndex :
  0 <= protoIndex -> protoIndex + len scan <= len data -> len data < 2 ^ 62 ->
  yields (findValidStartWithLength data protoIndex)
    (fun '(start, prefixLen, prefixBytes) =>
       (prefixLen = 0 /\ prefixBytes = 0) \/
       (1 <= prefixBytes /\ prefixBytes <= 4 /\ prefixBytes <= start /\
        protowire.ConsumeVarint (drop (Z.to_nat (start - prefixBytes)) data)
        = (prefixLen, prefixBytes) /\
        (exists filenameLen varintLen,
           name_record data start filenameLen varintLen (protoIndex + len scan) /\
           filenameLen + 50 <= prefixLen) /\
        start + prefixLen <= len data)).
Proof.
  intros H0 Hl Hlen.
  eapply yields_mono; [by apply findValidStartWithLength_result|].
  intros [[start pl] pb] [(-> & -> & -> & _)|(Hs0 & Hs1 & (F & w & Hn & Hp) & _)];
    [by left|].
  destruct Hp as [Hp|(H1 & H2 & H3 & H4 & H5 & H6 & H7)]; [by left|right].
  repeat (split; [done|]). split; [by exists F, w|].
  pose proof (ConsumeVarint_width _ _ _ H4) as [Hpl _].
  assert (Hscan : len scan = 6) by done.
  rewrite toInt_id in H7; lia.
Qed.

Lemma findValidStartWithLength_prefix_witness :
  yields (findValidStartWithLength prefixed_buffer 7)
    (fun '(start, prefixLen, prefixBytes) =>
       (prefixLen = 0 /\ prefixBytes = 0) \/
       (1 <= prefixBytes /\ prefixBytes <= 4 /\ prefixBytes <= start /\
        protowire.ConsumeVarint (drop (Z.to_nat (start - prefixBytes)) prefixed_buffer)
        = (prefixLen, prefixBytes) /\
        (exists filenameLen varintLen,
           name_record prefixed_buffer start filenameLen varintLen (7 + len scan) /\
           filenameLen + 50 <= prefixLen) /\
        start + prefixLen <= len prefixed_buffer)).
Proof.
  apply (findValidStartWithLength_prefix prefixed_buffer 7).
  - lia.
  - vm_compute. discriminate.
  - vm_compute. reflexivity.
Defined.

(** The prefix of the sample is found and used. *)
Example Scan_prefixed :
  findValidStartWithLength prefixed_buffer 7 quiet = Done (4, 60, 1) quiet /\
  Scan prefixed_buffer quiet
  = Done [{| cStart := 4; cBytes := subslice 4 64 prefixed_buffer |}] quiet.
Proof. split; reflexivity. Qed.

(** ** The self-describing pass at the edges of the buffer *)

Lemma drop_len {A : Type} (l : list A) : drop (Z.to_nat (len l)) l = [].
Proof. apply drop_ge. unfold len. lia. Qed.

(** X4. [consumeBytes] returns, from every position between 0 and the
    length of the buffer, a length that is not negative and stays inside the
    buffer, error or not; from the position at the end of the buffer it
    returns the length 0 with the error of a truncated record; from a
    position outside the buffer it panics. *)
Theorem consumeBytes_within_buffer data position :
  (0 <= position -> position <= len data ->
   yields (consumeBytes data position)
     (fun r => 0 <= r.1 /\ position + r.1 <= len data)) /\
  (position = len data ->
   returns (consumeBytes data position)
     (0, Some "couldn't consume proto bytes: unexpected EOF")) /\
  (position < 0 \/ len data < position ->
   forall w, consumeBytes data position w = Panic).
Proof.
  assert (Hend : returns (consumeBytes data (len data))
                   (0, Some "couldn't consume proto bytes: unexpected EOF")).
  { apply returns_pure. intros w. unfold consumeBytes. cbn [consumeBytes_loop].
    unfold mbind, M_bind. pose proof (len_nonneg data).
    rewrite sliceFrom_run by lia. rewrite drop_len.
    change (protowire.ConsumeField []) with (Some (0, 0, -1)).
    cbn [fuelled mret M_ret]. cbn. by rewrite Z.sub_diag. }
  split; [|split].
  - intros H0 Hl. destruct (Z.eq_dec position (len data)) as [->|Hne].
    + eexists. split; [exact Hend|]. cbn. lia.
    + destruct (consumeBytes_segment data position) as (e & s & Hseg & Hrun); [lia|lia|].
      apply segment_bounds in Hseg; [|lia|lia].
      eexists. split; [apply returns_pure, Hrun|]. cbn. lia.
  - by intros ->.
  - intros Hout w. unfold consumeBytes. cbn [consumeBytes_loop].
    unfold mbind, M_bind, sliceFrom, slice.
    by replace ((0 <=? position) && (position <=? len data) && (len data <=? len data))
      with false by lia.
Qed.

Lemma consumeBytes_within_buffer_witness :
  yields (consumeBytes truncated_field_buffer 9)
    (fun r => 0 <= r.1 /\ 9 + r.1 <= len truncated_field_buffer) /\
  returns (consumeBytes truncated_field_buffer 14)
    (0, Some "couldn't consume proto bytes: unexpected EOF") /\
  consumeBytes truncated_field_buffer 15 quiet = Panic.
Proof.
  pose proof (consumeBytes_within_buffer truncated_field_buffer 9) as (H1 & _ & _).
  pose proof (consumeBytes_within_buffer truncated_field_buffer 14) as (_ & H2 & _).
  pose proof (consumeBytes_within_buffer truncated_field_buffer 15) as (_ & _ & H3).
  split; [|split].
  - apply H1; [lia|vm_compute; discriminate].
  - apply H2. reflexivity.
  - apply H3. right. vm_compute. reflexivity.
Defined.

(** ** What every candidate begins with *)

Lemma varintAt_take steps i v b k m n :
  0 <= i -> protowire.varintAt steps i v b = (m, n) -> 0 <= n -> (Z.to_nat (n - i) <= k)%nat ->
  protowire.varintAt steps i v (take k b) = (m, n).
Proof.
  revert i v b k. induction steps as [|steps IH]; intros i v b k Hi; cbn.
  - intros [= <- <-]. unfold protowire.errCodeOverflow. lia.
  - destruct b as [|c b]; [intros [= <- <-]; unfold protowire.errCodeTruncated; lia|].
    destruct (u8 c <? _) eqn:Ec.
    + intros [= <- <-] _ Hk. destruct k as [|k]; [lia|]. cbn. by rewrite Ec.
    + intros E Hn Hk.
      pose proof (varintAt_width steps (i + 1)
                    (v + Z.shiftl (u8 c) (7 * i) - Z.shiftl 128 (7 * i)) b ltac:(lia)) as Hw.
      rewrite E in Hw. cbn in Hw.
      unfold protowire.errCodeTruncated, protowire.errCodeOverflow in Hw.
      destruct k as [|k]; [lia|]. cbn. rewrite Ec. apply IH; [lia|done|done|lia].
Qed.

Lemma ConsumeVarint_take b k v n :
  protowire.ConsumeVarint b = (v, n) -> 0 <= n -> n <= Z.of_nat k ->
  protowire.ConsumeVarint (take k b) = (v, n).
Proof.
  intros E H0 Hk. unfold protowire.ConsumeVarint in *.
  apply varintAt_take; [lia|done|done|lia].
Qed.

Lemma varintAt_width_max steps i v b :
  0 <= i -> snd (protowire.varintAt steps i v b) <= i + Z.of_nat steps.
Proof.
  revert i v b. induction steps as [|steps IH]; intros i v b Hi; cbn [protowire.varintAt].
  - cbn. unfold protowire.errCodeOverflow. lia.
  - destruct b as [|c b]; [cbn; unfold protowire.errCodeTruncated; lia|].
    cbn zeta. destruct (u8 c <? _); [cbn; lia|].
    etransitivity; [apply IH; lia|lia].
Qed.

Lemma ConsumeVarint_width_max b v n : protowire.ConsumeVarint b = (v, n) -> n <= 10.
Proof.
  intros E. pose proof (varintAt_width_max 10 0 0 b ltac:(lia)) as H.
  unfold protowire.ConsumeVarint in E. rewrite E in H. cbn in H. lia.
Qed.

Lemma subslice_subslice {A : Type} (l : list A) a n lo hi :
  0 <= a -> 0 <= lo -> lo <= hi -> hi <= n - a ->
  subslice lo hi (subslice a n l) = subslice (a + lo) (a + hi) l.
Proof.
  intros Ha Hlo Hhi Hn. unfold subslice.
  rewrite skipn_firstn_comm, take_take, drop_drop.
  f_equal; [lia|]. f_equal. lia.
Qed.

(** A window that starts at a validated start and reaches past the name
    begins with the name. *)
Lemma window_begins_with_name data index start filenameLen varintLen length :
  0 <= start -> start < index ->
  name_record data start filenameLen varintLen (index + len scan) ->
  occurs_at scan data (Z.to_nat index) ->
  1 + varintLen + filenameLen <= length -> start + length <= len data ->
  begins_with_name (subslice start (start + length) data).
Proof.
  intros Hs0 Hs1 (Hb & Ev & Hw & Hlt & Heq & Hp) Hocc Hlen Hend.
  assert (Hscan : len scan = 6) by done.
  exists filenameLen, varintLen. split; [|split].
  - split; [|split; [|split; [done|split; [lia|split; [lia|]]]]].
    + unfold subslice. rewrite lookup_take_lt by lia. rewrite lookup_drop.
      by replace (Z.to_nat start + Z.to_nat 0)%nat with (Z.to_nat start) by lia.
    + unfold subslice. rewrite skipn_firstn_comm, drop_drop.
      replace (Z.to_nat start + Z.to_nat (0 + 1))%nat with (Z.to_nat (start + 1)) by lia.
      apply ConsumeVarint_take; [done|lia|lia].
    + rewrite subslice_subslice by lia.
      replace (start + (0 + 1 + varintLen)) with (start + 1 + varintLen) by lia.
      by replace (start + (1 + varintLen + filenameLen)) with (index + len scan) by lia.
  - rewrite len_subslice by lia. lia.
  - rewrite subslice_subslice by lia. unfold occurs_at in Hocc. unfold subslice.
    rewrite <- Hocc at 3. f_equal; [unfold len in *; lia|]. f_equal. lia.
Qed.

Lemma step_spec_candidate data totalOffset s :
  step_spec data totalOffset s ->
  match s with Emit c _ _ => begins_with_name (cBytes c) | _ => True end.
Proof.
  unfold step_spec.
  destruct (Index_range data scan) as [Hi|[Hi1 Hi2]].
  { rewrite Hi. by intros ->. }
  assert (Hocc : occurs_at scan data (Z.to_nat (bytes.Index data scan)))
    by (apply Index_occurs; lia).
  set (index := bytes.Index data scan) in *.
  assert (Hscan : len scan = 6) by done.
  replace (index =? -1) with false by lia.
  intros (start & pl & pb & Hfind & Hs).
  destruct (findValidStartWithLength_result data index) as (r & Hr & Hres); [lia|lia|].
  pose proof (returns_inj _ _ _ Hr Hfind) as ->. clear Hr.
  destruct (start =? -1) eqn:Es; [by subst s|].
  destruct Hs as (Hs0 & Hs1 & Hs).
  destruct Hres as [(-> & _)|(_ & _ & (F & w & Hn & Hp) & _)]; [done|].
  pose proof Hn as (Hb & Ev & Hw & Hlt & Heq & _).
  pose proof (ConsumeVarint_width_max _ _ _ Ev) as Hw10.
  destruct ((pl >? 0) && (start + pl <=? len data)) eqn:Epl.
  { subst s. cbn [appended cBytes].
    apply (window_begins_with_name data index start F w); [done|done|done|done| |lia].
    destruct Hp as [[-> _]|(_ & _ & _ & _ & H5 & _)]; lia. }
  destruct Hs as (e & r & Hseg & He1 & He2 & _ & Hs).
  destruct (stop_error r); subst s; [done|]. cbn [appended cBytes].
  replace (start + (e - start)) with e by lia.
  replace e with (start + (e - start)) at 1 by lia.
  apply (window_begins_with_name data index start F w); [done|done|done|done| |lia].
  assert (Hf : protowire.ConsumeField (drop (Z.to_nat start) data)
               = Some (1, protowire.BytesType, 1 + w + F))
    by (apply ConsumeField_at_start; [done|done|done|lia|lia]).
  pose proof (segment_first_record data start false e r _ _ _ Hs0 ltac:(lia) Hf
                ltac:(lia) (fun _ => eq_refl) Hseg). lia.
Qed.

Lemma Scan_loop_candidates buf fuel off results :
  0 <= off -> off <= len buf ->
  (length (drop (Z.to_nat off) buf) < fuel)%nat ->
  Forall (fun c => begins_with_name (cBytes c)) results ->
  yields (Scan_loop fuel (drop (Z.to_nat off) buf) off results)
    (Forall (fun c => begins_with_name (cBytes c))).
Proof.
  revert off results. induction fuel as [|fuel IH]; intros off results H0 H1 Hf Hres; [lia|].
  cbn [Scan_loop].
  destruct (ScanStep_spec (drop (Z.to_nat off) buf) off) as (s & Hret & Hspec).
  pose proof (step_spec_candidate _ _ _ Hspec) as Hcand.
  apply step_spec_advances in Hspec; [|done|done].
  eapply yields_bind; [exact Hret|].
  rewrite length_drop in Hf.
  destruct s as [|data' off'|c data' off']; cbn [advances] in Hspec.
  - by apply yields_ret.
  - destruct Hspec as (Ha & Hb & ->).
    apply IH; [lia|lia| |done]. rewrite length_drop. unfold len in *. lia.
  - destruct Hspec as (Ha & Hb & Hc & Hd & He & ->).
    apply IH; [lia|lia| |]. 
    + rewrite length_drop. unfold len in *. lia.
    + apply Forall_app. split; [done|]. by apply Forall_singleton.
Qed.

(** X5. Every candidate that [Scan] returns begins with a record of field
    1: the tag byte 0x0a, a length varint, and a file name of that many
    printable bytes which lies inside the candidate and ends with the marker
    [.proto]. *)
Theorem Scan_candidates_begin_with_name data :
  yields (Scan data) (Forall (fun c => begins_with_name (cBytes c))).
Proof.
  unfold Scan.
  apply (Scan_loop_candidates data (S (length data)) 0 []).
  - lia.
  - apply len_nonneg.
  - rewrite length_drop. lia.
  - constructor.
Qed.

(** ** A buffer that holds one descriptor *)

Lemma subslice_all {A : Type} (l : list A) : subslice 0 (len l) l = l.
Proof. unfold subslice, len. cbn [Z.to_nat drop]. apply take_ge. lia. Qed.

(** X6. A buffer that is one serialized descriptor comes back whole: when
    the record at offset 0 is the valid start for the first marker
    occurrence, no later offset is, and consuming records from offset 0
    reaches the end of the buffer without error and without a second record
    of field 1, [Scan] returns the buffer itself as its only candidate. *)
Theorem Scan_lone_descriptor data s :
  len data < 2 ^ 63 ->
  valid_start data (bytes.Index data scan) 0 ->
  (forall pos, 0 < pos -> ~ valid_start data (bytes.Index data scan) pos) ->
  segment data 0 false (len data) s -> stop_error s = None ->
  returns (Scan data) [{| cStart := 0; cBytes := data |}].
Proof.
  intros Hlen Hv0 Hlater Hseg Herr.
  destruct (ScanStep_spec data 0) as (st & Hret & Hspec).
  assert (Hst : st = Emit {| cStart := 0; cBytes := data |} [] (len data)).
  { unfold step_spec in Hspec.
    destruct (Index_range data scan) as [Hi|[Hi1 Hi2]].
    { destruct Hv0 as (_ & Hlt & _). lia. }
    set (index := bytes.Index data scan) in *.
    assert (Hscan : len scan = 6) by done.
    replace (index =? -1) with false in Hspec by lia.
    destruct Hspec as (start & pl & pb & Hfind & Hs).
    destruct (findValidStartWithLength_result data index) as (r & Hr & Hres); [lia|lia|].
    pose proof (returns_inj _ _ _ Hr Hfind) as ->. clear Hr.
    destruct Hres as [(_ & _ & _ & Hnone)|(Hs0 & Hs1 & (F & w & Hn & Hp) & Hnear)].
    { destruct (Hnone Hlen 0 Hv0). }
    assert (start = 0) as ->.
    { destruct (Z.eq_dec start 0) as [|Hne]; [done|].
      destruct (Hlater start ltac:(lia)). split; [done|]. split; [done|]. by exists F, w. }
    cbn [Z.eqb] in Hs. destruct Hs as (_ & _ & Hs).
    assert (pl = 0) as ->.
    { destruct Hp as [[-> _]|(H1 & _ & H3 & _)]; [done|lia]. }
    cbn [Z.gtb Z.compare andb] in Hs.
    destruct Hs as (e & r & Hseg' & _ & _ & _ & Hs).
    destruct (segment_functional _ _ _ _ _ _ _ Hseg Hseg') as [<- <-].
    rewrite Herr in Hs. subst st. unfold appended.
    rewrite !Z.add_0_l, !Z.sub_0_r, subslice_all, drop_len. done. }
  subst st. unfold Scan.
  assert (Hne : exists k, length data = S k).
  { destruct data as [|c data]; [|by eexists].
    destruct Hv0 as (_ & Hlt & _). by vm_compute in Hlt. }
  destruct Hne as [k ->]. cbn [Scan_loop].
  eapply returns_bind; [exact Hret|]. cbn match.
  eapply (returns_bind _ _ Break); [exact (returns_ret Break)|apply returns_ret].
Qed.

Lemma Scan_lone_descriptor_witness :
  returns (Scan lone_buffer) [{| cStart := 0; cBytes := lone_buffer |}].
Proof.
  assert (Hf1 : protowire.ConsumeField (drop (Z.to_nat 0) lone_buffer)
                = Some (1, 2, 9)) by reflexivity.
  assert (Hf2 : protowire.ConsumeField (drop (Z.to_nat (0 + 9)) lone_buffer)
                = Some (2, 2, 3)) by reflexivity.
  apply (Scan_lone_descriptor lone_buffer EndOfBuffer).
  - vm_compute. reflexivity.
  - split; [lia|]. split; [vm_compute; reflexivity|]. exists 7, 1.
    repeat split; try reflexivity; vm_compute; congruence.
  - intros pos Hpos (_ & Hlt & F & w & Hb & _).
    change (bytes.Index lone_buffer scan) with 3 in Hlt.
    assert (pos = 1 \/ pos = 2) as [-> | ->] by lia; discriminate Hb.
  - eapply segment_record.
    { eapply record_consumed; [reflexivity|exact Hf1|lia|done]. }
    eapply segment_record.
    { eapply record_consumed; [reflexivity|exact Hf2|lia|discriminate]. }
    apply segment_stop, stops_end. vm_compute. discriminate.
  - reflexivity.
Defined.

(** ** The renderer *)

Lemma append_assoc (a b c : string) : (a +:+ b) +:+ c = a +:+ (b +:+ c).
Proof.
  induction a as [|x a IH]; [reflexivity|].
  change (String x ((a +:+ b) +:+ c) = String x (a +:+ (b +:+ c))). by rewrite IH.
Qed.

Lemma append_empty_r (a : string) : a +:+ "" = a.
Proof.
  induction a as [|x a IH]; [reflexivity|].
  change (String x (a +:+ "") = String x a). by rewrite IH.
Qed.

Lemma append_append s t pd : append t (append s pd) = append (s +:+ t) pd.
Proof. unfold append, set_builder. cbn. by rewrite append_assoc. Qed.

Lemma append_empty pd : append "" pd = pd.
Proof. destruct pd. unfold append, set_builder. cbn. by rewrite append_empty_r. Qed.

Lemma write_run s pd : write s pd = Some (tt, append s pd).
Proof. done. Qed.

Lemma Repeat_spaces n : 0 <= n -> strings.Repeat "  " n = Some (spaces n).
Proof. intros H. unfold strings.Repeat. by replace (n <? 0) with false by lia. Qed.

Lemma writeIndented_run s pd :
  0 <= indendation pd ->
  writeIndented s pd = Some (tt, append (spaces (indendation pd) +:+ s) pd).
Proof.
  intros H. unfold writeIndented. rewrite Repeat_spaces by done.
  unfold mbind, R_bind. rewrite !write_run. by rewrite append_append.
Qed.

Lemma DecodeRuneInString_size s r size :
  utf8.DecodeRuneInString s = (r, size) -> s <> [] ->
  1 <= size /\ size <= len s /\
  (2 <= size ->
   forall j c, (1 <= j)%nat -> Z.of_nat j < size -> s !! j = Some c -> 128 <= utf8.byte c) /\
  (2 <= size -> exists c, s !! 0%nat = Some c /\ 128 <= utf8.byte c).
Proof.
  unfold utf8.DecodeRuneInString, utf8.RuneSelf, utf8.notContinuation, utf8.size,
    utf8.acceptRange.
  destruct s as [|c0 s1]; [done|]. intros H _.
  rewrite !len_cons in *. pose proof (len_nonneg s1).
  repeat match type of H with
         | context [if ?b then _ else _] => destruct b eqn:?
         | context [match ?l with [] => _ | _ :: _ => _ end] =>
             destruct l; rewrite ?len_cons in *
         | (_, _) = (_, _) => injection H as <- <-
         end;
    try (split; [lia|split; [try pose proof (len_nonneg s3); try pose proof (len_nonneg l); lia|split; [lia|lia]]]).
  all: cbn [fst snd] in *.
  all: (split; [lia|]); (split; [repeat match goal with |- context [len ?l] => 
          lazymatch goal with H : 0 <= len l |- _ => fail | _ => pose proof (len_nonneg l) end end; lia|]).
  all: split; [|intros _; exists c0; split; [done|lia]].
  all: intros _ j x Hj1 Hj2 Hx; destruct j as [|[|[|[|j]]]]; cbn in Hx;
    first [lia | injection Hx as <-; lia | done].
Qed.

Lemma runeStart_loop_le fuel s start lim : utf8.runeStart_loop fuel s start lim <= start.
Proof.
  revert start. induction fuel as [|fuel IH]; intros start; cbn; [lia|].
  destruct (start >=? lim); [|lia].
  destruct (s !! Z.to_nat start); [|lia].
  destruct (utf8.RuneStart _); [lia|]. specialize (IH (start - 1)). lia.
Qed.

Lemma DecodeLastRuneInString_size u r size :
  utf8.DecodeLastRuneInString u = (r, size) -> u <> [] ->
  1 <= size /\ size <= len u /\
  (forall c, u !! Z.to_nat (len u - size) = Some c -> utf8.byte c < 128 -> r = utf8.byte c).
Proof.
  intros H Hne. unfold utf8.DecodeLastRuneInString in H.
  assert (Hl : 0 < len u) by (destruct u; [done|rewrite len_cons; pose proof (len_nonneg u); lia]).
  replace (len u =? 0) with false in H by lia.
  destruct (u !! Z.to_nat (len u - 1)) as [c0|] eqn:Ec0.
  2: { apply lookup_ge_None in Ec0. unfold len in *. lia. }
  unfold utf8.RuneSelf, utf8.UTFMax in H.
  destruct (utf8.byte c0 <? 128) eqn:Eb.
  { injection H as <- <-. split; [lia|]. split; [lia|]. intros c Hc _. congruence. }
  set (lim := if len u - 4 <? 0 then 0 else len u - 4) in H.
  pose proof (runeStart_loop_le 4 u (len u - 1 - 1) lim) as Hle.
  set (start0 := utf8.runeStart_loop 4 u (len u - 1 - 1) lim) in *.
  set (start := if start0 <? 0 then 0 else start0) in H.
  assert (Hs : 0 <= start /\ start <= len u - 1) by (unfold start; destruct (start0 <? 0) eqn:?; lia).
  destruct (utf8.DecodeRuneInString (drop (Z.to_nat start) u)) as [r' size'] eqn:Ed.
  assert (Hdne : drop (Z.to_nat start) u <> []).
  { intros E. apply (f_equal length) in E. rewrite length_drop in E. cbn in E.
    unfold len in *. lia. }
  pose proof (DecodeRuneInString_size _ _ _ Ed Hdne) as (Hd1 & Hd2 & _ & Hd4).
  destruct (start + size' =? len u) eqn:Ee; cbn [negb] in H; injection H as <- <-.
  - split; [lia|]. split; [lia|]. intros c Hc Hlt.
    replace (len u - size') with start in Hc by lia.
    destruct (Z.le_gt_cases 2 size') as [H2|H2].
    + destruct (Hd4 H2) as (c' & Hc' & Hb'). rewrite lookup_drop in Hc'.
      rewrite Nat.add_0_r in Hc'. rewrite Hc in Hc'. injection Hc' as <-. lia.
    + assert (start = len u - 1) as -> by lia. rewrite Ec0 in Hc. injection Hc as <-. lia.
  - split; [lia|]. split; [lia|]. intros c Hc Hlt. rewrite Ec0 in Hc.
    injection Hc as <-. lia.
Qed.

Lemma lastIndexFunc_loop_found fuel s i0 f i :
  0 <= i0 -> i0 <= len s ->
  strings.lastIndexFunc_loop fuel s i0 f false = Some i -> 0 <= i ->
  exists e r size,
    0 < e /\ e <= len s /\ i = e - size /\ f r = false /\
    utf8.DecodeLastRuneInString (take (Z.to_nat e) s) = (r, size).
Proof.
  revert i0. induction fuel as [|fuel IH]; intros i0 H0 Hl; [done|].
  cbn [strings.lastIndexFunc_loop]. destruct (i0 >? 0) eqn:Eg; [|intros [= <-]; lia].
  destruct (utf8.DecodeLastRuneInString (take (Z.to_nat i0) s)) as [r size] eqn:Ed.
  assert (Hne : take (Z.to_nat i0) s <> []).
  { intros E. apply (f_equal length) in E. rewrite length_take in E. cbn in E.
    unfold len in *. lia. }
  pose proof (DecodeLastRuneInString_size _ _ _ Ed Hne) as (H1 & H2 & _).
  assert (Hlt : len (take (Z.to_nat i0) s) = i0).
  { unfold len in *. rewrite length_take. lia. }
  rewrite Hlt in H2.
  destruct (Bool.eqb (f r) false) eqn:Ef.
  - intros [= <-] _. exists i0, r, size. apply eqb_prop in Ef.
    repeat split; try done; lia.
  - intros H Hi. apply (IH (i0 - size)); [lia|lia|done|done].
Qed.

Lemma lastIndexFunc_loop_total fuel s i0 f truth :
  0 <= i0 -> i0 <= len s -> (Z.to_nat i0 < fuel)%nat ->
  is_Some (strings.lastIndexFunc_loop fuel s i0 f truth).
Proof.
  revert i0. induction fuel as [|fuel IH]; intros i0 H0 Hl Hf; [lia|].
  cbn [strings.lastIndexFunc_loop]. destruct (i0 >? 0) eqn:Eg; [|done].
  destruct (utf8.DecodeLastRuneInString (take (Z.to_nat i0) s)) as [r size] eqn:Ed.
  assert (Hne : take (Z.to_nat i0) s <> []).
  { intros E. apply (f_equal length) in E. rewrite length_take in E. cbn in E.
    unfold len in *. lia. }
  pose proof (DecodeLastRuneInString_size _ _ _ Ed Hne) as (H1 & H2 & _).
  assert (Hlt : len (take (Z.to_nat i0) s) = i0).
  { unfold len in *. rewrite length_take. lia. }
  rewrite Hlt in H2.
  destruct (Bool.eqb (f r) truth); [done|]. apply IH; lia.
Qed.

Lemma indexFunc_loop_total fuel s i0 f truth :
  0 <= i0 -> (Z.to_nat (len s - i0) < fuel)%nat ->
  is_Some (strings.indexFunc_loop fuel s i0 f truth).
Proof.
  revert i0. induction fuel as [|fuel IH]; intros i0 H0 Hf; [lia|].
  cbn [strings.indexFunc_loop]. destruct (i0 <? len s) eqn:Eg; [|done].
  destruct (utf8.DecodeRuneInString (drop (Z.to_nat i0) s)) as [r size] eqn:Ed.
  assert (Hne : drop (Z.to_nat i0) s <> []).
  { intros E. apply (f_equal length) in E. rewrite length_drop in E. cbn in E.
    unfold len in *. lia. }
  pose proof (DecodeRuneInString_size _ _ _ Ed Hne) as (H1 & _).
  destruct (Bool.eqb (f r) truth); [done|]. apply IH; lia.
Qed.

(** The byte behind which [TrimRightFunc] cuts is not a line feed. *)
Lemma TrimRightFunc_last s :
  last (strings.TrimRightFunc s unicode.IsSpace) <> Some (ascii_of_nat 10).
Proof.
  unfold strings.TrimRightFunc, strings.lastIndexFunc.
  destruct (lastIndexFunc_loop_total (S (length s)) s (len s) unicode.IsSpace false)
    as [i Ei]; [apply len_nonneg|lia|unfold len; lia|].
  rewrite Ei. cbn [default from_option]. unfold id. cbv zeta.
  destruct (Z.le_gt_cases 0 i) as [Hi|Hi].
  2: { replace (i >=? 0) with false by lia. cbn [andb].
       replace (Z.to_nat (i + 1)) with 0%nat by lia. by rewrite take_0. }
  destruct (lastIndexFunc_loop_found (S (length s)) s (len s) unicode.IsSpace i
              (len_nonneg s) (Z.le_refl _) Ei Hi)
    as (e & r & size & He0 & He1 & -> & Hf & Hd).
  assert (Hne : take (Z.to_nat e) s <> []).
  { intros E. apply (f_equal length) in E. rewrite length_take in E. cbn in E.
    unfold len in *. lia. }
  pose proof (DecodeLastRuneInString_size _ _ _ Hd Hne) as (H1 & H2 & H3).
  assert (Hlt : len (take (Z.to_nat e) s) = e).
  { unfold len in *. rewrite length_take. lia. }
  rewrite Hlt in *.
  replace (e - size >=? 0) with true by lia. cbn [andb].
  destruct (s !! Z.to_nat (e - size)) as [c|] eqn:Ec.
  2: { apply lookup_ge_None in Ec. unfold len in *. lia. }
  assert (Hlast : forall n, (0 < n)%nat -> (n <= length s)%nat ->
            last (take n s) = s !! (n - 1)%nat).
  { intros n Hn0 Hn. rewrite last_lookup, length_take.
    replace (Init.Nat.pred (n `min` length s)) with (n - 1)%nat by lia.
    apply lookup_take_lt. lia. }
  unfold utf8.RuneSelf. destruct (utf8.byte c >=? 128) eqn:Eb.
  - destruct (utf8.DecodeRuneInString (drop (Z.to_nat (e - size)) s)) as [r' wid] eqn:Ed'.
    cbn [snd].
    assert (Hdne : drop (Z.to_nat (e - size)) s <> []).
    { intros E. apply (f_equal length) in E. rewrite length_drop in E. cbn in E.
      unfold len in *. lia. }
    pose proof (DecodeRuneInString_size _ _ _ Ed' Hdne) as (Hw1 & Hw2 & Hw3 & _).
    rewrite len_drop in Hw2 by lia.
    rewrite Hlast by (unfold len in *; lia).
    destruct (Z.le_gt_cases 2 wid) as [Hw|Hw].
    + intros Hx.
      assert (Hx' : 128 <= utf8.byte (ascii_of_nat 10)).
      { apply (Hw3 Hw (Z.to_nat (wid - 1)) (ascii_of_nat 10)); [lia|lia|].
        rewrite lookup_drop. rewrite <- Hx. f_equal. lia. }
      by vm_compute in Hx'.
    + replace (Z.to_nat (e - size + wid) - 1)%nat with (Z.to_nat (e - size)) by lia.
      rewrite Ec. intros [= ->]. by vm_compute in Eb.
  - rewrite Hlast by (unfold len in *; lia).
    replace (Z.to_nat (e - size + 1) - 1)%nat with (Z.to_nat (e - size)) by lia.
    rewrite Ec. intros [= ->].
    assert (r = utf8.byte (ascii_of_nat 10)).
    { apply H3; [|by vm_compute]. rewrite lookup_take_lt by lia. exact Ec. }
    subst r. by vm_compute in Hf.
Qed.

Lemma TrimSpace_stop_last r :
  last (strings.TrimSpace_stop r) <> Some (ascii_of_nat 10).
Proof.
  induction r as [|c r IH]; cbn [strings.TrimSpace_stop]; [done|].
  destruct (utf8.byte c >=? utf8.RuneSelf); [apply TrimRightFunc_last|].
  destruct (strings.asciiSpace c) eqn:Ec; [done|].
  cbn [rev]. rewrite last_snoc. intros [= ->]. by vm_compute in Ec.
Qed.

Lemma TrimSpace_start_last s :
  last (strings.TrimSpace_start s) <> Some (ascii_of_nat 10).
Proof.
  induction s as [|c s IH]; cbn [strings.TrimSpace_start]; [done|].
  destruct (utf8.byte c >=? utf8.RuneSelf); [apply TrimRightFunc_last|].
  destruct (strings.asciiSpace c); [done|]. apply TrimSpace_stop_last.
Qed.

Lemma HasSuffix_LF_last l :
  last l <> Some (ascii_of_nat 10) ->
  strings.HasSuffix (string_of_list_ascii l) strings.LF = false.
Proof.
  induction l as [|c l IH]; [done|]. intros Hl.
  cbn [string_of_list_ascii strings.HasSuffix]. unfold strings.LF at 1.
  destruct (String.eqb_spec (String c (string_of_list_ascii l))
              (String (ascii_of_nat 10) "")) as [[= -> E]|_].
  - destruct l; [by destruct Hl|discriminate E].
  - destruct l as [|c' l]; [done|]. apply IH. by rewrite last_cons_cons in Hl.
Qed.

Lemma TrimSpace_no_LF s : strings.HasSuffix (strings.TrimSpace s) strings.LF = false.
Proof. apply HasSuffix_LF_last, TrimSpace_start_last. Qed.

Lemma TrimSpace_TrimSuffix s :
  strings.TrimSuffix (strings.TrimSpace s) strings.LF = strings.TrimSpace s.
Proof.
  unfold strings.TrimSuffix. by rewrite TrimSpace_no_LF.
Qed.

Lemma writeTrailingComment_run path pd :
  writeTrailingComment path pd
  = Some (tt, append (trailing_text (comments pd !! pathKey path)) pd).
Proof.
  unfold writeTrailingComment, getComments, trailing_text, mbind, R_bind.
  destruct (comments pd !! pathKey path) as [info|]; [|by rewrite append_empty].
  destruct (String.eqb_spec (TrailingComments info) "") as [E|E].
  { rewrite E. cbn. by rewrite append_empty. }
  cbn zeta. rewrite TrimSpace_TrimSuffix.
  destruct (String.eqb (strings.TrimSpace (TrailingComments info)) ""); cbn [negb orb];
    [by rewrite append_empty|].
  destruct (strings.Contains _ strings.LF); cbn [negb]; [by rewrite append_empty|].
  rewrite !write_run. by rewrite append_append.
Qed.

Lemma wrap32_id z : int32 z -> wrap32 z = z.
Proof. unfold int32, wrap32. intros [H1 H2]. rewrite Z.mod_small; lia. Qed.

Ltac normalize_text :=
  rewrite ?write_run, ?append_append, ?append_assoc, ?append_empty, ?append_empty_r.

(** The statements after the declaration, on an array variable of its
    own: the bounds are put in order, then displayed. *)
Lemma writeRange_run lower upperExclusive pd :
  int32 lower -> int32 upperExclusive -> - 2 ^ 31 < Z.max lower upperExclusive ->
  writeRange (OwnArray (lower, upperExclusive)) pd
  = Some (tt, append (reserved_display (Z.min lower upperExclusive)
                                       (Z.max lower upperExclusive) +:+
                      ";" +:+ strings.LF) pd).
Proof.
  intros [Hl1 Hl2] [Hu1 Hu2] Hmax.
  unfold writeRange. cbn [index2 setIndex2 fst snd]. unfold mbind, R_bind.
  cbn [mret R_ret]. unfold reserved_display.
  destruct (lower >? upperExclusive) eqn:Eswap; cbn [fst snd mret R_ret index2 setIndex2].
  - rewrite Z.min_r, Z.max_l by lia.
    rewrite wrap32_id by (unfold int32; lia).
    destruct (upperExclusive =? lower - 1) eqn:E1.
    + replace (lower =? upperExclusive + 1) with true by lia. by normalize_text.
    + replace (lower =? upperExclusive + 1) with false by lia.
      normalize_text. destruct (lower - 1 =? protowire.MaxValidNumber); by normalize_text.
  - rewrite Z.min_l, Z.max_r in * by lia.
    rewrite wrap32_id by (unfold int32; lia).
    destruct (lower =? upperExclusive - 1) eqn:E1.
    + replace (upperExclusive =? lower + 1) with true by lia. by normalize_text.
    + replace (upperExclusive =? lower + 1) with false by lia.
      normalize_text.
      destruct (upperExclusive - 1 =? protowire.MaxValidNumber); by normalize_text.
Qed.

Lemma writeReservedRange_run ref message i lower upperExclusive pd :
  messageAt (dMessages (descriptor pd)) ref = Some message ->
  mReservedRanges message !! i = Some (lower, upperExclusive) ->
  0 <= indendation pd ->
  int32 lower -> int32 upperExclusive -> - 2 ^ 31 < Z.max lower upperExclusive ->
  writeReservedRange ref i pd
  = Some (tt, append (spaces (indendation pd) +:+ "reserved " +:+
                      reserved_display (Z.min lower upperExclusive)
                                       (Z.max lower upperExclusive) +:+
                      ";" +:+ strings.LF) pd).
Proof.
  intros Hm Hi Hind Hl Hu Hmax.
  unfold writeReservedRange, FieldRanges_Get, messageOf, Get, mbind, R_bind.
  rewrite writeIndented_run by done.
  change (descriptor (append _ pd)) with (descriptor pd). rewrite Hm, Hi.
  cbn [mret R_ret]. rewrite writeRange_run by done. by normalize_text.
Qed.

(** C3. A reserved range stored as the half-open [[lower, upperExclusive)]
    is rendered, behind the indentation, as [reserved lower;] when it has
    exactly one member, and otherwise as [reserved lower to upper-1;], where
    [upper-1] is written [max] exactly when it is the largest valid field
    number. *)
Theorem reserved_range_display ref message i lower upperExclusive pd :
  messageAt (dMessages (descriptor pd)) ref = Some message ->
  mReservedRanges message !! i = Some (lower, upperExclusive) ->
  0 <= indendation pd ->
  int32 lower -> int32 upperExclusive ->
  lower <= upperExclusive -> - 2 ^ 31 < upperExclusive ->
  writeReservedRange ref i pd
  = Some (tt, append (spaces (indendation pd) +:+ "reserved " +:+
                      reserved_display lower upperExclusive +:+
                      ";" +:+ strings.LF) pd) /\
  (upperExclusive = lower + 1 ->
   reserved_display lower upperExclusive = strconv.Itoa lower) /\
  (upperExclusive <> lower + 1 -> upperExclusive - 1 = protowire.MaxValidNumber ->
   reserved_display lower upperExclusive = strconv.Itoa lower +:+ " to max") /\
  (upperExclusive <> lower + 1 -> upperExclusive - 1 <> protowire.MaxValidNumber ->
   reserved_display lower upperExclusive
   = strconv.Itoa lower +:+ " to " +:+ strconv.Itoa (upperExclusive - 1)).
Proof.
  intros Hm Hi Hind Hl Hu Hle Hmin. split; [|split; [|split]].
  - rewrite (writeReservedRange_run ref message i lower upperExclusive);
      [|done|done|done|done|done|lia].
    by rewrite Z.min_l, Z.max_r by lia.
  - intros ->. unfold reserved_display. by rewrite Z.eqb_refl.
  - intros Hne Hmax. unfold reserved_display.
    replace (upperExclusive =? lower + 1) with false by lia. by rewrite Hmax.
  - intros Hne Hmax. unfold reserved_display.
    replace (upperExclusive =? lower + 1) with false by lia.
    by replace (upperExclusive - 1 =? protowire.MaxValidNumber) with false by lia.
Qed.

Lemma indendation_append s pd : indendation (append s pd) = indendation pd.
Proof. done. Qed.

Lemma comments_append s pd : comments (append s pd) = comments pd.
Proof. done. Qed.

Lemma descriptor_append s pd : descriptor (append s pd) = descriptor pd.
Proof. done. Qed.

Lemma each_run {A : Type} (body : Z -> A -> R unit) (text : Z -> A -> string)
    (Q : ProtoDefinition -> Prop) :
  (forall s pd, Q pd -> Q (append s pd)) ->
  (forall i x pd, Q pd -> body i x pd = Some (tt, append (text i x) pd)) ->
  forall l i pd, Q pd -> each body i l pd = Some (tt, append (texts text i l) pd).
Proof.
  intros HQ Hbody. induction l as [|x l IH]; intros i pd Hpd; cbn [each texts].
  - by rewrite append_empty.
  - unfold mbind, R_bind. rewrite Hbody by done. rewrite IH by auto.
    by rewrite append_append.
Qed.

Lemma writeComment_run comment pd :
  0 <= indendation pd ->
  writeComment comment pd = Some (tt, append (comment_text (indendation pd) comment) pd).
Proof.
  intros Hind. unfold writeComment, comment_text.
  destruct (String.eqb comment ""); [by rewrite append_empty|]. cbn zeta.
  apply (each_run _ _ (fun pd' => indendation pd' = indendation pd)); [done| |done].
  intros _ line pd' Hpd'. unfold mbind, R_bind.
  rewrite writeIndented_run by lia. rewrite Hpd'. by normalize_text.
Qed.

Lemma writeLeadingComments_run path pd :
  0 <= indendation pd ->
  writeLeadingComments path pd
  = Some (tt, append (leading_text (indendation pd) (comments pd !! pathKey path)) pd).
Proof.
  intros Hind. unfold writeLeadingComments, getComments, leading_text, mbind, R_bind.
  destruct (comments pd !! pathKey path) as [info|]; [|by rewrite append_empty].
  rewrite (each_run _ (fun _ c => comment_text (indendation pd) c +:+ strings.LF)
             (fun pd' => indendation pd' = indendation pd)); [|done| |done].
  2: { intros _ c pd' Hpd'. unfold mbind, R_bind.
       rewrite writeComment_run by lia. rewrite Hpd'. by normalize_text. }
  destruct (String.eqb_spec (LeadingComments info) "") as [E|E]; cbn [negb].
  - rewrite E. unfold comment_text. cbn [String.eqb]. by normalize_text.
  - rewrite writeComment_run by done. by normalize_text.
Qed.

Lemma writeType_run field pd : writeType field pd = Some (tt, append (type_text field) pd).
Proof.
  destruct field as [name number opt card kind msg enum key value hasdef def defenum inoneof].
  unfold type_text. destruct kind; cbn; unfold mbind, R_bind; by normalize_text.
Qed.

Lemma writeFieldWithPath_run field msgPath fieldIdx pd :
  0 <= indendation pd ->
  writeFieldWithPath field msgPath fieldIdx pd
  = Some (tt, append (field_text pd field msgPath fieldIdx) pd).
Proof.
  intros Hind. unfold writeFieldWithPath, field_text, receiver, mbind, R_bind.
  rewrite writeLeadingComments_run by done.
  rewrite writeIndented_run by done. rewrite indendation_append, descriptor_append.
  assert (Hq : forall pd',
    (if fHasOptionalKeyword field then write "optional "
     else if String.eqb (Cardinality_String (fCardinality field)) "repeated"
          then write "repeated "
          else if String.eqb (Cardinality_String (fCardinality field)) "required"
                  && String.eqb (dSyntax (descriptor pd)) "proto2"
               then write "required " else mret tt) pd'
    = Some (tt, append (qualifier_text (dSyntax (descriptor pd)) field) pd')).
  { intros pd'. unfold qualifier_text. destruct (fHasOptionalKeyword field); [done|].
    destruct (fCardinality field); cbn; [by rewrite append_empty| |done].
    destruct (String.eqb _ "proto2"); [done|by rewrite append_empty]. }
  rewrite Hq. rewrite writeType_run. rewrite !write_run.
  assert (Hd : forall pd',
    (if fHasDefault field then
       write " [default = ";;
       (if String.eqb (Kind_String (fKind field)) "string"
        then write (quote +:+ fDefault field +:+ quote)
        else if String.eqb (Kind_String (fKind field)) "enum"
             then write (fDefaultEnumValue field) else write (fDefault field));;
       write "]"
     else mret tt) pd'
    = Some (tt, append (default_text field) pd')).
  { intros pd'. unfold default_text. destruct (fHasDefault field); [|by rewrite append_empty].
    unfold mbind, R_bind. destruct (fKind field); cbn; by normalize_text. }
  cbn zeta in Hd. rewrite Hd. rewrite !write_run.
  rewrite writeTrailingComment_run. rewrite !comments_append. by normalize_text.
Qed.

Lemma set_indendation_append n s pd :
  set_indendation n (append s pd) = append s (set_indendation n pd).
Proof. done. Qed.

Lemma set_indendation_twice n m pd :
  set_indendation n (set_indendation m pd) = set_indendation n pd.
Proof. done. Qed.

Lemma set_indendation_same n pd : n = indendation pd -> set_indendation n pd = pd.
Proof. intros ->. by destruct pd. Qed.

Lemma field_text_ext pd pd' field msgPath fieldIdx :
  indendation pd' = indendation pd -> comments pd' = comments pd ->
  descriptor pd' = descriptor pd ->
  field_text pd' field msgPath fieldIdx = field_text pd field msgPath fieldIdx.
Proof. intros H1 H2 H3. unfold field_text. by rewrite H1, H2, H3. Qed.

Lemma writeOneofWithPath_synthetic oneof field msgPath oneofIdx fieldIndexMap pd :
  oIsSynthetic oneof = true -> oFields oneof = [field] ->
  writeOneofWithPath oneof msgPath oneofIdx fieldIndexMap pd
  = writeFieldWithPath field msgPath (default 0 (fieldIndexMap !! fName field)) pd.
Proof.
  intros Hs Hf. unfold writeOneofWithPath, Get, mbind, R_bind. by rewrite Hs, Hf.
Qed.

Lemma writeOneofWithPath_block oneof msgPath oneofIdx fieldIndexMap pd :
  oIsSynthetic oneof = false -> 0 <= indendation pd ->
  writeOneofWithPath oneof msgPath oneofIdx fieldIndexMap pd
  = Some (tt, append (oneof_text pd oneof msgPath oneofIdx fieldIndexMap) pd).
Proof.
  intros Hs Hind. unfold writeOneofWithPath, oneof_text. rewrite Hs.
  unfold mbind, R_bind.
  rewrite writeLeadingComments_run by done.
  rewrite writeIndented_run by done. rewrite !write_run.
  unfold indent. rewrite !indendation_append.
  set (pd2 := set_indendation (indendation pd + 1) pd).
  rewrite (each_run _
             (fun _ field => field_text pd2 field msgPath
                               (default 0 (fieldIndexMap !! fName field)))
             (fun pd' => indendation pd' = indendation pd2 /\
                         comments pd' = comments pd2 /\
                         descriptor pd' = descriptor pd2)); [|done| |done].
  2: { intros _ field pd' (H1 & H2 & H3).
       rewrite writeFieldWithPath_run by (rewrite H1; cbn; lia).
       by rewrite (field_text_ext pd2 pd'). }
  unfold dedent.
  rewrite !set_indendation_append, !indendation_append, set_indendation_twice.
  rewrite set_indendation_same by (cbn; lia).
  rewrite writeIndented_run by done.
  rewrite writeTrailingComment_run. rewrite !write_run, !comments_append, !indendation_append.
  by normalize_text.
Qed.




(** C4. A oneof flagged synthetic, which has one field and that field
    carries the [optional] keyword, is rendered exactly as that field is: a
    line that starts, behind the indentation, with [optional], then the
    type, the name, [=], the number, the default if there is one, and [;].
    Any other oneof is rendered as a block [oneof <name> { ... }] around
    the lines of its fields. *)
Theorem synthetic_oneof_is_optional_field oneof msgPath oneofIdx fieldIndexMap pd :
  0 <= indendation pd ->
  (forall field,
     oIsSynthetic oneof = true -> oFields oneof = [field] ->
     fHasOptionalKeyword field = true ->
     let fieldIdx := default 0 (fieldIndexMap !! fName field) in
     let info := comments pd !! pathKey (msgPath ++ [2; fieldIdx]) in
     writeOneofWithPath oneof msgPath oneofIdx fieldIndexMap pd
     = writeFieldWithPath field msgPath fieldIdx pd /\
     writeOneofWithPath oneof msgPath oneofIdx fieldIndexMap pd
     = Some (tt, append (leading_text (indendation pd) info +:+
                         spaces (indendation pd) +:+ "optional " +:+
                         type_text field +:+ " " +:+ fName field +:+ " = " +:+
                         strconv.Itoa (fNumber field) +:+ default_text field +:+ ";" +:+
                         trailing_text info +:+ strings.LF) pd)) /\
  (oIsSynthetic oneof = false ->
   let info := comments pd !! pathKey (msgPath ++ [8; oneofIdx]) in
   writeOneofWithPath oneof msgPath oneofIdx fieldIndexMap pd
   = Some (tt, append (leading_text (indendation pd) info +:+
                       spaces (indendation pd) +:+ "oneof " +:+ oName oneof +:+
                       " {" +:+ strings.LF +:+
                       texts (fun _ field =>
                                field_text (set_indendation (indendation pd + 1) pd)
                                  field msgPath
                                  (default 0 (fieldIndexMap !! fName field)))
                         0 (oFields oneof) +:+
                       spaces (indendation pd) +:+ "}" +:+ trailing_text info +:+
                       strings.LF) pd)).
Proof.
  intros Hind. split.
  - intros field Hs Hf Hopt fieldIdx info.
    rewrite (writeOneofWithPath_synthetic _ field) by done.
    split; [done|]. rewrite writeFieldWithPath_run by done.
    unfold field_text, qualifier_text. by rewrite Hopt.
  - intros Hs info. by rewrite writeOneofWithPath_block.
Qed.

(** ** The claims about the renderer, on the samples *)

(** The two ranges of the claim, and one that ends at the largest valid
    field number. *)
Example reserved_5_6 :
  writeReservedRange [0%nat] 0 sample_pd
  = Some (tt, append ("  reserved 5;" +:+ strings.LF) sample_pd).
Proof. reflexivity. Qed.

Example reserved_5_10 :
  writeReservedRange [0%nat; 0%nat] 0 sample_pd
  = Some (tt, append ("  reserved 5 to 9;" +:+ strings.LF) sample_pd).
Proof. reflexivity. Qed.

Example reserved_1000_max :
  writeReservedRange [0%nat] 1 sample_pd
  = Some (tt, append ("  reserved 1000 to max;" +:+ strings.LF) sample_pd).
Proof. reflexivity. Qed.

Lemma reserved_range_display_witness :
  writeReservedRange [0%nat; 0%nat] 0 sample_pd
  = Some (tt, append ("  reserved 5 to 9;" +:+ strings.LF) sample_pd).
Proof.
  assert (H0 : messageAt (dMessages (descriptor sample_pd)) [0%nat; 0%nat]
               = Some sample_nested) by reflexivity.
  assert (H1 : 0 <= indendation sample_pd) by (vm_compute; discriminate).
  assert (H2 : int32 5) by (unfold int32; lia).
  assert (H3 : int32 10) by (unfold int32; lia).
  assert (H4 : 5 <= 10) by lia.
  assert (H5 : - 2 ^ 31 < 10) by lia.
  exact (proj1 (reserved_range_display [0%nat; 0%nat] sample_nested 0 5 10 sample_pd
                  H0 eq_refl H1 H2 H3 H4 H5)).
Defined.

Lemma synthetic_oneof_is_optional_field_witness :
  writeOneofWithPath sample_oneof [4; 0] 0 {[ "x" := 0 ]} sample_pd
  = Some (tt, append ("  optional int32 x = 1; //the x" +:+ strings.LF) sample_pd).
Proof.
  assert (H1 : 0 <= indendation sample_pd) by (vm_compute; discriminate).
  exact (proj2 (proj1 (synthetic_oneof_is_optional_field
                         sample_oneof [4; 0] 0 {[ "x" := 0 ]} sample_pd H1)
                  sample_field eq_refl eq_refl eq_refl)).
Defined.

(** ** The writers only append *)

Lemma set_builder_self pd : set_builder (builder pd) pd = pd.
Proof. by destruct pd. Qed.

Lemma append_set_builder out b pd : append out (set_builder b pd) = set_builder (b +:+ out) pd.
Proof. done. Qed.

Lemma writes_run {A : Type} (m : R A) pd a pd' :
  writes 0 m -> m pd = Some (a, pd') ->
  exists out, pd' = append out pd /\
              forall b, m (set_builder b pd) = Some (a, append out (set_builder b pd)).
Proof.
  intros Hm E. destruct (Hm pd) as [(a' & out & H)|H].
  - exists out. pose proof (H (builder pd)) as H0.
    rewrite set_builder_self, E, Z.add_0_r in H0.
    rewrite set_indendation_same in H0 by done. injection H0 as -> ->.
    split; [done|]. intros b. by rewrite H, Z.add_0_r.
  - specialize (H (builder pd)). rewrite set_builder_self in H. congruence.
Qed.

Lemma writes_ext {A : Type} k (m m' : R A) :
  (forall pd, m pd = m' pd) -> writes k m' -> writes k m.
Proof.
  intros E H pd. destruct (H pd) as [(a & out & H1)|H1]; [left|right].
  - exists a, out. intros b. by rewrite E.
  - intros b. by rewrite E.
Qed.

Lemma writes_ret {A : Type} (a : A) : writes 0 (mret a).
Proof.
  intros pd. left. exists a, "". intros b. rewrite append_empty, Z.add_0_r.
  by rewrite set_indendation_same.
Qed.

Lemma writes_raise {A : Type} k : writes k (@raise A).
Proof. intros pd. by right. Qed.

Lemma writes_write s : writes 0 (write s).
Proof.
  intros pd. left. exists tt, s. intros b. rewrite Z.add_0_r.
  by rewrite set_indendation_same.
Qed.

Lemma writes_writeIndented s : writes 0 (writeIndented s).
Proof.
  intros pd. destruct (Z.le_gt_cases 0 (indendation pd)) as [H|H].
  - left. exists tt, (spaces (indendation pd) +:+ s). intros b.
    rewrite writeIndented_run by done. rewrite Z.add_0_r.
    by rewrite set_indendation_same.
  - right. intros b. unfold writeIndented, strings.Repeat. cbn [indendation set_builder].
    by replace (indendation pd <? 0) with true by lia.
Qed.

Lemma writes_indent : writes 1 indent.
Proof. intros pd. left. exists tt, "". intros b. by rewrite append_empty. Qed.

Lemma writes_dedent : writes (-1) dedent.
Proof. intros pd. left. exists tt, "". intros b. by rewrite append_empty. Qed.

Lemma writes_getComments path : writes 0 (getComments path).
Proof.
  intros pd. left. exists (comments pd !! pathKey path), "". intros b.
  rewrite append_empty, Z.add_0_r. by rewrite set_indendation_same.
Qed.

Lemma writes_messageOf ref : writes 0 (messageOf ref).
Proof.
  intros pd. unfold messageOf. cbn [descriptor set_builder].
  destruct (messageAt (dMessages (descriptor pd)) ref) as [m|]; [left|by right].
  exists m, "". intros b. rewrite append_empty, Z.add_0_r.
  by rewrite set_indendation_same.
Qed.

Lemma writes_Get {A : Type} (l : list A) i : writes 0 (Get l i).
Proof. unfold Get. destruct (l !! i); [apply writes_ret | apply writes_raise]. Qed.

Lemma writes_bind {A B : Type} j k n (m : R A) (f : A -> R B) :
  writes j m -> (forall a, writes k (f a)) -> n = j + k -> writes n (m ≫= f).
Proof.
  intros Hm Hf -> pd. destruct (Hm pd) as [(a & o1 & H1)|H1].
  - destruct (Hf a (set_indendation (indendation pd + j) pd)) as [(c & o2 & H2)|H2].
    + left. exists c, (o1 +:+ o2). intros b. unfold mbind, R_bind. rewrite H1.
      change (append o1 (set_indendation (indendation pd + j) (set_builder b pd)))
        with (set_builder (b +:+ o1) (set_indendation (indendation pd + j) pd)).
      rewrite H2. unfold append, set_builder, set_indendation. cbn.
      rewrite append_assoc. do 3 f_equal. lia.
    + right. intros b. unfold mbind, R_bind. rewrite H1.
      change (append o1 (set_indendation (indendation pd + j) (set_builder b pd)))
        with (set_builder (b +:+ o1) (set_indendation (indendation pd + j) pd)).
      by rewrite H2.
  - right. intros b. unfold mbind, R_bind. by rewrite H1.
Qed.

(** [receiver] hands the whole definition on; what follows may read
    anything of it but the text. *)
Lemma writes_receiver {B : Type} k (g : ProtoDefinition -> R B) :
  (forall pd0 b pd, g (set_builder b pd0) pd = g pd0 pd) ->
  (forall pd0, writes k (g pd0)) -> writes k (receiver ≫= g).
Proof.
  intros Hg Hw pd. destruct (Hw pd pd) as [(a & out & H)|H]; [left|right].
  - exists a, out. intros b. unfold mbind, R_bind, receiver. by rewrite Hg.
  - intros b. unfold mbind, R_bind, receiver. by rewrite Hg.
Qed.

Lemma writes_each {A : Type} (body : Z -> A -> R unit) l i :
  (forall i x, writes 0 (body i x)) -> writes 0 (each body i l).
Proof.
  intros Hbody. revert i. induction l as [|x l IH]; intros i; cbn [each].
  - apply writes_ret.
  - eapply writes_bind; [apply Hbody | intros; apply IH | done].
Qed.

Create HintDb writers.

(** Takes a writer apart down to the calls that are known to write. *)
Ltac writer :=
  repeat first
    [ solve [eauto with writers]
    | reflexivity
    | apply writes_ret | apply writes_raise | apply writes_write
    | apply writes_writeIndented | apply writes_indent | apply writes_dedent
    | apply writes_getComments | apply writes_messageOf | apply writes_Get
    | apply writes_each; intros
    | eapply writes_bind; [|intros|]
    | match goal with
      | |- writes _ (if ?b then _ else _) => destruct b
      | |- writes _ (match ?x with _ => _ end) => destruct x
      end ].

Lemma writes_writeComment comment : writes 0 (writeComment comment).
Proof. unfold writeComment. writer. Qed.

Lemma writes_writeLeadingComments path : writes 0 (writeLeadingComments path).
Proof.
  pose proof writes_writeComment. unfold writeLeadingComments. writer.
Qed.

Lemma writes_writeTrailingComment path : writes 0 (writeTrailingComment path).
Proof. unfold writeTrailingComment. writer. Qed.

Lemma writes_writeType field : writes 0 (writeType field).
Proof.
  apply (writes_ext 0 _ (write (type_text field))); [|apply writes_write].
  intros pd. apply writeType_run.
Qed.

Lemma writes_writeFieldWithPath field msgPath fieldIdx :
  writes 0 (writeFieldWithPath field msgPath fieldIdx).
Proof.
  pose proof writes_writeLeadingComments.
  pose proof writes_writeTrailingComment.
  pose proof writes_writeType.
  unfold writeFieldWithPath.
  eapply writes_bind; [eauto| |reflexivity]. intros _.
  eapply writes_bind; [apply writes_writeIndented| |reflexivity]. intros _.
  apply writes_receiver; [done|]. intros pd0. writer.
Qed.

Lemma writes_writeOneofWithPath oneof msgPath oneofIdx fieldIndexMap :
  writes 0 (writeOneofWithPath oneof msgPath oneofIdx fieldIndexMap).
Proof.
  pose proof writes_writeLeadingComments.
  pose proof writes_writeTrailingComment.
  pose proof writes_writeFieldWithPath.
  unfold writeOneofWithPath. writer.
Qed.

Lemma writes_writeEnumWithPath enum basePath enumIdx isNested :
  writes 0 (writeEnumWithPath enum basePath enumIdx isNested).
Proof.
  pose proof writes_writeLeadingComments.
  pose proof writes_writeTrailingComment.
  unfold writeEnumWithPath. writer.
Qed.

(** On an array variable of its own the assignments stay local. *)
Lemma writeRange_own v pd :
  writeRange (OwnArray v) pd
  = (let r := if v.1 >? v.2 then (v.2, v.1) else v in
     let r := (r.1, wrap32 (r.2 - 1)) in
     (if r.1 =? r.2 then write (strconv.Itoa r.1)
      else
        write (strconv.Itoa r.1);;
        write " to ";;
        if r.2 =? protowire.MaxValidNumber then write "max"
        else write (strconv.Itoa r.2));;
     write (";" +:+ strings.LF)) pd.
Proof.
  destruct v as [lower upper]. unfold writeRange. cbn [index2 setIndex2 fst snd].
  unfold mbind, R_bind. cbn [mret R_ret].
  destruct (lower >? upper); cbn [fst snd index2 setIndex2 mret R_ret];
    destruct (_ =? _); try done; cbn [index2 mret R_ret]; by destruct (_ =? _).
Qed.

Lemma writes_writeReservedRange ref i : writes 0 (writeReservedRange ref i).
Proof.
  unfold writeReservedRange, FieldRanges_Get.
  eapply writes_bind; [apply writes_writeIndented| |reflexivity]. intros _.
  eapply writes_bind; [writer| |reflexivity]. intros v.
  eapply writes_ext; [apply writeRange_own|]. cbv zeta. writer.
Qed.

Lemma writes_writeMessageWithPath :
  forall message ref basePath msgIdx isNested,
    writes 0 (writeMessageWithPath message ref basePath msgIdx isNested).
Proof.
  fix IH 1.
  intros [name rnames rranges msgs enums fields oneofs] ref basePath msgIdx isNested.
  pose proof writes_writeLeadingComments.
  pose proof writes_writeTrailingComment.
  pose proof writes_writeFieldWithPath.
  pose proof writes_writeOneofWithPath.
  pose proof writes_writeEnumWithPath.
  pose proof writes_writeReservedRange.
  cbn [writeMessageWithPath mName mReservedNames mReservedRanges mMessages mEnums
         mFields mOneofs].
  set (msgPath := if isNested then basePath ++ [3; msgIdx] else [4; msgIdx]).
  assert (Hnested : forall i,
    writes 0 (each (fun i nested =>
                      writeMessageWithPath nested (ref ++ [Z.to_nat i]) msgPath i true)
                i msgs)).
  { clear -IH. induction msgs as [|m ms IHms]; intros i; cbn [each].
    - apply writes_ret.
    - eapply writes_bind; [apply IH | intros; apply IHms | done]. }
  clearbody msgPath. clear IH. writer.
Qed.

Lemma writes_writeMethodWithPath method servicePath methodIdx :
  writes 0 (writeMethodWithPath method servicePath methodIdx).
Proof.
  pose proof writes_writeLeadingComments.
  pose proof writes_writeTrailingComment.
  unfold writeMethodWithPath. writer.
Qed.

Lemma writes_writeServiceWithPath service serviceIdx :
  writes 0 (writeServiceWithPath service serviceIdx).
Proof.
  pose proof writes_writeLeadingComments.
  pose proof writes_writeMethodWithPath.
  unfold writeServiceWithPath. writer.
Qed.

Lemma writes_writeFileOptions_loop definitions options printedOption :
  writes 0 (writeFileOptions_loop definitions options printedOption).
Proof.
  revert printedOption.
  induction definitions as [|[OptionName FieldName] definitions IH]; intros printedOption;
    cbn [writeFileOptions_loop]; [apply writes_ret|].
  destruct (options !! FieldName) as [[s|b]|]; [| |apply IH].
  - eapply writes_bind; [unfold writeStringFileOptions; writer|intros; apply IH|done].
  - eapply writes_bind; [unfold writeBoolFileOptions; writer|intros; apply IH|done].
Qed.

Lemma writes_writeFileOptions : writes 0 writeFileOptions.
Proof.
  pose proof writes_writeFileOptions_loop.
  unfold writeFileOptions. apply writes_receiver; [done|]. intros pd0. writer.
Qed.

Lemma writes_writeFileDescriptor : writes 0 writeFileDescriptor.
Proof.
  pose proof writes_writeLeadingComments.
  pose proof writes_writeServiceWithPath.
  pose proof writes_writeMessageWithPath.
  pose proof writes_writeEnumWithPath.
  pose proof writes_writeFileOptions.
  unfold writeFileDescriptor, writeImport.
  eapply writes_bind; [eauto| |reflexivity]. intros _.
  apply writes_receiver; [done|]. intros pd0. writer.
Qed.

(** C8. Rendering leaves the reserved ranges in the tree as they were.
    The array that [Get] returns is a variable of its own, so the exchange
    and the decrement of the loop body never reach the list of the node: the
    state after one range, after a whole message with all that is nested in
    it, and after a whole file holds the descriptor it started with, and
    rendering once more from the state that a rendering left appends the
    same text again. *)
Theorem rendering_keeps_reserved_ranges :
  (forall ref i pd pd',
     writeReservedRange ref i pd = Some (tt, pd') ->
     descriptor pd' = descriptor pd) /\
  (forall message ref basePath msgIdx isNested pd pd',
     writeMessageWithPath message ref basePath msgIdx isNested pd = Some (tt, pd') ->
     descriptor pd' = descriptor pd /\
     exists out,
       pd' = append out pd /\
       writeMessageWithPath message ref basePath msgIdx isNested pd'
       = Some (tt, append out pd')) /\
  (forall pd pd',
     writeFileDescriptor pd = Some (tt, pd') ->
     descriptor pd' = descriptor pd /\
     exists out,
       pd' = append out pd /\
       writeFileDescriptor pd' = Some (tt, append out pd')).
Proof.
  assert (Hagain : forall (m : R unit) pd pd',
    writes 0 m -> m pd = Some (tt, pd') ->
    descriptor pd' = descriptor pd /\
    exists out, pd' = append out pd /\ m pd' = Some (tt, append out pd')).
  { intros m pd pd' Hm E. destruct (writes_run m pd tt pd' Hm E) as (out & -> & H).
    split; [done|]. exists out. split; [done|].
    rewrite <- (set_builder_self pd) at 1. rewrite append_set_builder, H.
    by rewrite append_set_builder. }
  split; [|split].
  - intros ref i pd pd' E.
    by destruct (Hagain _ _ _ (writes_writeReservedRange ref i) E) as [? _].
  - intros message ref basePath msgIdx isNested pd pd' E.
    by apply Hagain; [apply writes_writeMessageWithPath|].
  - intros pd pd' E. by apply Hagain; [apply writes_writeFileDescriptor|].
Qed.

(** The same statements on the element of the list itself, as a pointer to
    it or a slice of it would give, do store into the tree: the range
    [[5, 10)] of the nested sample becomes [[5, 9)], then [[5, 8)], and the
    second rendering differs from the first. *)
Example aliased_range_is_stored :
  option_map (fun r => (mReservedRanges <$>
                          messageAt (dMessages (descriptor r.2)) [0%nat; 0%nat],
                        builder r.2))
    ((writeRange (ListElement [0%nat; 0%nat] 0);;
      writeRange (ListElement [0%nat; 0%nat] 0)) sample_pd)
  = Some (Some [(5, 8)],
          "5 to 9;" +:+ strings.LF +:+ "5 to 8;" +:+ strings.LF).
Proof. vm_compute. reflexivity. Qed.

(** The samples render, and the descriptor comes back as it went in. *)
Example sample_rendering :
  match NewFromDescriptor (fun _ => None) sample_pb with
  | Some (inl pd) => Some (descriptor pd, builder pd)
  | _ => None
  end
  = Some (sample_descriptor,
      "syntax = " +:+ quote +:+ "proto3" +:+ quote +:+ ";" +:+ strings.LF +:+ strings.LF +:+
      "package pkg;" +:+ strings.LF +:+ strings.LF +:+
      "// Serves." +:+ strings.LF +:+
      "service S {" +:+ strings.LF +:+
      "  rpc Get (.pkg.M) returns (stream .pkg.M) {} //the call" +:+ strings.LF +:+
      "}" +:+ strings.LF +:+ strings.LF +:+
      "message M {" +:+ strings.LF +:+
      "  reserved " +:+ quote +:+ "old" +:+ quote +:+ ";" +:+ strings.LF +:+
      "  reserved 5;" +:+ strings.LF +:+
      "  reserved 1000 to max;" +:+ strings.LF +:+
      "  message N {" +:+ strings.LF +:+
      "    reserved 5 to 9;" +:+ strings.LF +:+
      "  } //the n" +:+ strings.LF +:+ strings.LF +:+
      "  optional int32 x = 1; //the x" +:+ strings.LF +:+
      "}" +:+ strings.LF +:+ strings.LF +:+
      "enum E {" +:+ strings.LF +:+
      "  ZERO = 0; //nothing" +:+ strings.LF +:+
      "}" +:+ strings.LF +:+ strings.LF).
Proof. vm_compute. reflexivity. Qed.

Lemma rendering_keeps_reserved_ranges_witness :
  exists pd',
    writeMessageWithPath sample_message [0%nat] [] 0 false sample_pd = Some (tt, pd') /\
    descriptor pd' = descriptor sample_pd /\
    exists out,
      pd' = append out sample_pd /\
      writeMessageWithPath sample_message [0%nat] [] 0 false pd' = Some (tt, append out pd').
Proof.
  destruct (writeMessageWithPath sample_message [0%nat] [] 0 false sample_pd)
    as [[[] pd']|] eqn:E.
  - exists pd'. split; [reflexivity|].
    exact (proj1 (proj2 rendering_keeps_reserved_ranges)
             sample_message [0%nat] [] 0 false sample_pd pd' E).
  - exfalso. vm_compute in E. discriminate E.
Defined.

(** ** Rendering ends normally *)

Lemma total_ret {A : Type} lo d (a : A) : total lo d (mret a).
Proof. by intros pd _ _. Qed.

Lemma total_write lo d s : total lo d (write s).
Proof. by intros pd _ _. Qed.

Lemma total_writeIndented lo d s : 0 <= lo -> total lo d (writeIndented s).
Proof. intros H pd Hpd _. rewrite writeIndented_run by lia. done. Qed.

Lemma total_indent lo d : total lo d indent.
Proof. by intros pd _ _. Qed.

Lemma total_dedent lo d : total lo d dedent.
Proof. by intros pd _ _. Qed.

Lemma total_getComments lo d path : total lo d (getComments path).
Proof. by intros pd _ _. Qed.

Lemma total_bind {A B : Type} lo d j (m : R A) (f : A -> R B) :
  writes j m -> total lo d m -> (forall a, total (lo + j) d (f a)) ->
  total lo d (m ≫= f).
Proof.
  intros Hw Hm Hf pd Hlo Hd. destruct (Hm pd Hlo Hd) as [[a pd'] E].
  unfold mbind, R_bind. rewrite E.
  destruct (Hw pd) as [(a' & out & H)|H].
  - specialize (H (builder pd)). rewrite set_builder_self, E in H.
    injection H as -> ->.
    apply Hf; [change (lo + j <= indendation pd + j); lia|done].
  - specialize (H (builder pd)). rewrite set_builder_self in H. congruence.
Qed.

Lemma total_receiver {B : Type} lo d (g : ProtoDefinition -> R B) :
  (forall pd0, descriptor pd0 = d -> total lo d (g pd0)) -> total lo d (receiver ≫= g).
Proof. intros Hg pd Hlo Hd. unfold mbind, R_bind, receiver. by apply Hg. Qed.

Lemma total_each {A : Type} lo d (body : Z -> A -> R unit) l i0 :
  (forall i x, writes 0 (body i x)) ->
  (forall j x, l !! j = Some x -> total lo d (body (i0 + Z.of_nat j) x)) ->
  total lo d (each body i0 l).
Proof.
  intros Hw. revert i0. induction l as [|x l IH]; intros i0 Hbody; cbn [each].
  - apply total_ret.
  - apply (total_bind lo d 0); [apply Hw| |].
    + specialize (Hbody 0%nat x eq_refl). by rewrite Z.add_0_r in Hbody.
    + intros _. rewrite Z.add_0_r. apply IH. intros j y Hj.
      replace (i0 + 1 + Z.of_nat j) with (i0 + Z.of_nat (S j)) by lia. by apply Hbody.
Qed.

#[local] Hint Resolve writes_ret writes_raise writes_write writes_writeIndented
  writes_indent writes_dedent writes_getComments writes_messageOf writes_Get
  writes_writeComment writes_writeLeadingComments writes_writeTrailingComment
  writes_writeType writes_writeFieldWithPath writes_writeOneofWithPath
  writes_writeEnumWithPath writes_writeReservedRange writes_writeMessageWithPath
  writes_writeMethodWithPath writes_writeServiceWithPath writes_writeFileOptions_loop
  writes_writeFileOptions writes_writeFileDescriptor : writers.

#[local] Hint Extern 2 (_ <= _) => lia : writers.

(** Takes a writer apart down to the calls that are known not to panic. *)
Ltac runner :=
  repeat first
    [ solve [eauto with writers]
    | lia
    | apply total_ret | apply total_write | apply total_writeIndented
    | apply total_indent | apply total_dedent | apply total_getComments
    | apply total_each; [intros; solve [writer]|intros]
    | eapply total_bind; [solve [writer]| |intros]
    | match goal with
      | |- total _ _ (if ?b then _ else _) => destruct b
      | |- total _ _ (match ?x with _ => _ end) => destruct x
      end ].

Lemma total_writeComment lo d comment : 0 <= lo -> total lo d (writeComment comment).
Proof. intros H. unfold writeComment. runner. Qed.

Lemma total_writeLeadingComments lo d path :
  0 <= lo -> total lo d (writeLeadingComments path).
Proof.
  intros H. pose proof (fun lo' c => total_writeComment lo' d c).
  unfold writeLeadingComments. runner.
Qed.

Lemma total_writeTrailingComment lo d path : total lo d (writeTrailingComment path).
Proof. intros pd _ _. by rewrite writeTrailingComment_run. Qed.

Lemma total_writeType lo d field : total lo d (writeType field).
Proof. intros pd _ _. by rewrite writeType_run. Qed.

Lemma total_writeFieldWithPath lo d field msgPath fieldIdx :
  0 <= lo -> total lo d (writeFieldWithPath field msgPath fieldIdx).
Proof. intros H pd Hpd _. rewrite writeFieldWithPath_run by lia. done. Qed.

Lemma total_writeOneofWithPath lo d oneof msgPath oneofIdx fieldIndexMap :
  0 <= lo -> oneof_ok oneof = true ->
  total lo d (writeOneofWithPath oneof msgPath oneofIdx fieldIndexMap).
Proof.
  intros H Hok pd Hpd _. destruct (oIsSynthetic oneof) eqn:Es.
  - unfold oneof_ok in Hok. rewrite Es in Hok.
    destruct (oFields oneof) as [|field fields] eqn:Ef; [done|].
    unfold writeOneofWithPath, Get, mbind, R_bind. rewrite Es, Ef.
    cbn [lookup list_lookup mret R_ret]. rewrite writeFieldWithPath_run by lia. done.
  - rewrite writeOneofWithPath_block by (done || lia). done.
Qed.

Lemma total_writeEnumWithPath lo d enum basePath enumIdx isNested :
  0 <= lo -> total lo d (writeEnumWithPath enum basePath enumIdx isNested).
Proof.
  intros H.
  assert (Hl : forall lo' path, 0 <= lo' -> total lo' d (writeLeadingComments path))
    by (intros; by apply total_writeLeadingComments).
  pose proof (fun lo' => total_writeTrailingComment lo' d).
  unfold writeEnumWithPath. runner.
Qed.

Lemma total_writeReservedRange lo d ref i message range :
  0 <= lo -> messageAt (dMessages d) ref = Some message ->
  mReservedRanges message !! i = Some range ->
  total lo d (writeReservedRange ref i).
Proof.
  intros H Hm Hi pd Hpd Hd.
  unfold writeReservedRange, FieldRanges_Get, messageOf, Get, mbind, R_bind.
  rewrite writeIndented_run by lia.
  change (descriptor (append _ pd)) with (descriptor pd). rewrite Hd, Hm, Hi.
  cbn [mret R_ret]. rewrite writeRange_own. cbv zeta. unfold mbind, R_bind.
  repeat match goal with |- context [if ?b then _ else _] => destruct b end; done.
Qed.

Lemma messageAt_snoc messages ref i message nested :
  messageAt messages ref = Some message -> mMessages message !! i = Some nested ->
  messageAt messages (ref ++ [i]) = Some nested.
Proof.
  revert messages. induction ref as [|j ref IH]; intros messages; [done|].
  destruct ref as [|j' ref].
  - cbn. intros -> Hn. done.
  - change ((j :: j' :: ref) ++ [i]) with (j :: (j' :: ref) ++ [i]).
    cbn [messageAt]. destruct (messages !! j) as [m|]; [|done].
    intros Hm Hn. specialize (IH (mMessages m) Hm Hn).
    by destruct ((j' :: ref) ++ [i]).
Qed.

Lemma forallb_lookup {A} (f : A -> bool) (l : list A) i x :
  forallb f l = true -> l !! i = Some x -> f x = true.
Proof.
  revert i. induction l as [|y l IH]; intros [|i] Hf Hi; try done;
    cbn in Hf; apply andb_true_iff in Hf as [Hy Hl].
  - by injection Hi as ->.
  - by eapply IH.
Qed.

(** Induction over a message and the messages nested in it. *)
Lemma MessageDescriptor_nested_ind (P : MessageDescriptor -> Prop) :
  (forall message, Forall P (mMessages message) -> P message) ->
  forall message, P message.
Proof.
  intros step. fix IH 1. intros [name rnames rranges msgs enums fields oneofs].
  apply step. cbn [mMessages].
  induction msgs as [|m ms IHms]; constructor; [apply IH|apply IHms].
Qed.

Lemma total_writeMessageWithPath message :
  forall ref basePath msgIdx isNested lo d,
    0 <= lo -> message_ok message = true ->
    messageAt (dMessages d) ref = Some message ->
    total lo d (writeMessageWithPath message ref basePath msgIdx isNested).
Proof.
  induction message as [message IH] using MessageDescriptor_nested_ind.
  destruct message as [name rnames rranges msgs enums fields oneofs].
  cbn [mMessages] in IH.
  intros ref basePath msgIdx isNested lo d Hlo Hok Hat.
  assert (Hl : forall lo' path, 0 <= lo' -> total lo' d (writeLeadingComments path))
    by (intros; by apply total_writeLeadingComments).
  pose proof (fun lo' => total_writeTrailingComment lo' d) as Ht.
  assert (Hf : forall lo' field msgPath fieldIdx, 0 <= lo' ->
            total lo' d (writeFieldWithPath field msgPath fieldIdx))
    by (intros; by apply total_writeFieldWithPath).
  assert (He : forall lo' enum basePath enumIdx isNested, 0 <= lo' ->
            total lo' d (writeEnumWithPath enum basePath enumIdx isNested))
    by (intros; by apply total_writeEnumWithPath).
  cbn [message_ok mOneofs mMessages] in Hok. apply andb_true_iff in Hok as [Hok1 Hok2].
  cbn [writeMessageWithPath mName mReservedNames mReservedRanges mMessages mEnums
         mFields mOneofs].
  set (msgPath := if isNested then basePath ++ [3; msgIdx] else [4; msgIdx]).
  assert (Hnested : forall lo', 0 <= lo' ->
    total lo' d (each (fun i nested =>
                         writeMessageWithPath nested (ref ++ [Z.to_nat i]) msgPath i true)
                   0 msgs)).
  { intros lo' Hlo'. apply total_each; [intros; apply writes_writeMessageWithPath|].
    intros j nested Hj. eapply (Forall_lookup_1 _ _ _ _ IH Hj); [done| |].
    - by eapply forallb_lookup.
    - rewrite Z.add_0_l, Nat2Z.id. by eapply messageAt_snoc. }
  assert (Hranges : forall lo', 0 <= lo' ->
    total lo' d (each (fun i _ => writeReservedRange ref (Z.to_nat i)) 0 rranges)).
  { intros lo' Hlo'. apply total_each; [intros; apply writes_writeReservedRange|].
    intros j range Hj. rewrite Z.add_0_l, Nat2Z.id.
    by eapply total_writeReservedRange. }
  assert (Honeofs : forall lo' fieldIndexMap, 0 <= lo' ->
    total lo' d (each (fun i oneof => writeOneofWithPath oneof msgPath i fieldIndexMap)
                   0 oneofs)).
  { intros lo' fieldIndexMap Hlo'.
    apply total_each; [intros; apply writes_writeOneofWithPath|].
    intros j oneof Hj. apply total_writeOneofWithPath; [done|].
    by eapply forallb_lookup. }
  clearbody msgPath. clear IH Hok1 Hok2 Hat.
  runner.
Qed.

(** ** The keys of the comment table *)

Lemma Itoa_inj a b : strconv.Itoa a = strconv.Itoa b -> a = b.
Proof.
  unfold strconv.Itoa. intros H. apply DecimalZ.to_int_inj.
  assert (Hn : forall z, NilZero.int_of_string (NilZero.string_of_int (Z.to_int z))
                         = Some (Z.to_int z)).
  { intros z. apply NilZero.isi; destruct z as [|p|p]; cbn; try discriminate;
      intros [= E]; by apply DecimalPos.Unsigned.to_uint_nonnil in E. }
  apply (f_equal NilZero.int_of_string) in H. rewrite !Hn in H. by injection H.
Qed.

Lemma string_of_uint_dotless d : dotless (NilEmpty.string_of_uint d).
Proof. induction d; cbn; try done; by split. Qed.

Lemma Itoa_dotless z : dotless (strconv.Itoa z).
Proof.
  assert (Hu : forall d, dotless (NilZero.string_of_uint d)).
  { intros d. pose proof (string_of_uint_dotless d). by destruct d. }
  unfold strconv.Itoa. destruct (Z.to_int z) as [d|d]; cbn; [apply Hu|].
  split; [done|apply Hu].
Qed.

Lemma Itoa_nonempty z : strconv.Itoa z <> "".
Proof.
  unfold strconv.Itoa. destruct z as [|p|p]; cbn; [done| |done].
  pose proof (DecimalPos.Unsigned.to_uint_nonnil p).
  destruct (Pos.to_uint p); done.
Qed.

Lemma pathKey_cons x path : pathKey (x :: path) = strconv.Itoa x +:+ key_tail path.
Proof.
  unfold pathKey. destruct path as [|y path]; cbn [map strings.Join key_tail].
  - by rewrite append_empty_r.
  - done.
Qed.

Lemma dotless_split a b sa sb :
  dotless a -> dotless b ->
  (sa = "" \/ exists t, sa = "." +:+ t) -> (sb = "" \/ exists t, sb = "." +:+ t) ->
  a +:+ sa = b +:+ sb -> a = b /\ sa = sb.
Proof.
  revert b. induction a as [|c a IH]; intros [|d b] Ha Hb Hsa Hsb.
  - by intros H.
  - change ("" +:+ sa) with sa. change (String d b +:+ sb) with (String d (b +:+ sb)).
    intros ->. destruct Hb as [Hd _]. destruct Hsa as [[=]|[t [= E _]]]. by destruct Hd.
  - change ("" +:+ sb) with sb. change (String c a +:+ sa) with (String c (a +:+ sa)).
    intros <-. destruct Ha as [Hc _]. destruct Hsb as [[=]|[t [= E _]]]. by destruct Hc.
  - change (String c a +:+ sa) with (String c (a +:+ sa)).
    change (String d b +:+ sb) with (String d (b +:+ sb)).
    intros [= -> H]. destruct Ha as [_ Ha]. destruct Hb as [_ Hb].
    destruct (IH b Ha Hb Hsa Hsb H) as [-> ->]. done.
Qed.

Lemma pathKey_injective path1 path2 : pathKey path1 = pathKey path2 -> path1 = path2.
Proof.
  revert path2. induction path1 as [|x p IH]; intros [|y q].
  - done.
  - rewrite pathKey_cons. change (pathKey []) with "". intros H.
    destruct (Itoa_nonempty y). symmetry in H.
    destruct (strconv.Itoa y); [done|discriminate H].
  - rewrite pathKey_cons. change (pathKey []) with "". intros H.
    destruct (Itoa_nonempty x). destruct (strconv.Itoa x); [done|discriminate H].
  - rewrite !pathKey_cons. intros H.
    assert (Ht : forall r, key_tail r = "" \/ exists t, key_tail r = "." +:+ t).
    { intros [|z r]; [by left|right; by eexists]. }
    apply dotless_split in H as [Hxy Hpq]; [|apply Itoa_dotless|apply Itoa_dotless|done|done].
    apply Itoa_inj in Hxy as ->. f_equal. apply IH.
    destruct p as [|x1 p], q as [|y1 q]; cbn [key_tail] in Hpq; try done.
    by injection Hpq.
Qed.

(** ** The text of methods, enums and services *)

Lemma writeMethodWithPath_run method servicePath methodIdx pd :
  0 <= indendation pd ->
  writeMethodWithPath method servicePath methodIdx pd
  = Some (tt, append (method_text pd method servicePath methodIdx) pd).
Proof.
  intros Hind. unfold writeMethodWithPath, method_text, mbind, R_bind.
  rewrite writeLeadingComments_run by done.
  rewrite writeIndented_run by done. rewrite !write_run.
  destruct (rIsStreamingClient method), (rIsStreamingServer method);
    cbn [mret R_ret]; rewrite ?write_run, writeTrailingComment_run, ?write_run,
      ?comments_append; by normalize_text.
Qed.

Lemma value_text_ext pd pd' value enumPath i :
  indendation pd' = indendation pd -> comments pd' = comments pd ->
  value_text pd' value enumPath i = value_text pd value enumPath i.
Proof. intros H1 H2. unfold value_text. by rewrite H1, H2. Qed.

Lemma method_text_ext pd pd' method servicePath i :
  indendation pd' = indendation pd -> comments pd' = comments pd ->
  method_text pd' method servicePath i = method_text pd method servicePath i.
Proof. intros H1 H2. unfold method_text. by rewrite H1, H2. Qed.

Lemma writeEnumWithPath_run enum basePath enumIdx isNested pd :
  0 <= indendation pd ->
  writeEnumWithPath enum basePath enumIdx isNested pd
  = Some (tt, append (enum_text pd enum basePath enumIdx isNested) pd).
Proof.
  intros Hind. unfold writeEnumWithPath, enum_text.
  set (enumPath := if isNested then basePath ++ [4; enumIdx] else [5; enumIdx]).
  unfold mbind, R_bind.
  rewrite writeLeadingComments_run by done.
  rewrite writeIndented_run by done. rewrite !write_run.
  unfold indent. rewrite !indendation_append.
  set (pd2 := set_indendation (indendation pd + 1) pd).
  rewrite (each_run _ (fun i value => value_text pd2 value enumPath i)
             (fun pd' => indendation pd' = indendation pd2 /\
                         comments pd' = comments pd2)); [|done| |done].
  2: { intros i value pd' (H1 & H2). unfold mbind, R_bind.
       rewrite writeLeadingComments_run by (rewrite H1; cbn; lia).
       rewrite writeIndented_run by (rewrite indendation_append, H1; cbn; lia).
       rewrite !write_run, writeTrailingComment_run, !write_run.
       rewrite !comments_append, !indendation_append, H1, H2.
       unfold value_text. by normalize_text. }
  unfold dedent.
  rewrite !set_indendation_append, !indendation_append, set_indendation_twice.
  rewrite set_indendation_same by (cbn; lia).
  rewrite writeIndented_run by done.
  rewrite writeTrailingComment_run. rewrite !write_run, !comments_append, !indendation_append.
  by normalize_text.
Qed.

Lemma writeServiceWithPath_run service serviceIdx pd :
  0 <= indendation pd ->
  writeServiceWithPath service serviceIdx pd
  = Some (tt, append (service_text pd service serviceIdx) pd).
Proof.
  intros Hind. unfold writeServiceWithPath, service_text.
  unfold mbind, R_bind.
  rewrite writeLeadingComments_run by done. rewrite !write_run.
  unfold indent. rewrite !indendation_append.
  set (pd2 := set_indendation (indendation pd + 1) pd).
  rewrite (each_run _ (fun i method => method_text pd2 method [6; serviceIdx] i)
             (fun pd' => indendation pd' = indendation pd2 /\
                         comments pd' = comments pd2)); [|done| |done].
  2: { intros i method pd' (H1 & H2).
       rewrite writeMethodWithPath_run by (rewrite H1; cbn; lia).
       by rewrite (method_text_ext pd2 pd'). }
  unfold dedent.
  rewrite !set_indendation_append, !indendation_append, set_indendation_twice.
  rewrite set_indendation_same by (cbn; lia).
  rewrite writeIndented_run by done. by normalize_text.
Qed.



(** ** The last line of a message *)




(** ** Trailing comments *)


(** The comment of the nested sample starts with a no-break space. *)
Example TrimSpace_unicode :
  strings.TrimSpace (NBSP +:+ strings.LF +:+ "the n" +:+ strings.LF) = "the n".
Proof. vm_compute. reflexivity. Qed.

Example trailing_comment_unicode :
  writeTrailingComment [4; 0; 3; 0] sample_pd = Some (tt, append " //the n" sample_pd).
Proof. vm_compute. reflexivity. Qed.



(** ** What [protodesc] accepts *)

Lemma CheckValid_loop_all rp sorted :
  protodesc.CheckValid_loop rp sorted false = None -> Forall range_ok sorted.
Proof.
  revert rp. induction sorted as [|r sorted IH]; intros rp; [by constructor|].
  cbn [protodesc.CheckValid_loop]. unfold protodesc.isValidFieldNumber.
  rewrite !orb_false_r.
  destruct (protowire.MinValidNumber <=? protodesc.Start r) eqn:E1; [|done].
  destruct (protodesc.Start r <=? protowire.MaxValidNumber) eqn:E2; [|done].
  destruct (protowire.MinValidNumber <=? protodesc.End r) eqn:E3; [|done].
  destruct (protodesc.End r <=? protowire.MaxValidNumber) eqn:E4; [|done].
  destruct (protodesc.Start r <=? protodesc.End r) eqn:E5; [|done].
  cbn [andb negb]. intros H.
  assert (Hr : range_ok r) by (unfold range_ok; lia).
  constructor; [done|].
  destruct rp as [rp'|]; [|by eapply IH].
  destruct (protodesc.End rp' <? protodesc.Start r); cbn [negb] in H; [|done].
  by eapply IH.
Qed.

Lemma insertRange_elem r sorted x :
  x ∈ sorted -> x ∈ protodesc.insertRange r sorted.
Proof.
  induction sorted as [|r' sorted IH]; [by intros ?%elem_of_nil|].
  cbn [protodesc.insertRange]. destruct (r.1 <? r'.1).
  - intros H. by apply elem_of_cons; right.
  - intros [->|?]%elem_of_cons; apply elem_of_cons; [by left|right; by apply IH].
Qed.

Lemma insertRange_new r sorted : r ∈ protodesc.insertRange r sorted.
Proof.
  induction sorted as [|r' sorted IH]; cbn [protodesc.insertRange].
  - apply elem_of_cons. by left.
  - destruct (r.1 <? r'.1); apply elem_of_cons; [by left|by right].
Qed.

Lemma sortRanges_elem ranges x : x ∈ ranges -> x ∈ protodesc.sortRanges ranges.
Proof.
  induction ranges as [|r ranges IH]; [done|].
  cbn [protodesc.sortRanges fold_right].
  intros [->|H]%elem_of_cons; [apply insertRange_new|].
  by apply insertRange_elem, IH.
Qed.

Lemma CheckValid_ranges ranges :
  protodesc.FieldRanges_CheckValid ranges false = None -> Forall range_ok ranges.
Proof.
  intros H%CheckValid_loop_all. rewrite Forall_forall in H |- *.
  intros x Hx. by apply H, sortRanges_elem.
Qed.

Lemma validateOneofs_ok oneofs :
  protodesc.validateOneofs oneofs = None -> forallb oneof_ok oneofs = true.
Proof.
  induction oneofs as [|o oneofs IH]; [done|]. cbn [protodesc.validateOneofs forallb].
  destruct (len (oFields o) =? 0) eqn:E; [done|]. intros H. rewrite IH by done.
  unfold oneof_ok. destruct (oFields o); [done|]. done.
Qed.

(** What [validateMessage] has checked on one message. *)
Lemma validateMessage_inv m :
  protodesc.validateMessage m = None ->
  Forall range_ok (mReservedRanges m) /\
  forallb oneof_ok (mOneofs m) = true /\
  Forall (fun m' => protodesc.validateMessage m' = None) (mMessages m).
Proof.
  destruct m as [name rnames rranges msgs enums fields oneofs].
  cbn [protodesc.validateMessage mReservedNames mReservedRanges mOneofs mMessages].
  destruct (protodesc.Names_CheckValid rnames); [done|].
  destruct (protodesc.FieldRanges_CheckValid rranges false) eqn:Er; [done|].
  destruct (protodesc.validateOneofs oneofs) eqn:Eo; [done|].
  intros H. split; [by apply CheckValid_ranges|]. split; [by apply validateOneofs_ok|].
  induction msgs as [|m' msgs IH]; [by constructor|].
  destruct (protodesc.validateMessage m') eqn:Em; [done|].
  constructor; [done|]. by apply IH.
Qed.

Lemma validateMessageDeclarations_inv ms :
  protodesc.validateMessageDeclarations ms = None ->
  Forall (fun m => protodesc.validateMessage m = None) ms.
Proof.
  induction ms as [|m ms IH]; [by constructor|].
  cbn [protodesc.validateMessageDeclarations].
  destruct (protodesc.validateMessage m) eqn:Em; [done|].
  intros H. constructor; [done|]. by apply IH.
Qed.

Lemma validateMessage_message_ok m :
  protodesc.validateMessage m = None -> message_ok m = true.
Proof.
  induction m as [m IH] using MessageDescriptor_nested_ind. intros H.
  destruct (validateMessage_inv m H) as (_ & Ho & Hn).
  destruct m as [name rnames rranges msgs enums fields oneofs].
  cbn [message_ok mOneofs mMessages] in *. rewrite Ho. cbn [andb].
  clear H Ho. induction msgs as [|m' msgs IHm]; [done|].
  cbn [forallb]. inversion IH; subst. inversion Hn; subst.
  rewrite H1 by done. cbn [andb]. by apply IHm.
Qed.

Lemma messageAt_valid ms ref m :
  Forall (fun m => protodesc.validateMessage m = None) ms ->
  messageAt ms ref = Some m -> protodesc.validateMessage m = None.
Proof.
  revert ms. induction ref as [|i ref IH]; intros ms Hms; [done|].
  destruct ref as [|j ref].
  - cbn [messageAt]. intros H. by eapply (Forall_lookup_1 _ _ _ _ Hms H).
  - cbn [messageAt]. destruct (ms !! i) as [m0|] eqn:E; [|done].
    apply IH. pose proof (Forall_lookup_1 _ _ _ _ Hms E) as H0. cbn beta in H0.
    by apply validateMessage_inv in H0 as (_ & _ & ?).
Qed.

Lemma New_inv rest pb d :
  protodesc.New rest pb = inl d ->
  d = pFile pb /\ Forall (fun m => protodesc.validateMessage m = None) (dMessages d).
Proof.
  unfold protodesc.New.
  destruct (protodesc.validateMessageDeclarations (dMessages (pFile pb))) eqn:E; [done|].
  destruct (rest (pFile pb)); [done|]. intros [= <-]. split; [done|].
  by apply validateMessageDeclarations_inv.
Qed.

Lemma New_ranges rest pb d ref message i lower upperExclusive :
  protodesc.New rest pb = inl d ->
  messageAt (dMessages d) ref = Some message ->
  mReservedRanges message !! i = Some (lower, upperExclusive) ->
  int32 upperExclusive ->
  protowire.MinValidNumber <= lower /\ lower < upperExclusive /\
  upperExclusive - 1 <= protowire.MaxValidNumber.
Proof.
  intros [_ Hd]%New_inv Hm Hi Hu.
  pose proof (messageAt_valid _ _ _ Hd Hm) as Hv.
  apply validateMessage_inv in Hv as (Hr & _ & _).
  pose proof (Forall_lookup_1 _ _ _ _ Hr Hi) as (H1 & H2 & H3).
  unfold protodesc.Start, protodesc.End, protowire.MinValidNumber,
    protowire.MaxValidNumber, int32 in *.
  cbn [fst snd] in *.
  destruct (Z.eq_dec upperExclusive (- 2 ^ 31)) as [->|Hne].
  { exfalso. vm_compute in H3. by apply H3. }
  rewrite wrap32_id in * by (unfold int32; lia). lia.
Qed.

(** ** The whole rendering ends normally *)

Lemma total_writeMethodWithPath lo d method servicePath methodIdx :
  0 <= lo -> total lo d (writeMethodWithPath method servicePath methodIdx).
Proof. intros H pd Hpd _. rewrite writeMethodWithPath_run by lia. done. Qed.

Lemma total_writeServiceWithPath lo d service serviceIdx :
  0 <= lo -> total lo d (writeServiceWithPath service serviceIdx).
Proof. intros H pd Hpd _. rewrite writeServiceWithPath_run by lia. done. Qed.

Lemma total_writeFileOptions_loop lo d definitions options printedOption :
  total lo d (writeFileOptions_loop definitions options printedOption).
Proof.
  revert lo printedOption.
  induction definitions as [|[OptionName FieldName] definitions IH];
    intros lo printedOption;
    cbn [writeFileOptions_loop]; [apply total_ret|].
  destruct (options !! FieldName) as [[s|b]|]; [| |apply IH].
  - eapply total_bind; [unfold writeStringFileOptions; solve [writer]| |intros; apply IH].
    unfold writeStringFileOptions. runner.
  - eapply total_bind; [unfold writeBoolFileOptions; solve [writer]| |intros; apply IH].
    unfold writeBoolFileOptions. runner.
Qed.

Lemma total_writeFileOptions lo d : total lo d writeFileOptions.
Proof.
  unfold writeFileOptions. apply total_receiver. intros pd0 _.
  destruct (pOptions (pb pd0)); [|apply total_ret].
  eapply total_bind; [apply writes_writeFileOptions_loop
                     |apply total_writeFileOptions_loop|].
  intros []; [apply total_write|apply total_ret].
Qed.

Lemma total_writeFileDescriptor lo d :
  0 <= lo -> forallb message_ok (dMessages d) = true -> total lo d writeFileDescriptor.
Proof.
  intros Hlo Hok. unfold writeFileDescriptor.
  eapply total_bind; [apply writes_writeLeadingComments
                     |by apply total_writeLeadingComments|].
  intros _. apply total_receiver. intros pd0 Hd0. rewrite Hd0.
  assert (Hs : forall lo', 0 <= lo' ->
    total lo' d (each (fun i service => writeServiceWithPath service i) 0 (dServices d))).
  { intros lo' Hlo'. apply total_each; [intros; apply writes_writeServiceWithPath|].
    intros. by apply total_writeServiceWithPath. }
  assert (Hm : forall lo', 0 <= lo' ->
    total lo' d (each (fun i message =>
                         writeMessageWithPath message [Z.to_nat i] [] i false)
                   0 (dMessages d))).
  { intros lo' Hlo'. apply total_each; [intros; apply writes_writeMessageWithPath|].
    intros j message Hj. apply total_writeMessageWithPath; [done| |].
    - by eapply forallb_lookup.
    - cbn [messageAt]. by rewrite Z.add_0_l, Nat2Z.id. }
  assert (He : forall lo', 0 <= lo' ->
    total lo' d (each (fun i enum => writeEnumWithPath enum [] i false) 0 (dEnums d))).
  { intros lo' Hlo'. apply total_each; [intros; apply writes_writeEnumWithPath|].
    intros. by apply total_writeEnumWithPath. }
  pose proof (fun lo' => total_writeFileOptions lo' d) as Ho.
  unfold writeImport. clear Hok Hd0. runner.
Qed.

Lemma fold_recordLocation locations pd :
  fold_left recordLocation locations pd
  = set_comments (comments (fold_left recordLocation locations pd)) pd.
Proof.
  revert pd. induction locations as [|loc locations IH]; intros pd; [by destruct pd|].
  cbn [fold_left]. by rewrite IH at 1.
Qed.

Lemma buildCommentMap_run pd :
  exists table, buildCommentMap pd = Some (tt, set_comments table pd).
Proof.
  unfold buildCommentMap. destruct (pSourceCodeInfo (pb (set_comments ∅ pd))).
  - eexists. by rewrite fold_recordLocation.
  - by eexists.
Qed.

Lemma NewFromDescriptor_run rest proto :
  match protodesc.New rest proto with
  | inr err =>
      NewFromDescriptor rest proto
      = Some (inr (Errorf "Couldn't create FileDescriptor: %w" err))
  | inl d =>
      exists pd,
        NewFromDescriptor rest proto = Some (inl pd) /\
        descriptor pd = d /\ pb pd = proto /\ indendation pd = 0
  end.
Proof.
  unfold NewFromDescriptor. destruct (protodesc.New rest proto) as [d|err] eqn:E; [|done].
  apply New_inv in E as [_ Hv].
  set (pd0 := {| builder := ""; indendation := 0; pb := proto; descriptor := d;
                 filename := ""; comments := ∅ |}).
  unfold mbind, R_bind. destruct (buildCommentMap_run pd0) as [table ->].
  assert (Hok : forallb message_ok (dMessages d) = true).
  { clear pd0. induction Hv as [|m ms Hm _ IH]; [done|]. cbn [forallb].
    by rewrite validateMessage_message_ok. }
  destruct (total_writeFileDescriptor 0 d (Z.le_refl _) Hok (set_comments table pd0))
    as [[[] pd'] Ew]; [done|done|].
  rewrite Ew. exists pd'. split; [done|].
  destruct (writes_run _ _ _ _ writes_writeFileDescriptor Ew) as (out & -> & _). done.
Qed.

(** ** The comment table *)

Lemma recordLocations_lookup locations pd path :
  comments (fold_left recordLocation locations pd) !! pathKey path
  = match last (filter (fun loc => lPath loc = path) locations) with
    | Some loc => Some (commentsOf loc)
    | None => comments pd !! pathKey path
    end.
Proof.
  revert pd. induction locations as [|loc locations IH]; intros pd; [done|].
  cbn [fold_left]. rewrite IH. rewrite filter_cons.
  destruct (decide (lPath loc = path)) as [E|E].
  - rewrite last_cons. destruct (last (filter _ locations)); [done|].
    unfold recordLocation. cbn [comments set_comments]. rewrite E.
    by rewrite lookup_insert_eq.
  - destruct (last (filter _ locations)); [done|].
    unfold recordLocation. cbn [comments set_comments].
    apply lookup_insert_ne. intros H. by apply pathKey_injective in H.
Qed.

(** X8. After [buildCommentMap] the lookup of a path answers with the
    comments of the last location of the source info recorded for exactly
    that path, and with nothing when no location has that path or when there
    is no source info; what the table held before is gone. *)
Theorem buildCommentMap_lookup pd path :
  exists pd',
    buildCommentMap pd = Some (tt, pd') /\
    getComments path pd'
    = Some (match pSourceCodeInfo (pb pd) with
            | None => None
            | Some locations =>
                commentsOf <$> last (filter (fun loc => lPath loc = path) locations)
            end, pd').
Proof.
  unfold buildCommentMap, getComments. cbn [pb set_comments].
  destruct (pSourceCodeInfo (pb pd)) as [locations|]; eexists; (split; [done|]).
  - rewrite recordLocations_lookup. cbn [comments set_comments].
    by destruct (last _).
  - done.
Qed.

(** ** More about the renderer *)

(** X7. Two paths have the same key of the comment table only when they
    are the same path. *)
Theorem pathKey_inj path1 path2 : pathKey path1 = pathKey path2 <-> path1 = path2.
Proof. split; [apply pathKey_injective|by intros ->]. Qed.

(** X9. What [strings.TrimSpace] returns never ends in a line feed, so the
    [strings.TrimSuffix] that [writeTrailingComment] applies to it removes
    nothing. *)
Theorem TrimSuffix_after_TrimSpace s :
  strings.HasSuffix (strings.TrimSpace s) strings.LF = false /\
  strings.TrimSuffix (strings.TrimSpace s) strings.LF = strings.TrimSpace s.
Proof. split; [apply TrimSpace_no_LF|apply TrimSpace_TrimSuffix]. Qed.

(** X10. The leading comments of a path are written as blocks of lines,
    each line behind the indentation and [//]: first the detached comments,
    each followed by an empty line, then the leading comment; a path without
    an entry in the table writes nothing. *)
Theorem leading_comments_rendering path pd :
  0 <= indendation pd ->
  writeLeadingComments path pd
  = Some (tt, append (leading_text (indendation pd) (comments pd !! pathKey path)) pd) /\
  (comments pd !! pathKey path = None -> writeLeadingComments path pd = Some (tt, pd)).
Proof.
  intros Hind. rewrite writeLeadingComments_run by done. split; [done|].
  intros ->. by rewrite append_empty.
Qed.

Lemma leading_comments_rendering_witness :
  writeLeadingComments [6; 0] sample_pd
  = Some (tt, append ("  // Serves." +:+ strings.LF) sample_pd).
Proof.
  assert (H : 0 <= indendation sample_pd) by (vm_compute; discriminate).
  exact (proj1 (leading_comments_rendering [6; 0] sample_pd H)).
Defined.

(** X11. A field is rendered as one line behind its leading comments: the
    indentation, the label, the type, the name, [=], the number, the default
    if there is one, [;], the trailing comment and a line feed.  The label
    is [optional] for a field with that keyword, else [repeated] for a
    repeated field, else [required] for a required field of a [proto2] file,
    and none otherwise. *)
Theorem field_rendering field msgPath fieldIdx pd :
  0 <= indendation pd ->
  let info := comments pd !! pathKey (msgPath ++ [2; fieldIdx]) in
  writeFieldWithPath field msgPath fieldIdx pd
  = Some (tt, append (leading_text (indendation pd) info +:+
                      spaces (indendation pd) +:+
                      (if fHasOptionalKeyword field then "optional "
                       else match fCardinality field with
                            | Repeated => "repeated "
                            | Required =>
                                if String.eqb (dSyntax (descriptor pd)) "proto2"
                                then "required " else ""
                            | Optional => ""
                            end) +:+
                      type_text field +:+ " " +:+ fName field +:+ " = " +:+
                      strconv.Itoa (fNumber field) +:+ default_text field +:+ ";" +:+
                      trailing_text info +:+ strings.LF) pd).
Proof. intros Hind info. by rewrite writeFieldWithPath_run. Qed.

Lemma field_rendering_witness :
  writeFieldWithPath sample_field [4; 0] 0 sample_pd
  = Some (tt, append ("  optional int32 x = 1; //the x" +:+ strings.LF) sample_pd).
Proof.
  assert (H : 0 <= indendation sample_pd) by (vm_compute; discriminate).
  exact (field_rendering sample_field [4; 0] 0 sample_pd H).
Defined.

(** X12. An enum is rendered, behind its leading comments, as the line
    [enum <name> {], one line [<value> = <number>;] for each value in the
    order of the descriptor, one level deeper and with the comments of the
    value, and the closing brace, followed by an empty line; the indentation
    is afterwards what it was. *)
Theorem enum_rendering enum basePath enumIdx (isNested : bool) pd :
  0 <= indendation pd ->
  let enumPath := if isNested then basePath ++ [4; enumIdx] else [5; enumIdx] in
  let info := comments pd !! pathKey enumPath in
  writeEnumWithPath enum basePath enumIdx isNested pd
  = Some (tt, append (leading_text (indendation pd) info +:+
                      spaces (indendation pd) +:+ "enum " +:+ eName enum +:+ " {" +:+
                      strings.LF +:+
                      texts (fun i value =>
                               let info := comments pd !! pathKey (enumPath ++ [2; i]) in
                               leading_text (indendation pd + 1) info +:+
                               spaces (indendation pd + 1) +:+ vName value +:+ " = " +:+
                               strconv.Itoa (vNumber value) +:+ ";" +:+
                               trailing_text info +:+ strings.LF)
                        0 (eValues enum) +:+
                      spaces (indendation pd) +:+ "}" +:+ trailing_text info +:+
                      strings.LF +:+ strings.LF) pd).
Proof. intros Hind enumPath info. by rewrite writeEnumWithPath_run. Qed.

Lemma enum_rendering_witness :
  writeEnumWithPath sample_enum [] 0 false sample_pd
  = Some (tt, append ("  enum E {" +:+ strings.LF +:+
                      "    ZERO = 0; //nothing" +:+ strings.LF +:+
                      "  }" +:+ strings.LF +:+ strings.LF) sample_pd).
Proof.
  assert (H : 0 <= indendation sample_pd) by (vm_compute; discriminate).
  exact (enum_rendering sample_enum [] 0 false sample_pd H).
Defined.

(** X13. A service is rendered, behind its leading comments, as the line
    [service <name> {], which is not indented, one line
    [rpc <name> (<input>) returns (<output>) {}] for each method, one level
    deeper, with [stream] before a streamed type and a dot before each type
    name, and the closing brace followed by an empty line. *)
Theorem service_rendering service serviceIdx pd :
  0 <= indendation pd ->
  writeServiceWithPath service serviceIdx pd
  = Some (tt, append (leading_text (indendation pd) (comments pd !! pathKey [6; serviceIdx])
                      +:+ "service " +:+ sName service +:+ " {" +:+ strings.LF +:+
                      texts (fun i method =>
                               let info := comments pd !! pathKey [6; serviceIdx; 2; i] in
                               leading_text (indendation pd + 1) info +:+
                               spaces (indendation pd + 1) +:+ "rpc " +:+
                               rName method +:+ " (" +:+
                               (if rIsStreamingClient method then "stream " else "") +:+
                               "." +:+ rInput method +:+ ") returns (" +:+
                               (if rIsStreamingServer method then "stream " else "") +:+
                               "." +:+ rOutput method +:+ ") {}" +:+
                               trailing_text info +:+ strings.LF)
                        0 (sMethods service) +:+
                      spaces (indendation pd) +:+ "}" +:+ strings.LF +:+ strings.LF) pd).
Proof. intros Hind. by rewrite writeServiceWithPath_run. Qed.

Lemma service_rendering_witness :
  writeServiceWithPath sample_service 0 sample_pd
  = Some (tt, append ("  // Serves." +:+ strings.LF +:+
                      "service S {" +:+ strings.LF +:+
                      "    rpc Get (.pkg.M) returns (stream .pkg.M) {} //the call" +:+
                      strings.LF +:+
                      "  }" +:+ strings.LF +:+ strings.LF) sample_pd).
Proof.
  assert (H : 0 <= indendation sample_pd) by (vm_compute; discriminate).
  exact (service_rendering sample_service 0 sample_pd H).
Defined.

(** X14. In a descriptor that [protodesc] has accepted, every reserved
    range, at any depth, has its bounds in order and between the least and
    the largest field number: the renderer never exchanges the bounds of a
    range that [NewFromDescriptor] hands it. *)
Theorem accepted_ranges_in_order rest proto d ref message i lower upperExclusive :
  protodesc.New rest proto = inl d ->
  messageAt (dMessages d) ref = Some message ->
  mReservedRanges message !! i = Some (lower, upperExclusive) ->
  int32 upperExclusive ->
  protowire.MinValidNumber <= lower /\ lower < upperExclusive /\
  upperExclusive - 1 <= protowire.MaxValidNumber.
Proof. apply New_ranges. Qed.

Lemma accepted_ranges_in_order_witness :
  protowire.MinValidNumber <= 5 /\ 5 < 10 /\ 10 - 1 <= protowire.MaxValidNumber.
Proof.
  assert (H0 : protodesc.New (fun _ => None) sample_pb = inl sample_descriptor)
    by (vm_compute; reflexivity).
  assert (H1 : messageAt (dMessages sample_descriptor) [0%nat; 0%nat] = Some sample_nested)
    by reflexivity.
  assert (H2 : mReservedRanges sample_nested !! 0%nat = Some (5, 10)) by reflexivity.
  assert (H3 : int32 10) by (unfold int32; lia).
  exact (accepted_ranges_in_order (fun _ => None) sample_pb sample_descriptor
           [0%nat; 0%nat] sample_nested 0 5 10 H0 H1 H2 H3).
Defined.

(** X15. A file in which some message, at any depth, reserves a range
    whose first bound is not below its second makes [NewFromDescriptor]
    return the error of [protodesc]; nothing is rendered. *)
Theorem NewFromDescriptor_rejects_unordered rest proto ref message i lower
    upperExclusive :
  messageAt (dMessages (pFile proto)) ref = Some message ->
  mReservedRanges message !! i = Some (lower, upperExclusive) ->
  int32 upperExclusive -> upperExclusive <= lower ->
  exists err,
    NewFromDescriptor rest proto
    = Some (inr (Errorf "Couldn't create FileDescriptor: %w" err)).
Proof.
  intros Hm Hi Hu Hle. unfold NewFromDescriptor.
  destruct (protodesc.New rest proto) as [d|err] eqn:E; [|by eexists].
  pose proof (New_inv _ _ _ E) as [-> _].
  pose proof (New_ranges _ _ _ _ _ _ _ _ E Hm Hi Hu). lia.
Qed.

Lemma NewFromDescriptor_rejects_unordered_witness :
  exists err,
    NewFromDescriptor (fun _ => None) reversed_pb
    = Some (inr (Errorf "Couldn't create FileDescriptor: %w" err)).
Proof.
  assert (H0 : messageAt (dMessages (pFile reversed_pb)) [0%nat]
               = Some (mkMessage "R" [] [(10, 5)] [] [] [] [])) by reflexivity.
  assert (H1 : mReservedRanges (mkMessage "R" [] [(10, 5)] [] [] [] []) !! 0%nat
               = Some (10, 5)) by reflexivity.
  assert (H2 : int32 5) by (unfold int32; lia).
  assert (H3 : 5 <= 10) by lia.
  exact (NewFromDescriptor_rejects_unordered (fun _ => None) reversed_pb [0%nat] _ 0 10 5
           H0 H1 H2 H3).
Defined.

(** The error of the sample is the one of the range check. *)
Example reversed_rejected :
  NewFromDescriptor (fun _ => None) reversed_pb
  = Some (inr (Errorf "Couldn't create FileDescriptor: %w"
                 (protodesc.InvalidRange (10, 5)))).
Proof. vm_compute. reflexivity. Qed.

(** X16. [NewFromDescriptor] never panics: it returns the error of
    [protodesc] when there is one, and otherwise a definition that holds the
    descriptor and the message it was built from, at indentation zero
    again. *)
Theorem NewFromDescriptor_returns rest proto :
  match protodesc.New rest proto with
  | inr err =>
      NewFromDescriptor rest proto
      = Some (inr (Errorf "Couldn't create FileDescriptor: %w" err))
  | inl d =>
      exists pd,
        NewFromDescriptor rest proto = Some (inl pd) /\
        descriptor pd = d /\ pb pd = proto /\ indendation pd = 0
  end.
Proof. apply NewFromDescriptor_run. Qed.
